(** * Highlight grid: a shallow embedding of the highlight engine

    The sources hold three generations of the engine that turns the cell
    runs of the redraw stream into highlight ranges.
    - [HighlightGrid] with a column store ([grid: Highlight[][][]]): the
      cell-run processor [processHighlightCellsEvent], the range builder
      [buildHighlightRanges] and the row shifter [shiftHighlights].  Most
      of the development is about this one.
    - [HighlightGrid] with a cell store ([lineCells]): [handleGridLine],
      [handleRedrawFlush], the range and decoration builders with their
      line cache, the cells of [computeLineHighlights],
      [refreshDecorations] and [dispose] (module [CellGrid]).
    - [HighlightProvider]: [processHLCellsEvent], [shiftGridHighlights],
      the end of [getGridHighlights], and the decorators of the highlight
      groups, [vimHighlightToVSCodeOptions], [normalizeDecorationConfig]
      and [addHighlightGroup] (module [Provider]).

    JavaScript values are modelled as follows.
    - A [number] used as an index is a [nat]; a [number] used in arithmetic
      is a [Z]; [NaN] (only produced by [% 0]) is [None].
    - A [string] is the list of its UTF-16 code units.
    - A sparse array is a [list (option A)]: the list length is the array's
      [length] and [None] is a hole.
    - A [Map] is the list of its entries in insertion order.
    - A thrown [TypeError] or [RangeError] and a loop that runs out of fuel
      are [None].
    - Strings and arrays are unbounded: the limit of an engine on their
      length is not modelled. *)

From Stdlib Require Import ZArith NArith Lia Bool.
From stdpp Require Import base tactics option list numbers strings.

Set Default Proof Using "Type".
Open Scope Z_scope.
Open Scope nat_scope.

(** ** Sparse JavaScript arrays *)

Module JsArray.

Abbreviation sparse A := (list (option A)).

Section ops.
Context {A : Type}.

(** [a[i]]: [None] is [undefined], for a hole as for an index past the end. *)
Definition arr_get (a : sparse A) (i : nat) : option A :=
      default None (a !! i).

(** [a[i] = v]: writing past the end extends the array with holes. *)
Definition arr_set (a : sparse A) (i : nat) (v : A) : sparse A :=
      if decide (i < length a) then <[i := Some v]> a
      else a ++ replicate (i - length a) None ++ [Some v].

(** [delete a[i]]: leaves a hole, [length] is unchanged. *)
Definition arr_delete (a : sparse A) (i : nat) : sparse A :=
      <[i := None]> a.

(** The pairs [(index, value)] that [a.forEach] visits, in visiting
        order: ascending indices, holes skipped. *)
Fixpoint entries_from (i : nat) (a : sparse A) : list (nat * A) :=
      match a with
      | [] => []
      | Some x :: a' => (i, x) :: entries_from (S i) a'
      | None :: a' => entries_from (S i) a'
      end.

Definition arr_entries (a : sparse A) : list (nat * A) := entries_from 0 a.

End ops.

End JsArray.
Import JsArray.

(** ** JavaScript strings *)

Module JsString.

(** A string is the list of its UTF-16 code units. *)
Abbreviation jsstring := (list N).

Definition TAB : jsstring := [9%N].
Definition SPACE : N := 32%N.

(** [" ".repeat(n)] *)
Definition spaces (n : nat) : jsstring := replicate n SPACE.

(** [parts.join("")] *)
Definition join (parts : list jsstring) : jsstring := concat parts.

Definition isHighSurrogate (u : N) : bool := (55296 <=? u)%N && (u <=? 56319)%N.
Definition isLowSurrogate (u : N) : bool := (56320 <=? u)%N && (u <=? 57343)%N.

(** [[...s].length]: the string iterator yields code points, so a high
    surrogate followed by a low surrogate counts once. *)
Fixpoint codePointCount (s : jsstring) : nat :=
  match s with
  | [] => 0
  | u :: s' =>
      match s' with
      | v :: s'' =>
          if isHighSurrogate u && isLowSurrogate v
          then S (codePointCount s'')
          else S (codePointCount s')
      | [] => 1
      end
  end.

(** [[...s]]: the code points of the string, each a string of one or two
    code units. *)
Fixpoint codePoints (s : jsstring) : list jsstring :=
  match s with
  | [] => []
  | u :: s' =>
      match s' with
      | v :: s'' =>
          if isHighSurrogate u && isLowSurrogate v
          then [u; v] :: codePoints s''
          else [u] :: codePoints s'
      | [] => [[u]]
      end
  end.

(** [text.replace(/\t/g, " ".repeat(tabSize))] for a [tabSize] that is not
    negative; a negative one, on which [repeat] throws, gives no spaces
    here. *)
Definition expandTabs (s : jsstring) (tabSize : Z) : jsstring :=
  s ≫= fun u => if decide (u = 9%N) then spaces (Z.to_nat tabSize) else [u].

(** Truthiness of [s] where [s : string | undefined]. *)
Definition truthy (s : option jsstring) : bool :=
  match s with
  | Some (_ :: _) => true
  | _ => false
  end.

(** ASCII literals. *)
Definition ascii (s : string) : jsstring :=
  Ascii.N_of_ascii <$> String.list_ascii_of_string s.

End JsString.
Import JsString.

(** ** The data model of the grid-based implementation *)

(** [interface ValidCell { text: string; hlId: number }] *)
Record ValidCell := mkCell { text : jsstring; hlId : Z }.

(** [interface Highlight extends ValidCell { virtText?: string }]: the cell
    it extends, and the optional virtual text. *)
Record Highlight := mkHighlight { cell : ValidCell; virtText : option jsstring }.

#[global] Instance ValidCell_eq_dec : EqDecision ValidCell.
Proof. solve_decision. Defined.
#[global] Instance Highlight_eq_dec : EqDecision Highlight.
Proof. solve_decision. Defined.

(** [type HighlightRange = NormalTextHighlightRange | VirtualTextHighlightRange] *)
Inductive HighlightRange :=
| NormalRange (hlId : Z) (line : Z) (startCol endCol : nat)
| VirtualRange (highlights : list Highlight) (line : Z) (col : nat).

#[global] Instance HighlightRange_eq_dec : EqDecision HighlightRange.
Proof. solve_decision. Defined.

(** [interface HighlightCellsEvent] *)
Record HighlightCellsEvent := mkEvent {
  row : nat;
  vimCol : nat;
  validCells : list ValidCell;
  lineText : jsstring;
  tabSize : Z;
}.

(** A row of the grid: character column -> highlights of that column. *)
Abbreviation GridRow := (sparse (list Highlight)).
(** [private grid: Highlight[][][]] *)
Abbreviation Grid := (sparse GridRow).

(** ** [class CellIter] *)

Record CellIter := mkIter { _cells : list ValidCell; _index : nat }.

(** [next()]: returns [this._cells[this._index++]]; the index advances also
    when the cells are exhausted. *)
Definition next (it : CellIter) : option ValidCell * CellIter :=
  (_cells it !! _index it, mkIter (_cells it) (S (_index it))).

Definition getNext (it : CellIter) : option ValidCell := _cells it !! _index it.

Definition setNext (it : CellIter) (hl : Z) (t : jsstring) : CellIter :=
  if decide (_index it < length (_cells it))
  then mkIter (<[_index it := mkCell t hl]> (_cells it)) (_index it)
  else it.

(** ** Array and number helpers of the language *)

(** [a % b] on integers: the sign follows the dividend, and [% 0] is [NaN]. *)
Definition jsRem (a b : Z) : option Z :=
  if decide (b = 0)%Z then None else Some (Z.rem a b).

(** [x > y] where [x] may be [NaN]: every comparison with [NaN] is false. *)
Definition gtNaN (x : option Z) (y : Z) : bool :=
  match x with
  | Some v => (y <? v)%Z
  | None => false
  end.

(** [l.slice(b, e)] for natural [b] and [e]. *)
Definition slice {A} (b e : nat) (l : list A) : list A := take (e - b) (drop b l).

(** [l.slice(0, n)]: a negative [n] counts from the end. *)
Definition sliceTo {A} (n : Z) (l : list A) : list A :=
  if (0 <=? n)%Z then take (Z.to_nat n) l
  else take (length l - Z.to_nat (- n)) l.

(** [l.lastIndexOf(x)], [None] standing for [-1]. *)
Fixpoint lastIndexOf_from (i : nat) (x : jsstring) (l : list jsstring) : option nat :=
  match l with
  | [] => None
  | y :: l' =>
      match lastIndexOf_from (S i) x l' with
      | Some j => Some j
      | None => if decide (y = x) then Some i else None
      end
  end.

Definition lastIndexOf (x : jsstring) (l : list jsstring) : option nat :=
  lastIndexOf_from 0 x l.

(** ** [class HighlightGrid], grid-based implementation *)

(** [cleanRow(row)] *)
Definition cleanRow (grid : Grid) (row : nat) : Grid := arr_delete grid row.

(** [maxColInRow(row)] *)
Definition maxColInRow (grid : Grid) (row : nat) : nat :=
  match arr_get grid row with
  | None => 0
  | Some gridRow =>
      foldl (fun currMaxCol '(col, _) => if decide (currMaxCol < col) then col else currMaxCol)
            0 (arr_entries gridRow)
  end.

(** The text utilities that the processor imports from [utils/text] and
    [utils/text_cells].  The processor is defined, and its properties hold,
    for any such functions.  A grapheme is never the empty string, so the
    [c.length - 1] below are natural numbers. *)
Class TextUtils := {
  splitGraphemes : jsstring -> list jsstring;
  getWidth : jsstring -> Z -> Z;
  isDouble : jsstring -> bool;
  calculateEditorColFromVimScreenCol : jsstring -> nat -> Z -> nat;
}.

Section CellRunProcessor.
Context `{TextUtils}.

(** [calcTabCells]: the number of cells occupied by the tab at [tabCol]. *)
Definition calcTabCells (lineChars : list jsstring) (tabSize : Z) (tabCol : nat) : option Z :=
  let nearestTabIdx :=
    match lastIndexOf TAB (slice 0 tabCol lineChars) with
    | None => 0
    | Some i => S i
    end in
  let center := join (slice nearestTabIdx tabCol lineChars) in
  w ← jsRem (getWidth center tabSize) tabSize;
  Some (tabSize - w)%Z.

(** [const add = (cell, virtText?) => hls.push({ ...cell, virtText })] *)
Definition add (hls : list Highlight) (c : ValidCell) (virt : option jsstring) : list Highlight :=
  hls ++ [mkHighlight c virt].

(** [n] rounds of [cell = cellIter.next(); cell && add(cell, cell.text)]:
    the body shared by the tab loop and by the loop that fills [rightHls]. *)
Fixpoint takeVirtual (n : nat) (it : CellIter) (hls : list Highlight) : list Highlight * CellIter :=
  match n with
  | 0 => (hls, it)
  | S n' =>
      let '(c, it') := next it in
      takeVirtual n' it'
        match c with
        | Some c => add hls c (Some (text c))
        | None => hls
        end
  end.

(** The region "If the previous column can contain multiple cells, then the
    redraw cells may contain cells from the previous column". *)
Definition rederivePrevColumn (lineChars : list jsstring) (tabSize : Z)
    (vimCol editorCol : nat) (cellIter : CellIter) (gridRow : GridRow)
    : GridRow * CellIter :=
  if decide (0 < editorCol) then
    let prevCol := editorCol - 1 in
    let prevChar := lineChars !! prevCol in
    let expectedCells :=
      if decide (prevChar = Some TAB) then calcTabCells lineChars tabSize prevCol
      else Some (getWidth (default [] prevChar) tabSize) in
    if gtNaN expectedCells 1 then
      let expectedCells := default 0%Z expectedCells in
      let expectedVimCol := getWidth (join (slice 0 editorCol lineChars)) tabSize in
      if (Z.of_nat vimCol <? expectedVimCol)%Z then
        let '(rightHls, cellIter) :=
          takeVirtual (Z.to_nat (expectedVimCol - Z.of_nat vimCol)) cellIter [] in
        let n := (expectedCells - Z.of_nat (length rightHls))%Z in
        let leftHls :=
          if decide (n = 0)%Z then []
          else sliceTo n (default [] (arr_get gridRow prevCol)) in
        (arr_set gridRow prevCol (leftHls ++ rightHls), cellIter)
      else (gridRow, cellIter)
    else (gridRow, cellIter)
  else (gridRow, cellIter).

(** The body of the cell walk up to the end of its [do { } while (false)]:
    from the current cell and character column it computes the column
    [hlCol] to write, its highlights [hls], the advanced [currCharCol] and
    the advanced iterator. *)
Definition cellStep (lineChars filledLineChars : list jsstring) (tabSize : Z)
    (cellIter : CellIter) (cell : ValidCell) (currCharCol : nat)
    : nat * list Highlight * nat * CellIter :=
  let currChar := filledLineChars !! currCharCol in
  let extraCols := if truthy currChar then length (default [] currChar) - 1 else 0 in
  let currCharCol := currCharCol + extraCols in
  let hlCol :=
    currCharCol - (if truthy currChar then codePointCount (default [] currChar) - 1 else 0) in
  if decide (currChar = Some TAB) then
    let rounds :=
      match calcTabCells lineChars tabSize currCharCol with
      | Some n => Z.to_nat (n - 1)
      | None => 0
      end in
    let '(hls, cellIter) := takeVirtual rounds cellIter (add [] cell (Some (text cell))) in
    (hlCol, hls, currCharCol, cellIter)
  else if truthy currChar && isDouble (default [] currChar) then
    if decide (currChar = Some (text cell)) then
      (hlCol, add [] cell None, currCharCol, cellIter)
    else
      let hls := add [] cell (Some (text cell)) in
      if isDouble (text cell) then (hlCol, hls, currCharCol, cellIter)
      else
        let '(nextCell, cellIter) := next cellIter in
        let hls :=
          match nextCell with
          | Some nc => add hls nc (Some (text nc))
          | None => hls
          end in
        let hls :=
          if decide (extraCols = 0) then hls
          else add hls (default cell nextCell) (Some (spaces extraCols)) in
        (hlCol, hls, currCharCol, cellIter)
  else if decide (currChar = Some (text cell)) then
    (hlCol, add [] cell None, currCharCol, cellIter)
  else
    (hlCol, add [] cell (Some (text cell)),
     if isDouble (text cell) then S currCharCol else currCharCol, cellIter).

(** [!hls.length || !hls.some((d) => d.hlId !== 0)] *)
Definition noHighlight (hls : list Highlight) : bool :=
  (length hls =? 0) || negb (existsb (fun d => negb (hlId (cell d) =? 0)%Z) hls).

(** The store at the end of the walk's body: an empty or all-zero list
    deletes the column, anything else is stored. *)
Definition storeColumn (gridRow : GridRow) (hlCol : nat) (hls : list Highlight)
    (hasUpdates : bool) : GridRow * bool :=
  if noHighlight hls then
    match arr_get gridRow hlCol with
    | Some _ => (arr_delete gridRow hlCol, true)
    | None => (gridRow, hasUpdates)
    end
  else (arr_set gridRow hlCol hls, true).

(** The cell walk, [cell = cellIter.next(); while (cell) { ...; cell =
    cellIter.next() }].  Each unfolding starts with the call of [next] that
    precedes the loop test.  [fuel] bounds the number of iterations; running
    out of it is [None]. *)
Fixpoint cellWalk (fuel : nat) (lineChars filledLineChars : list jsstring) (tabSize : Z)
    (cellIter : CellIter) (currCharCol : nat) (gridRow : GridRow) (hasUpdates : bool)
    : option (GridRow * bool) :=
  let '(cell, cellIter) := next cellIter in
  match cell with
  | None => Some (gridRow, hasUpdates)
  | Some cell =>
      match fuel with
      | 0 => None
      | S fuel =>
          let '(hlCol, hls, currCharCol, cellIter) :=
            cellStep lineChars filledLineChars tabSize cellIter cell currCharCol in
          let '(gridRow, hasUpdates) := storeColumn gridRow hlCol hls hasUpdates in
          cellWalk fuel lineChars filledLineChars tabSize cellIter (S currCharCol)
                   gridRow hasUpdates
      end
  end.

(** "Insert additional columns for characters with length greater than 1." *)
Definition filledLineText (lineText : jsstring) : jsstring :=
  foldl (fun p c => p ++ c ++ spaces (length c - 1)) [] (splitGraphemes lineText).

(** [if (!this.grid[row]) this.grid[row] = []] *)
Definition ensureRow (grid : Grid) (row : nat) : Grid :=
  match arr_get grid row with
  | Some _ => grid
  | None => arr_set grid row []
  end.

(** [processHighlightCellsEvent], the cell walk running on [fuel].  [gridRow]
    aliases [this.grid[row]], so the row is written back at the end. *)
Definition processWithFuel (fuel : nat) (grid : Grid) (ev : HighlightCellsEvent)
    : option (Grid * bool) :=
  let grid := ensureRow grid (row ev) in
  let gridRow := default [] (arr_get grid (row ev)) in
  let lineChars := splitGraphemes (lineText ev) in
  let editorCol :=
    calculateEditorColFromVimScreenCol (lineText ev) (vimCol ev) (tabSize ev) in
  let cellIter := mkIter (validCells ev) 0 in
  let '(gridRow, cellIter) :=
    rederivePrevColumn lineChars (tabSize ev) (vimCol ev) editorCol cellIter gridRow in
  let filledLineChars := splitGraphemes (filledLineText (lineText ev)) in
  '(gridRow, hasUpdates) ←
    cellWalk fuel lineChars filledLineChars (tabSize ev) cellIter editorCol gridRow false;
  Some (arr_set grid (row ev) gridRow, hasUpdates).

(** [processHighlightCellsEvent]: the walk never needs more iterations than
    there are cells. *)
Definition processHighlightCellsEvent (grid : Grid) (ev : HighlightCellsEvent)
    : option (Grid * bool) :=
  processWithFuel (length (validCells ev)) grid ev.

End CellRunProcessor.

(** ** Range builder *)

(** [a.forEach(f)] where the callback may throw: the visits are threaded
    through [option], [None] being the exception. *)
Fixpoint forEachM {S A} (f : S -> nat -> A -> option S) (st : S)
    (entries : list (nat * A)) : option S :=
  match entries with
  | [] => Some st
  | (i, x) :: rest => st' ← f st i x; forEachM f st' rest
  end.

(** The variables that the walk over one row shares: the result list [res]
    and the closure variables [currHighlight], [currStartCol], [currEndCol]. *)
Record BuildState := mkBuild {
  res : list HighlightRange;
  currHighlight : option Highlight;
  currStartCol : nat;
  currEndCol : nat;
}.

(** [res.push({ textType: "normal", hlId: currHighlight.hlId, line,
    startCol: currStartCol, endCol: currEndCol + 1 })] when [currHighlight]
    is set. *)
Definition flushNormal (line : Z) (st : BuildState) : list HighlightRange :=
  match currHighlight st with
  | Some h => res st ++ [NormalRange (hlId (cell h)) line (currStartCol st) (S (currEndCol st))]
  | None => res st
  end.

(** The callback of [rowHighlights.forEach].  [colHighlights[0].virtText] on
    an empty list is a [TypeError]. *)
Definition visitColumn (line : Z) (st : BuildState) (col : nat)
    (colHighlights : list Highlight) : option BuildState :=
  match colHighlights with
  | [] => None
  | highlight :: _ =>
      if (1 <? length colHighlights) || truthy (virtText highlight) then
        Some (mkBuild (res st ++ [VirtualRange colHighlights line col])
                      (currHighlight st) (currStartCol st) (currEndCol st))
      else if bool_decide (hlId ∘ cell <$> currHighlight st = Some (hlId (cell highlight)))
              && (Z.of_nat (currEndCol st) =? Z.of_nat col - 1)%Z then
        Some (mkBuild (res st) (currHighlight st) (currStartCol st) col)
      else
        Some (mkBuild (flushNormal line st) (Some highlight) col col)
  end.

(** The callback of [this.grid.forEach]: one row. *)
Definition visitRow (topLine : Z) (res : list HighlightRange) (row : nat)
    (rowHighlights : GridRow) : option (list HighlightRange) :=
  let line := (Z.of_nat row + topLine)%Z in
  st ← forEachM (visitColumn line) (mkBuild res None 0 0) (arr_entries rowHighlights);
  Some (flushNormal line st).

(** [buildHighlightRanges(topLine)] *)
Definition buildHighlightRanges (grid : Grid) (topLine : Z) : option (list HighlightRange) :=
  forEachM (visitRow topLine) [] (arr_entries grid).

(** ** Row shifter

    The shifter moves whole rows and never looks into them; it is written
    once for any row type, for [HighlightGrid.shiftHighlights] and for
    [HighlightProvider.shiftGridHighlights]. *)

Section RowShifter.
Context {A : Type}.

(** [delete this.grid[i]] for an integer [i]; a negative [i] names no
    element. *)
Definition deleteAt (grid : sparse A) (i : Z) : sparse A :=
  if (0 <=? i)%Z then arr_delete grid (Z.to_nat i) else grid.

(** [this.grid[target] = this.grid[idx]; delete this.grid[idx]].  [idx]
    comes from the [forEach] over this array and earlier moves only wrote
    and deleted on one side of it, so [this.grid[idx]] is set; a negative
    [target] would not be an array index and cannot arise for [from >= 0]. *)
Definition moveRow (grid : sparse A) (idx : nat) (target : Z) : sparse A :=
  let grid :=
    match arr_get grid idx with
    | Some r => if (0 <=? target)%Z then arr_set grid (Z.to_nat target) r else grid
    | None => deleteAt grid target
    end in
  arr_delete grid idx.

(** The indices collected by [this.grid.forEach((_row, idx) => idxs.push(idx))]. *)
Definition rowIndices (grid : sparse A) : list nat := (arr_entries grid).*1.

(** [shiftHighlights(by, from)] *)
Definition shiftHighlights (grid : sparse A) (by_ : Z) (from : nat) : sparse A :=
  if (0 <? by_)%Z then
    let grid := foldl (fun g i => arr_delete g (from + i)) grid (seq 0 (Z.to_nat by_)) in
    let idxs := rowIndices grid in
    foldl (fun g idx => if decide (idx <= from) then g
                        else moveRow g idx (Z.of_nat idx - by_)%Z)
          grid idxs
  else if (by_ <? 0)%Z then
    let grid :=
      foldl (fun g i =>
               deleteAt g (if decide (from <> 0)%nat then Z.of_nat (from + i)
                           else (Z.of_nat (length g) - 1 - Z.of_nat i)%Z))
            grid (seq 0 (Z.to_nat (Z.abs by_))) in
    let idxs := rowIndices grid in
    foldl (fun g idx => if decide (idx <= from) then g
                        else moveRow g idx (Z.of_nat idx + Z.abs by_)%Z)
          grid (reverse idxs)
  else grid.

End RowShifter.

(** ** The column visits of the cell walk

    The columns that the cell walk visits and the highlights it computes for
    them do not depend on the stored row: [walkVisits] is [cellWalk] without
    the store, and [storeVisits] replays the stores. *)

Section Visits.
Context `{TextUtils}.

Fixpoint walkVisits (fuel : nat) (lineChars filledLineChars : list jsstring) (tabSize : Z)
    (cellIter : CellIter) (currCharCol : nat) : option (list (nat * list Highlight)) :=
  let '(cell, cellIter) := next cellIter in
  match cell with
  | None => Some []
  | Some cell =>
      match fuel with
      | 0 => None
      | S fuel =>
          let '(hlCol, hls, currCharCol, cellIter) :=
            cellStep lineChars filledLineChars tabSize cellIter cell currCharCol in
          rest ← walkVisits fuel lineChars filledLineChars tabSize cellIter (S currCharCol);
          Some ((hlCol, hls) :: rest)
      end
  end.

Definition storeVisits (visits : list (nat * list Highlight)) (st : GridRow * bool)
    : GridRow * bool :=
  foldl (fun st '(hlCol, hls) => storeColumn st.1 hlCol hls st.2) st visits.

(** The row on which the cell walk of an event starts: the stored row (or
    the fresh one) after the previous-column region, and the iterator left
    by that region. *)
Definition beforeWalk (grid : Grid) (ev : HighlightCellsEvent) : GridRow * CellIter :=
  rederivePrevColumn (splitGraphemes (lineText ev)) (tabSize ev) (vimCol ev)
    (calculateEditorColFromVimScreenCol (lineText ev) (vimCol ev) (tabSize ev))
    (mkIter (validCells ev) 0)
    (default [] (arr_get (ensureRow grid (row ev)) (row ev))).

(** The visits of the cell walk of an event. *)
Definition eventVisits (grid : Grid) (ev : HighlightCellsEvent)
    : option (list (nat * list Highlight)) :=
  walkVisits (length (validCells ev)) (splitGraphemes (lineText ev))
    (splitGraphemes (filledLineText (lineText ev))) (tabSize ev)
    (beforeWalk grid ev).2
    (calculateEditorColFromVimScreenCol (lineText ev) (vimCol ev) (tabSize ev)).

End Visits.

(** The last highlights computed for column [j] among the visits. *)
Fixpoint lastVisit (visits : list (nat * list Highlight)) (j : nat) : option (list Highlight) :=
  match visits with
  | [] => None
  | (c, hls) :: rest =>
      match lastVisit rest j with
      | Some h => Some h
      | None => if decide (c = j) then Some hls else None
      end
  end.

(** One past the largest column that the visits store. *)
Fixpoint storeBound (visits : list (nat * list Highlight)) : nat :=
  match visits with
  | [] => 0
  | (c, hls) :: rest =>
      Nat.max (if noHighlight hls then 0 else S c) (storeBound rest)
  end.


(** ** When the previous-column region runs *)

Section PrevColumn.
Context `{TextUtils}.

(** The tests and the loop of the previous-column region, without its
    store: [Some (prevCol, expectedCells, rightHls, cellIter)] when the start
    column falls strictly inside the multi-cell column [prevCol], [None] when
    the region leaves the row alone. *)
Definition prevColumnCells (lineChars : list jsstring) (tabSize : Z)
    (vimCol editorCol : nat) (cellIter : CellIter)
    : option (nat * Z * list Highlight * CellIter) :=
  if decide (0 < editorCol) then
    let prevCol := editorCol - 1 in
    let prevChar := lineChars !! prevCol in
    let expectedCells :=
      if decide (prevChar = Some TAB) then calcTabCells lineChars tabSize prevCol
      else Some (getWidth (default [] prevChar) tabSize) in
    if gtNaN expectedCells 1 then
      let expectedVimCol := getWidth (join (slice 0 editorCol lineChars)) tabSize in
      if (Z.of_nat vimCol <? expectedVimCol)%Z then
        let '(rightHls, cellIter) :=
          takeVirtual (Z.to_nat (expectedVimCol - Z.of_nat vimCol)) cellIter [] in
        Some (prevCol, default 0%Z expectedCells, rightHls, cellIter)
      else None
    else None
  else None.

Definition eventPrevColumnCells (ev : HighlightCellsEvent)
    : option (nat * Z * list Highlight * CellIter) :=
  prevColumnCells (splitGraphemes (lineText ev)) (tabSize ev) (vimCol ev)
    (calculateEditorColFromVimScreenCol (lineText ev) (vimCol ev) (tabSize ev))
    (mkIter (validCells ev) 0).

(** The previous column is settled for an event when the region does not
    run, or when the column already stores at least the entries that the
    region keeps from it, [expectedCells - rightHls.length] many. *)
Definition prevColumnSettled (grid : Grid) (ev : HighlightCellsEvent) : bool :=
  match eventPrevColumnCells ev with
  | None => true
  | Some (prevCol, expectedCells, rightHls, _) =>
      let n := (expectedCells - Z.of_nat (length rightHls))%Z in
      let stored := default [] (arr_get (default [] (arr_get grid (row ev))) prevCol) in
      (0 <=? n)%Z && (n <=? Z.of_nat (length stored))%Z
  end.

End PrevColumn.

(** ** The stored state of a column *)

(** The entry list stored at column [c] of row [r]; [None] when the row or
    the column is not stored. *)
Definition storedColumn (grid : Grid) (r c : nat) : option (list Highlight) :=
  gridRow ← arr_get grid r; arr_get gridRow c.

(** The cell walk stores: one of its visits computes a list that is stored,
    or comes to a column that stores an entry, which it stores over or
    deletes. *)
Definition walkStores (grid : Grid) (ev : HighlightCellsEvent)
    (visits : list (nat * list Highlight)) : Prop :=
  exists c hls, (c, hls) ∈ visits /\
    (noHighlight hls = false \/ is_Some (storedColumn grid (row ev) c)).

(** ** The stored-column invariant *)

(** No stored column is an empty list or a list of id-0 entries only. *)
Definition rowInvariant (gridRow : GridRow) : Prop :=
  forall c hls, arr_get gridRow c = Some hls -> noHighlight hls = false.

Definition gridInvariant (grid : Grid) : Prop :=
  forall r gridRow, arr_get grid r = Some gridRow -> rowInvariant gridRow.

(** ** The rows while they are shifted up *)

(** What the grid holds when the rows below [K] of [g1], the grid after the
    clipped rows were deleted, have been dealt with by the loop that shifts
    by [b] from [from]. *)
Definition shiftedUpTo {A} (g1 : sparse A) (from b K : nat) (h : sparse A) : Prop :=
  length h = length g1 /\
  forall j, arr_get h j =
    if decide (j < from) then arr_get g1 j
    else if decide (j + b < K) then arr_get g1 (j + b)
    else if decide (j < K) then None
    else arr_get g1 j.

(** The body of the loop that shifts the rows up by [b] from [from]. *)
Definition moveUp {A} (from b : nat) (g : sparse A) (idx : nat) : sparse A :=
  if decide (idx <= from) then g else moveRow g idx (Z.of_nat idx - Z.of_nat b)%Z.

(** Rows that come from rows of [grid]. *)
Definition rowsFrom {A} (grid g : sparse A) : Prop :=
  forall j r, arr_get g j = Some r -> exists i, arr_get grid i = Some r.

(** ** Runs of a row and ranges of a line *)

(** "Each column holding a single real (non-virtual) entry". *)
Definition singleReal (hls : list Highlight) : Prop :=
  exists h, hls = [h] /\ virtText h = None.

(** A maximal run of adjacent columns sharing one highlight id starts at a
    stored column whose left neighbour is not stored or stores another id. *)
Definition runStart (gridRow : GridRow) (c : nat) : bool :=
  match arr_get gridRow c with
  | Some [h] =>
      match c with
      | 0 => true
      | S p =>
          match arr_get gridRow p with
          | Some [h'] => negb (hlId (cell h') =? hlId (cell h))%Z
          | _ => true
          end
      end
  | _ => false
  end.

(** The number of run starts among the columns below [K]. *)
Definition runStartsBelow (gridRow : GridRow) (K : nat) : nat :=
  length (filter (fun c => runStart gridRow c = true) (seq 0 K)).

(** The number of maximal runs of a row. *)
Definition maximalRuns (gridRow : GridRow) : nat :=
  runStartsBelow gridRow (length gridRow).

Definition rangeLine (r : HighlightRange) : Z :=
  match r with
  | NormalRange _ line _ _ => line
  | VirtualRange _ line _ => line
  end.

Definition isNormal (r : HighlightRange) : bool :=
  match r with
  | NormalRange _ _ _ _ => true
  | VirtualRange _ _ _ => false
  end.

(** The normal ranges emitted for a line. *)
Definition normalRangesOfLine (line : Z) (res : list HighlightRange) : list HighlightRange :=
  filter (fun r => isNormal r = true /\ rangeLine r = line) res.

(** The state of the walk over a row when the columns below [K] have been
    visited: the ranges emitted and the open range count the run starts so
    far, and the open range ends at the last stored column. *)
Definition rowWalked (line : Z) (acc : list HighlightRange) (gridRow : GridRow)
    (K : nat) (st : BuildState) : Prop :=
  length (normalRangesOfLine line (res st))
    + match currHighlight st with Some _ => 1 | None => 0 end
  = length (normalRangesOfLine line acc) + runStartsBelow gridRow K /\
  match currHighlight st with
  | None => forall c, c < K -> arr_get gridRow c = None
  | Some h0 =>
      exists h', currEndCol st < K /\
        arr_get gridRow (currEndCol st) = Some [h'] /\
        hlId (cell h') = hlId (cell h0) /\
        forall c, currEndCol st < c < K -> arr_get gridRow c = None
  end.

(** The grids that cell-run processing, row-clear and shift reach from the
    empty grid. *)
Inductive reachable `{TextUtils} : Grid -> Prop :=
| reachable_empty : reachable []
| reachable_process grid ev grid' b :
    reachable grid ->
    processHighlightCellsEvent grid ev = Some (grid', b) ->
    reachable grid'
| reachable_cleanRow grid r :
    reachable grid -> reachable (cleanRow grid r)
| reachable_shift grid by_ from :
    reachable grid -> reachable (shiftHighlights grid by_ from).

(** ** JavaScript [Map]s *)

Module JsMap.

(** A [Map<K, V>] is the list of its entries in insertion order, with
    distinct keys. *)
Abbreviation jsmap K V := (list (K * V)).

Section ops.
Context {K V : Type} `{EqDecision K}.

(** [m.get(k)] *)
Fixpoint map_get (m : jsmap K V) (k : K) : option V :=
  match m with
  | [] => None
  | (k', v) :: m' => if decide (k' = k) then Some v else map_get m' k
  end.

(** [m.has(k)] *)
Definition map_has (m : jsmap K V) (k : K) : bool := bool_decide (is_Some (map_get m k)).

(** [m.set(k, v)]: an existing key keeps its place, a new one goes last. *)
Fixpoint map_set (m : jsmap K V) (k : K) (v : V) : jsmap K V :=
  match m with
  | [] => [(k, v)]
  | (k', v') :: m' =>
      if decide (k' = k) then (k, v) :: m' else (k', v') :: map_set m' k v
  end.

(** [m.keys()] *)
Definition map_keys (m : jsmap K V) : list K := m.*1.

End ops.

End JsMap.
Import JsMap.

(** ** [class HighlightGrid], cell-based implementation: decorations *)

Module CellGrid.

Section Decorations.

(** [TextEditorDecorationType] handles and the render options that the
    group store attaches to them are opaque. *)
Context {Decorator Style : Type} `{EqDecision Decorator}.

(** [this.groupStore.getDecorator(hlId)], returning [{ decorator, options }]. *)
Variable getDecorator : Z -> option Decorator * Style.

(** The [before] attachment of a virtual-text decoration: [contentText], the
    [margin] offset and the [width] in [ch], the [z-index], the [--hlId]
    tag and the options of the decorator. *)
Record VirtTextRender := mkRender {
  contentText : jsstring;
  marginCh : nat;
  widthCh : nat;
  zIndex : Z;
  hlIdTag : Z;
  options : Style;
}.

(** [DecorationOptions]: the range [(line, startCol) .. (line, endCol)] and
    the optional [renderOptions.before]. *)
Record DecorationOptions := mkOptions {
  optLine : Z;
  optStartCol : nat;
  optEndCol : nat;
  before : option VirtTextRender;
}.

(** A fragment of [processedColHighlights]. *)
Record Fragment := mkFragment { fragHlId : Z; fragVirtText : jsstring }.

(** [processedColHighlights[processedColHighlights.length - 1].virtText +=
    virtText] *)
Fixpoint appendToLast (processed : list Fragment) (virt : jsstring) : list Fragment :=
  match processed with
  | [] => []
  | [f] => [mkFragment (fragHlId f) (fragVirtText f ++ virt)]
  | f :: rest => f :: appendToLast rest virt
  end.

(** The callback of [colHighlights.forEach] that builds
    [processedColHighlights]; [virtText ??= text] comes first. *)
Definition processColHighlight (processed : list Fragment) (h : Highlight) : list Fragment :=
  let virt := default (text (cell h)) (virtText h) in
  if (hlId (cell h) =? 0)%Z && (0 <? length processed)
  then appendToLast processed virt
  else processed ++ [mkFragment (hlId (cell h)) virt].

Definition processedColHighlights (colHighlights : list Highlight) : list Fragment :=
  foldl processColHighlight [] colHighlights.

(** [hlId_options.get(hlId)!.push(...options)] after the key was created
    with [[]] when missing. *)
Definition pushOptions (hlId_options : jsmap Z (list DecorationOptions)) (id : Z)
    (opts : list DecorationOptions) : jsmap Z (list DecorationOptions) :=
  map_set hlId_options id (default [] (map_get hlId_options id) ++ opts).

(** The callback of [processedColHighlights.forEach((..., offset) => ...)]. *)
Definition emitFragment (line : Z) (lineLength col : nat)
    (hlId_options : jsmap Z (list DecorationOptions)) (offset : nat) (f : Fragment)
    : jsmap Z (list DecorationOptions) :=
  match getDecorator (fragHlId f) with
  | (None, _) => hlId_options
  | (Some _, opts) =>
      let virtTextCol := Nat.min lineLength col in
      let offset := if decide (lineLength < col) then offset + (col - lineLength) else offset in
      pushOptions hlId_options (fragHlId f)
        [mkOptions line virtTextCol virtTextCol
           (Some (mkRender (fragVirtText f) offset (length (fragVirtText f))
                    (99 - Z.of_nat offset)%Z (fragHlId f) opts))]
  end.

(** [createColVirtTextOptions(line, lineText, col, colHighlights)] *)
Definition createColVirtTextOptions (line : Z) (lineText : jsstring) (col : nat)
    (colHighlights : list Highlight) : jsmap Z (list DecorationOptions) :=
  let processed := processedColHighlights colHighlights in
  foldl (fun m '(offset, f) => emitFragment line (length lineText) col m offset f)
        [] (zip (seq 0 (length processed)) processed).

(** The test that opens the callback of [ranges.forEach] in
    [highlightRangesToOptions]: ranges of the default highlight are left
    out. *)
Definition skippedRange (range : HighlightRange) : bool :=
  match range with
  | NormalRange id _ _ _ => (id =? 0)%Z
  | VirtualRange highlights _ _ => forallb (fun hl => (hlId (cell hl) =? 0)%Z) highlights
  end.

(** [highlightRangesToOptions(editor, ranges)]; [lineAt] is
    [editor.document.lineAt(line).text]. *)
Definition highlightRangesToOptions (lineAt : Z -> jsstring) (ranges : list HighlightRange)
    : jsmap Z (list DecorationOptions) :=
  foldl (fun hlId_options range =>
           if skippedRange range then hlId_options
           else
             match range with
             | VirtualRange highlights line col =>
                 foldl (fun m '(id, opts) => pushOptions m id opts) hlId_options
                       (createColVirtTextOptions line (lineAt line) col highlights)
             | NormalRange id line startCol endCol =>
                 pushOptions hlId_options id [mkOptions line startCol endCol None]
             end)
        [] ranges.

(** [findLast(arr, finder)] as the index of the match. *)
Definition findLastIndex {T} (finder : T -> bool) (arr : list T) : option nat :=
  foldl (fun found '(i, x) => if finder x then Some i else found) None
        (zip (seq 0 (length arr)) arr).

(** A normal range as [lineHighlightsToRanges] keeps it, with its mutable
    [endCol]. *)
Record NormalHighlightRange := mkNormal {
  nHlId : Z;
  nLine : Z;
  nStartCol : nat;
  nEndCol : nat;
}.

(** The callback of [highlights.forEach] in [lineHighlightsToRanges]. *)
Definition lineHighlightStep (line : Z)
    (st : jsmap Z (list NormalHighlightRange) * list HighlightRange)
    (col : nat) (hls : list Highlight)
    : jsmap Z (list NormalHighlightRange) * list HighlightRange :=
  let '(normalHighlights, virtualHighlights) := st in
  match hls with
  | [] => st
  | colHighlight :: _ =>
      if (1 <? length hls) || truthy (virtText colHighlight) then
        (normalHighlights, virtualHighlights ++ [VirtualRange hls line col])
      else
        let id := hlId (cell colHighlight) in
        let existingHighlights := default [] (map_get normalHighlights id) in
        let existingHighlights :=
          match findLastIndex (fun hl => bool_decide (nEndCol hl = col)) existingHighlights with
          | Some i =>
              alter (fun hl => mkNormal (nHlId hl) (nLine hl) (nStartCol hl) (S col))
                    i existingHighlights
          | None => existingHighlights ++ [mkNormal id line col (S col)]
          end in
        (map_set normalHighlights id existingHighlights, virtualHighlights)
  end.

(** [lineHighlightsToRanges(line, highlights)] *)
Definition lineHighlightsToRanges (line : Z) (highlights : jsmap nat (list Highlight))
    : list HighlightRange :=
  let '(normalHighlights, virtualHighlights) :=
    foldl (fun st '(col, hls) => lineHighlightStep line st col hls) ([], []) highlights in
  ((fun hl => NormalRange (nHlId hl) (nLine hl) (nStartCol hl) (nEndCol hl))
     <$> concat normalHighlights.*2)
  ++ virtualHighlights.

(** The part of [editor] that the grid reads. *)
Record Editor := mkEditor {
  lineCount : Z;
  lineAt : Z -> jsstring;
  editorTabSize : Z;
}.

(** [Viewport] *)
Record Viewport := mkViewport { topline : Z; botline : Z }.

(** [computeLineHighlights(line, lineText, tabSize)] walks the stored cells
    of the line with the [CellIter] of [./util], which is not among the
    sources; the decorations are defined over any such function. *)
Variable computeLineHighlights :
  sparse (list ValidCell) -> Z -> jsstring -> Z -> jsmap nat (list Highlight).

(** [getDecorationsForLine(editor, line)] *)
Definition getDecorationsForLine (lineCells : sparse (list ValidCell)) (editor : Editor)
    (line : Z) : jsmap Z (list DecorationOptions) :=
  let lineText := lineAt editor line in
  let highlights := computeLineHighlights lineCells line lineText (editorTabSize editor) in
  highlightRangesToOptions (lineAt editor) (lineHighlightsToRanges line highlights).

(** [results.get(decorator)!.push(...options)] after the key was created
    with [[]] when missing. *)
Definition pushDecorations (results : jsmap Decorator (list DecorationOptions))
    (decorator : Decorator) (opts : list DecorationOptions)
    : jsmap Decorator (list DecorationOptions) :=
  map_set results decorator (default [] (map_get results decorator) ++ opts).

(** The lines of [for (let line = startLine; line <= endLine; line++)]. *)
Definition linesFromTo (startLine endLine : Z) : list Z :=
  (fun i => (startLine + Z.of_nat i)%Z) <$> seq 0 (Z.to_nat (endLine - startLine + 1)).

(** [getDecorations(editor, startLine, endLine)], with the line cache it
    reads and fills. *)
Definition getDecorations (lineCells : sparse (list ValidCell))
    (cache : jsmap Z (jsmap Z (list DecorationOptions)))
    (editor : Editor) (startLine endLine : Z)
    : jsmap Decorator (list DecorationOptions) * jsmap Z (jsmap Z (list DecorationOptions)) :=
  foldl (fun '(results, cache) line =>
           let lineDecorations :=
             match map_get cache line with
             | Some cached => cached
             | None => getDecorationsForLine lineCells editor line
             end in
           let cache := map_set cache line lineDecorations in
           (foldl (fun results '(id, opts) =>
                     match (getDecorator id).1 with
                     | None => results
                     | Some decorator => pushDecorations results decorator opts
                     end)
                  results lineDecorations,
            cache))
        ([], cache) (linesFromTo startLine endLine).

(** The fields of the grid. *)
Record GridState := mkGrid {
  lineCells : sparse (list ValidCell);
  prevDecorators : list Decorator;
  isDirty : bool;
  lineDecorationsCache : jsmap Z (jsmap Z (list DecorationOptions));
}.

(** [refreshDecorations()]: the new state and the calls
    [editor.setDecorations(decorator, ranges)] in the order they are made.
    [editor] and [viewport] are what the getters return, [None] when the
    grid has no visible editor. *)
Definition refreshDecorations (editor : option Editor) (viewport : option Viewport)
    (st : GridState) : GridState * list (Decorator * list DecorationOptions) :=
  match editor, viewport with
  | Some editor, Some viewport =>
      let startLine := Z.max 0 (topline viewport) in
      let endLine := Z.min (lineCount editor - 1) (botline viewport) in
      let '(computed, cache) :=
        getDecorations (lineCells st) (lineDecorationsCache st) editor startLine endLine in
      let decorations :=
        foldl (fun m '(decorator, opts) => pushDecorations m decorator opts) [] computed in
      let currDecorators := map_keys decorations in
      let decorations :=
        foldl (fun m decorator =>
                 if bool_decide (decorator ∈ currDecorators) then m
                 else map_set m decorator [])
              decorations (prevDecorators st) in
      (mkGrid (lineCells st) currDecorators (isDirty st) cache, decorations)
  | _, _ => (st, [])
  end.

(** The decorations that a refresh computes for the viewport. *)
Definition computedDecorations (editor : Editor) (viewport : Viewport) (st : GridState)
    : jsmap Decorator (list DecorationOptions) :=
  (getDecorations (lineCells st) (lineDecorationsCache st) editor
     (Z.max 0 (topline viewport)) (Z.min (lineCount editor - 1) (botline viewport))).1.

(** [handleRedrawFlush()] *)
Definition handleRedrawFlush (editor : option Editor) (viewport : option Viewport)
    (st : GridState) : GridState * list (Decorator * list DecorationOptions) :=
  if isDirty st then
    let '(st, calls) := refreshDecorations editor viewport st in
    (mkGrid (lineCells st) (prevDecorators st) false (lineDecorationsCache st), calls)
  else (st, []).

(** [handleGridLine(line, vimCol, cells)]; [normalizeHighlightId] is the
    group store's. *)
Definition handleGridLine (normalizeHighlightId : Z -> Z) (line vimCol : nat)
    (cells : list (jsstring * option Z * option nat)) (st : GridState) : GridState :=
  let prevCells := default [] (arr_get (lineCells st) line) in
  let prevCells :=
    if decide (length prevCells < vimCol)
    then prevCells ++ replicate (vimCol - length prevCells) (mkCell [SPACE] 0)
    else prevCells in
  let redrawCells :=
    (foldl (fun '(redrawCells, currHlId) '(t, id, repeat_) =>
              let currHlId :=
                match id with
                | Some id => normalizeHighlightId id
                | None => currHlId
                end in
              (redrawCells ++ replicate (default 1 repeat_) (mkCell t currHlId), currHlId))
           ([], 0%Z) cells).1 in
  let leftCells := take vimCol prevCells in
  let rightCells := drop (vimCol + length redrawCells) prevCells in
  mkGrid (arr_set (lineCells st) line (leftCells ++ redrawCells ++ rightCells))
         (prevDecorators st) true
         (filter (fun kv => kv.1 <> Z.of_nat line) (lineDecorationsCache st)).

(** The block of [handleGridLine] that expands the cells of the event,
    [[text, hlId?, repeat?]] to [{ text, hlId }]: a cell without id takes
    the id of the cell before it, and the first the id 0. *)
Definition redrawCells (normalizeHighlightId : Z -> Z)
    (cells : list (jsstring * option Z * option nat)) : list ValidCell :=
  (foldl (fun '(redrawCells, currHlId) '(t, id, repeat_) =>
            let currHlId :=
              match id with
              | Some id => normalizeHighlightId id
              | None => currHlId
              end in
            (redrawCells ++ replicate (default 1 repeat_) (mkCell t currHlId), currHlId))
         ([], 0%Z) cells).1.

(** [dispose()]: the new state and the calls
    [editor.setDecorations(decorator, [])] in the order they are made. *)
Definition dispose (editor : option Editor) (st : GridState)
    : GridState * list (Decorator * list DecorationOptions) :=
  match editor with
  | Some _ =>
      (mkGrid (lineCells st) [] (isDirty st) (lineDecorationsCache st),
       (fun decorator => (decorator, [])) <$> prevDecorators st)
  | None => (st, [])
  end.

(** [l.slice(n)]: a negative [n] counts from the end. *)
Definition sliceFrom {A} (n : Z) (l : list A) : list A :=
  if (0 <=? n)%Z then drop (Z.to_nat n) l
  else drop (length l - Z.to_nat (- n)) l.

(** [eolCells[eolCells.length - 1].text += cell.text] *)
Fixpoint appendTextToLast (eolCells : list ValidCell) (t : jsstring) : list ValidCell :=
  match eolCells with
  | [] => []
  | [c] => [mkCell (text c ++ t) (hlId c)]
  | c :: rest => c :: appendTextToLast rest t
  end.

(** The body of the loop of [computeLineHighlights] over the cells past the
    end of the line, "we need to combine EOL cells that have the same
    hlId": the state is [eolCells] and the variable [hlId], the id of the
    cell before. *)
Definition combineEolCell (st : list ValidCell * Z) (cell : ValidCell)
    : list ValidCell * Z :=
  ((if (hlId cell =? st.2)%Z && (0 <? length st.1)
    then appendTextToLast st.1 (text cell)
    else st.1 ++ [cell]),
   hlId cell).

(** The block of [computeLineHighlights] that fills [cells], the cells that
    its walk iterates over, from the stored cells of the line:
    [idealMaxCells] is [getWidth(lineText, tabSize)]. *)
Definition walkCells (idealMaxCells : Z) (lineCells : list ValidCell) : list ValidCell :=
  sliceTo idealMaxCells lineCells
  ++ (foldl combineEolCell ([], 0%Z) (sliceFrom idealMaxCells lineCells)).1.

(** The decorations that [getDecorations] takes for a line: "Use the cached
    decorations if available". *)
Definition lineDecorationsOf (lineCells : sparse (list ValidCell))
    (cache : jsmap Z (jsmap Z (list DecorationOptions))) (editor : Editor) (line : Z)
    : jsmap Z (list DecorationOptions) :=
  match map_get cache line with
  | Some cached => cached
  | None => getDecorationsForLine lineCells editor line
  end.

(** The [lineDecorations.forEach] of [getDecorations]. *)
Definition collectDecorations (results : jsmap Decorator (list DecorationOptions))
    (lineDecorations : jsmap Z (list DecorationOptions))
    : jsmap Decorator (list DecorationOptions) :=
  foldl (fun results '(id, opts) =>
           match (getDecorator id).1 with
           | None => results
           | Some decorator => pushDecorations results decorator opts
           end)
        results lineDecorations.

(** The body of the loop of [getDecorations]. *)
Definition decorationsStep (lineCells : sparse (list ValidCell)) (editor : Editor)
    (st : jsmap Decorator (list DecorationOptions)
          * jsmap Z (jsmap Z (list DecorationOptions)))
    (line : Z)
    : jsmap Decorator (list DecorationOptions)
      * jsmap Z (jsmap Z (list DecorationOptions)) :=
  (collectDecorations st.1 (lineDecorationsOf lineCells st.2 editor line),
   map_set st.2 line (lineDecorationsOf lineCells st.2 editor line)).

End Decorations.

End CellGrid.


(** ** [class HighlightProvider] *)

Module Provider.

(** [interface Highlight { hlId: number; virtText?: string }] *)
Record Highlight := mkHl { hlId : Z; virtText : option jsstring }.

#[global] Instance Highlight_eq_dec : EqDecision Highlight.
Proof. solve_decision. Defined.

(** [highlights: Map<number, Highlight[][][]>] *)
Abbreviation Highlights := (jsmap nat (sparse (sparse (list Highlight)))).

(** What the provider takes from outside: [wcswidth] of the library
    [ts-wcwidth], on a string or on [undefined], and
    [calculateEditorColFromVimScreenCol] of [./utils]. *)
Class Utils := {
  wcswidth : option jsstring -> Z;
  calculateEditorColFromVimScreenCol : jsstring -> nat -> Z -> nat;
}.

(** [cleanRow(grid, row)] *)
Definition cleanRow (highlights : Highlights) (grid row : nat) : Highlights :=
  match map_get highlights grid with
  | None => highlights
  | Some gridHl => map_set highlights grid (arr_delete gridHl row)
  end.

(** [shiftGridHighlights(grid, by, from)]: the body after the lookup of the
    grid is that of [HighlightGrid.shiftHighlights]. *)
Definition shiftGridHighlights (highlights : Highlights) (grid : nat) (by_ : Z)
    (from : nat) : Highlights :=
  match map_get highlights grid with
  | None => highlights
  | Some gridHl => map_set highlights grid (shiftHighlights gridHl by_ from)
  end.

Section Processor.
Context `{Utils}.

(** [const isDouble = (c: string) => wcswidth(c) === 2] *)
Definition isDouble (c : option jsstring) : bool := (wcswidth c =? 2)%Z.

(** [const getWidth = (text) => wcswidth(text.replace(/\t/g, " ".repeat(tabSize)))].
    The argument [" ".repeat(tabSize)] is evaluated on every call, and
    [repeat] throws a [RangeError] on a negative count: that is [None]. *)
Definition getWidth (tabSize : Z) (t : jsstring) : option Z :=
  if (tabSize <? 0)%Z then None else Some (wcswidth (Some (expandTabs t tabSize))).

(** "Add an extra column to fix rendering position": a space after every
    code point of two code units. *)
Definition paddedLineText (lineText : jsstring) : jsstring :=
  foldl (fun p c => p ++ (if decide (length c = 1) then c else c ++ [SPACE])) []
        (codePoints lineText).

Definition calcTabCells (lineText : jsstring) (tabSize : Z) (tabCol : nat) : option Z :=
  let nearestTabIdx :=
    match lastIndexOf TAB (slice 0 tabCol (codePoints lineText)) with
    | None => 0
    | Some i => S i
    end in
  let center := join (slice nearestTabIdx tabCol (codePoints lineText)) in
  w ← jsRem (wcswidth (Some center)) tabSize;
  Some (tabSize - w)%Z.

(** The inner loop of the expansion of the cells. *)
Fixpoint pushRepeated (n : nat) (maxCells : Z) (t : jsstring) (id : Z)
    (newCells : list ValidCell) : list ValidCell :=
  match n with
  | 0 => newCells
  | S n' =>
      if (maxCells <? Z.of_nat (length newCells))%Z && bool_decide (t = [SPACE])
      then newCells
      else pushRepeated n' maxCells t id (newCells ++ [mkCell t id])
  end.

(** [{text, hlId?, repeat?} => {text, hlId}] *)
Fixpoint expandCells (cells : list (jsstring * option Z * option nat)) (maxCells : Z)
    (curHlId : Z) (newCells : list ValidCell) : list ValidCell :=
  match cells with
  | [] => newCells
  | (t, id, repeat_) :: rest =>
      if (maxCells <? Z.of_nat (length newCells))%Z && bool_decide (t = [SPACE])
      then newCells
      else
        let curHlId := default curHlId id in
        expandCells rest maxCells curHlId
          (pushRepeated (default 1 repeat_) maxCells t curHlId newCells)
  end.

(** The loop that fills [rightHls]. *)
Fixpoint takeRight (n : nat) (it : CellIter) (hls : list Highlight)
    : list Highlight * CellIter :=
  match n with
  | 0 => (hls, it)
  | S n' =>
      let '(c, it') := next it in
      takeRight n' it'
        match c with
        | Some (mkCell t id) => hls ++ [mkHl id (Some t)]
        | None => hls
        end
  end.

(** The loop of the tab branch, which skips the cells of empty text. *)
Fixpoint takeTab (n : nat) (it : CellIter) (hls : list Highlight)
    : list Highlight * CellIter :=
  match n with
  | 0 => (hls, it)
  | S n' =>
      let '(c, it') := next it in
      takeTab n' it'
        match c with
        | Some (mkCell t id) => if decide (t = []) then hls else hls ++ [mkHl id (Some t)]
        | None => hls
        end
  end.

(** The previous-column region; [None] when its [getWidth] throws. *)
Definition rederivePrevColumn (lineText : jsstring) (tabSize : Z)
    (vimCol editorCol : nat) (cellIter : CellIter) (gridRow : sparse (list Highlight))
    : option (sparse (list Highlight) * CellIter) :=
  let lineChars := codePoints lineText in
  if decide (0 < editorCol) then
    let expectedCells :=
      if decide (lineChars !! (editorCol - 1) = Some TAB)
      then calcTabCells lineText tabSize (editorCol - 1)
      else Some (wcswidth (lineChars !! (editorCol - 1))) in
    if gtNaN expectedCells 1 then
      let expectedCells := default 0%Z expectedCells in
      expectedVimCol ← getWidth tabSize (join (slice 0 editorCol lineChars));
      if (Z.of_nat vimCol <? expectedVimCol)%Z then
        let '(rightHls, cellIter) :=
          takeRight (Z.to_nat (expectedVimCol - Z.of_nat vimCol)) cellIter [] in
        let n := (expectedCells - Z.of_nat (length rightHls))%Z in
        let leftHls :=
          if decide (n = 0)%Z then []
          else sliceTo n (default [] (arr_get gridRow (editorCol - 1))) in
        Some (arr_set gridRow (editorCol - 1) (leftHls ++ rightHls), cellIter)
      else Some (gridRow, cellIter)
    else Some (gridRow, cellIter)
  else Some (gridRow, cellIter).

(** The body of the walk up to the store: the highlights of the column,
    the column and the iterator. *)
Definition cellStep (lineText : jsstring) (tabSize : Z) (cellIter : CellIter)
    (cell : ValidCell) (curCol : nat) : list Highlight * nat * CellIter :=
  let lineChars := codePoints lineText in
  let curChar := lineChars !! curCol in
  let '(mkCell cellText cellHlId) := cell in
  if decide (curChar = Some TAB) then
    let rounds :=
      match calcTabCells lineText tabSize curCol with
      | Some n => Z.to_nat (n - 1)
      | None => 0
      end in
    let '(hls, cellIter) := takeTab rounds cellIter [mkHl cellHlId (Some cellText)] in
    (hls, curCol, cellIter)
  else if isDouble curChar then
    let single := bool_decide (length (default [] curChar) = 1) in
    if decide (curChar = Some cellText) then
      ([mkHl cellHlId None], curCol, if single then (next cellIter).2 else cellIter)
    else
      let hls := [mkHl cellHlId (Some cellText)] in
      if isDouble (Some cellText) then
        (hls, curCol, if single then (next cellIter).2 else cellIter)
      else if single then
        let '(nextCell, cellIter) := next cellIter in
        (match nextCell with
         | Some (mkCell t id) => hls ++ [mkHl id (Some t)]
         | None => hls
         end, curCol, cellIter)
      else
        match getNext cellIter with
        | Some (mkCell t id) =>
            (hls ++ [mkHl id (Some (SPACE :: t))], curCol, setNext cellIter id [SPACE])
        | None => (hls, curCol, cellIter)
        end
  else if decide (curChar = Some cellText) then
    ([mkHl cellHlId None], curCol, cellIter)
  else if isDouble (Some cellText) then
    ([mkHl cellHlId (Some cellText)], S curCol, (next cellIter).2)
  else
    ([mkHl cellHlId (Some cellText)], curCol, cellIter).

(** [!hls.length || !hls.some((d) => d.hlId !== 0)] *)
Definition noHighlight (hls : list Highlight) : bool :=
  (length hls =? 0) || negb (existsb (fun d => negb (hlId d =? 0)%Z) hls).

Definition storeColumn (gridRow : sparse (list Highlight)) (curCol : nat)
    (hls : list Highlight) (hasUpdates : bool) : sparse (list Highlight) * bool :=
  if noHighlight hls then
    match arr_get gridRow curCol with
    | Some _ => (arr_delete gridRow curCol, true)
    | None => (gridRow, hasUpdates)
    end
  else (arr_set gridRow curCol hls, true).

(** The cell walk, on [fuel]. *)
Fixpoint cellWalk (fuel : nat) (lineText : jsstring) (tabSize : Z) (cellIter : CellIter)
    (curCol : nat) (gridRow : sparse (list Highlight)) (hasUpdates : bool)
    : option (sparse (list Highlight) * bool) :=
  let '(cell, cellIter) := next cellIter in
  match cell with
  | None => Some (gridRow, hasUpdates)
  | Some cell =>
      match fuel with
      | 0 => None
      | S fuel =>
          let '(hls, curCol, cellIter) := cellStep lineText tabSize cellIter cell curCol in
          let '(gridRow, hasUpdates) := storeColumn gridRow curCol hls hasUpdates in
          cellWalk fuel lineText tabSize cellIter (S curCol) gridRow hasUpdates
      end
  end.

(** [processHLCellsEvent(grid, row, vimCol, cells, lineText, tabSize)].
    [None] is the [RangeError] of [getWidth], whose first call, for
    [maxCells], comes before anything is stored; the walk runs on as much
    fuel as there are cells. *)
Definition processHLCellsEvent (highlights : Highlights) (grid row vimCol : nat)
    (cells : list (jsstring * option Z * option nat)) (lineText : jsstring) (tabSize : Z)
    : option (Highlights * bool) :=
  let lineText := paddedLineText lineText in
  let editorCol := calculateEditorColFromVimScreenCol lineText vimCol tabSize in
  maxCells ← getWidth tabSize lineText;
  let newCells := expandCells cells maxCells 0%Z [] in
  let cellIter := mkIter newCells 0 in
  let gridHl := default [] (map_get highlights grid) in
  let gridRow := default [] (arr_get gridHl row) in
  '(gridRow, cellIter) ←
    rederivePrevColumn lineText tabSize vimCol editorCol cellIter gridRow;
  '(gridRow, hasUpdates) ←
    cellWalk (length newCells) lineText tabSize cellIter editorCol gridRow false;
  Some (map_set highlights grid (arr_set gridHl row gridRow), hasUpdates).

End Processor.

Section GridHighlights.
Context {Decorator Options : Type}.

(** [getDecoratorForHighlightId(id)] *)
Variable getDecoratorForHighlightId : Z -> option Decorator.

(** The end of [getGridHighlights(editor, grid, topLine)], from
    [const result = []] on: [hlId_options] is the map that the walk over the
    rows of the grid has filled, [prevGridHighlightsIds] the retained ids
    per grid.  It returns [result] and the updated [prevGridHighlightsIds]. *)
Definition getGridHighlights (hlId_options : jsmap Z (list Options))
    (prevGridHighlightsIds : jsmap nat (list Z)) (grid : nat)
    : list (Decorator * list Options) * jsmap nat (list Z) :=
  let result :=
    foldl (fun result '(id, opts) =>
             if (0 <? length opts) then
               match getDecoratorForHighlightId id with
               | Some decorator => result ++ [(decorator, opts)]
               | None => result
               end
             else result)
          [] hlId_options in
  let result :=
    match map_get prevGridHighlightsIds grid with
    | Some prevHighlights =>
        foldl (fun result id =>
                 if map_has hlId_options id then result
                 else
                   match getDecoratorForHighlightId id with
                   | Some decorator => result ++ [(decorator, [])]
                   | None => result
                   end)
              result prevHighlights
    | None => result
    end in
  (result, map_set prevGridHighlightsIds grid (map_keys hlId_options)).

End GridHighlights.

(** ** Decorators of the highlight groups *)

(** [interface VimHighlightUIAttributes]: a key that is absent, or
    [undefined], is [None].  The colours are numbers that hold an RGB
    value, natural numbers; [otherKeys] counts the own keys of the object
    that the interface does not name. *)
Record VimHighlightUIAttributes := mkAttrs {
  foreground : option N;
  background : option N;
  special : option N;
  reverse_ : option bool;
  italic : option bool;
  bold : option bool;
  strikethrough : option bool;
  underline : option bool;
  undercurl : option bool;
  blend : option N;
  otherKeys : nat;
}.

(** [string | ThemeColor] *)
Inductive Color :=
| ColorString (s : jsstring)
| ThemeColor (id : jsstring).

#[global] Instance Color_eq_dec : EqDecision Color.
Proof. solve_decision. Defined.

(** [ThemableDecorationRenderOptions], the fields that the provider reads
    or writes. *)
Record ThemableDecorationRenderOptions := mkRenderOptions {
  backgroundColor : option Color;
  borderColor : option Color;
  color : option Color;
  outlineColor : option Color;
  overviewRulerColor : option Color;
  fontStyle : option jsstring;
  fontWeight : option jsstring;
  textDecoration : option jsstring;
}.

#[global] Instance ThemableDecorationRenderOptions_eq_dec :
  EqDecision ThemableDecorationRenderOptions.
Proof. solve_decision. Defined.

(** The digit of [d < 16] in [toString(16)]: ['0'..'9'], ['a'..'f']. *)
Definition hexDigit (d : N) : N := if (d <? 10)%N then (48 + d)%N else (87 + d)%N.

Fixpoint toHexFuel (fuel : nat) (n : N) : jsstring :=
  match fuel with
  | 0 => []
  | S fuel =>
      if (n <? 16)%N then [hexDigit n]
      else toHexFuel fuel (n / 16)%N ++ [hexDigit (n mod 16)%N]
  end.

(** [n.toString(16)] for a natural number [n]; a number of [b] bits has at
    most [b] hexadecimal digits. *)
Definition toString16 (n : N) : jsstring := toHexFuel (S (N.to_nat (N.log2 n))) n.

(** [s.padStart(targetLength, fill)] for a [fill] of one code unit. *)
Definition padStart (targetLength : nat) (fill : N) (s : jsstring) : jsstring :=
  replicate (targetLength - length s) fill ++ s.

(** ["#" + n.toString(16).padStart(6, "0")] *)
Definition colorString (n : N) : jsstring :=
  ascii "#" ++ padStart 6 48%N (toString16 n).

(** The number that a string of hexadecimal digits denotes, to say what a
    colour string reads as. *)
Definition hexDigitValue (u : N) : N :=
  if (u <? 58)%N then (u - 48)%N else (u - 87)%N.

Definition hexValue (s : jsstring) : N :=
  foldl (fun v u => (16 * v + hexDigitValue u)%N) 0%N s.

(** [vimHighlightToVSCodeOptions(uiAttrs)] *)
Definition vimHighlightToVSCodeOptions (uiAttrs : VimHighlightUIAttributes)
    : ThemableDecorationRenderOptions :=
  let backgroundColor := ColorString ∘ colorString <$> background uiAttrs in
  let color := ColorString ∘ colorString <$> foreground uiAttrs in
  let specialColor :=
    match special uiAttrs with
    | Some n => colorString n
    | None => []
    end in
  let '(backgroundColor, color) :=
    match reverse_ uiAttrs with
    | Some _ => (Some (ThemeColor (ascii "editor.foreground")),
                 Some (ThemeColor (ascii "editor.background")))
    | None => (backgroundColor, color)
    end in
  let fontStyle := match italic uiAttrs with Some _ => Some (ascii "italic") | None => None end in
  let fontWeight := match bold uiAttrs with Some _ => Some (ascii "bold") | None => None end in
  let textDecoration :=
    match strikethrough uiAttrs with
    | Some _ => Some (ascii "line-through solid")
    | None => None
    end in
  let textDecoration :=
    match underline uiAttrs with
    | Some _ => Some (ascii "underline " ++ specialColor ++ ascii " solid")
    | None => textDecoration
    end in
  let textDecoration :=
    match undercurl uiAttrs with
    | Some _ => Some (ascii "underline " ++ specialColor ++ ascii " wavy")
    | None => textDecoration
    end in
  mkRenderOptions backgroundColor None color None None fontStyle fontWeight textDecoration.

(** [normalizeThemeColor(color)] *)
Definition normalizeThemeColor (c : option Color) : option Color :=
  match c with
  | Some (ColorString s) =>
      if decide (take 6 s = ascii "theme.") then Some (ThemeColor (drop 6 s)) else c
  | _ => c
  end.

(** [normalizeDecorationConfig(config)] *)
Definition normalizeDecorationConfig (config : ThemableDecorationRenderOptions)
    : ThemableDecorationRenderOptions :=
  mkRenderOptions
    (normalizeThemeColor (backgroundColor config))
    (normalizeThemeColor (borderColor config))
    (normalizeThemeColor (color config))
    (normalizeThemeColor (outlineColor config))
    (normalizeThemeColor (overviewRulerColor config))
    (fontStyle config) (fontWeight config) (textDecoration config).

(** [Object.keys(attrs).length] *)
Definition attrKeys (attrs : VimHighlightUIAttributes) : nat :=
  let count {A} (o : option A) := match o with Some _ => 1 | None => 0 end in
  count (foreground attrs) + count (background attrs) + count (special attrs)
  + count (reverse_ attrs) + count (italic attrs) + count (bold attrs)
  + count (strikethrough attrs) + count (underline attrs) + count (undercurl attrs)
  + count (blend attrs) + otherKeys attrs.

(** The decorator part of the provider's state.  A
    [TextEditorDecorationType] is the number of the call of
    [window.createTextEditorDecorationType] that made it; [created] counts
    those calls and [disposed] lists the decorators on which [dispose()]
    was called, the last first. *)
Record DecoratorState := mkDecorators {
  highlighIdToDecorator : jsmap Z nat;
  decoratorConfigurations : jsmap nat ThemableDecorationRenderOptions;
  created : nat;
  disposed : list nat;
}.

(** [createDecoratorForHighlightId(id, options)] *)
Definition createDecoratorForHighlightId (st : DecoratorState) (id : Z)
    (options : ThemableDecorationRenderOptions) : DecoratorState :=
  let decorator := created st in
  mkDecorators (map_set (highlighIdToDecorator st) id decorator)
               (map_set (decoratorConfigurations st) decorator options)
               (S (created st)) (disposed st).

(** [getDecoratorForHighlightId(id)] *)
Definition getDecoratorForHighlightId (st : DecoratorState) (id : Z) : option nat :=
  map_get (highlighIdToDecorator st) id.

(** [getDecoratorOptions(decorator)] *)
Definition getDecoratorOptions (st : DecoratorState) (decorator : nat)
    : option ThemableDecorationRenderOptions :=
  map_get (decoratorConfigurations st) decorator.

(** [addHighlightGroup(id, attrs, groups)]; [highlights g] is
    [this.configuration.highlights[g]], [None] when it is [undefined].
    [customName && ...] is falsy for the empty name as it is for no name.
    [groups.reverse()] reverses the array of the caller in place, which the
    provider does not see. *)
Definition addHighlightGroup (highlights : jsstring -> option ThemableDecorationRenderOptions)
    (st : DecoratorState) (id : Z) (attrs : VimHighlightUIAttributes)
    (groups : list jsstring) : DecoratorState :=
  let customName := snd <$> list_find (fun g => is_Some (highlights g)) (reverse groups) in
  let customHl :=
    match customName with
    | Some [] | None => None
    | Some g => highlights g
    end in
  match customHl with
  | Some customHl =>
      if map_has (highlighIdToDecorator st) id then st
      else createDecoratorForHighlightId st id customHl
  | None =>
      let st :=
        match map_get (highlighIdToDecorator st) id with
        | Some decorator =>
            mkDecorators (highlighIdToDecorator st) (decoratorConfigurations st)
                         (created st) (decorator :: disposed st)
        | None => st
        end in
      if 0 <? attrKeys attrs
      then createDecoratorForHighlightId st id (vimHighlightToVSCodeOptions attrs)
      else st
  end.

(** The configuration that the constructor keeps:
    [this.configuration.highlights[key] = normalizeDecorationConfig(config)]
    for every entry. *)
Definition normalizedHighlights
    (highlights : jsstring -> option ThemableDecorationRenderOptions)
    : jsstring -> option ThemableDecorationRenderOptions :=
  fun g => normalizeDecorationConfig <$> highlights g.

End Provider.


(** ** Runs of the columns of a line *)

(** The number of maximal runs among the columns of a line, given in
    ascending order: a column starts a run unless the column before it in
    the list is its left neighbour and has the same highlight id.  [prev]
    is the column before the list, with its id. *)
Fixpoint columnRunsAfter (prev : option (nat * Z)) (columns : jsmap nat (list Highlight))
    : nat :=
  match columns with
  | [] => 0
  | (col, hls) :: rest =>
      match hls with
      | [h] =>
          (if bool_decide (prev = Some (col - 1, hlId (cell h)) /\ 0 < col) then 0 else 1)
          + columnRunsAfter (Some (col, hlId (cell h))) rest
      | _ => columnRunsAfter prev rest
      end
  end.

Definition columnRuns (columns : jsmap nat (list Highlight)) : nat :=
  columnRunsAfter None columns.

(** The columns are in ascending order, all to the right of [prev]. *)
Fixpoint ascendingAfter (prev : option nat) (columns : jsmap nat (list Highlight)) : Prop :=
  match columns with
  | [] => True
  | (col, hls) :: rest =>
      match prev with
      | Some p => p < col
      | None => True
      end /\
      ascendingAfter (Some col) rest
  end.

(** The state of [lineHighlightsToRanges] after the column [prev]: no
    virtual range, every range ends at or before the column after [prev],
    only ranges of the id of [prev] end there, and one does. *)
Definition lineWalked (prev : option (nat * Z))
    (st : jsmap Z (list CellGrid.NormalHighlightRange) * list HighlightRange) : Prop :=
  st.2 = [] /\
  match prev with
  | None => st.1 = []
  | Some (p, idp) =>
      (forall id l r, (id, l) ∈ st.1 -> r ∈ l ->
         CellGrid.nEndCol r <= S p /\ (CellGrid.nEndCol r = S p -> id = idp)) /\
      exists l r, map_get st.1 idp = Some l /\ r ∈ l /\ CellGrid.nEndCol r = S p
  end.
(** ** What the ranges say about the stored columns *)

(** The test of the range builder for a column that becomes a virtual
    range, [colHighlights.length > 1 || colHighlights[0].virtText]. *)
Definition isVirtualColumn (colHighlights : list Highlight) : bool :=
  match colHighlights with
  | [] => false
  | highlight :: _ => (1 <? length colHighlights) || truthy (virtText highlight)
  end.

(** Column [c] stores a single entry that is no virtual text and has the
    highlight id [id]: the other branch of that test. *)
Definition realColumn (gridRow : GridRow) (c : nat) (id : Z) : Prop :=
  exists h, arr_get gridRow c = Some [h] /\ truthy (virtText h) = false /\
            hlId (cell h) = id.

(** A range that describes the row: a normal range is a maximal run of
    adjacent real columns of its id, a virtual range is a stored column
    that passes the test. *)
Definition rangeOfRow (line : Z) (gridRow : GridRow) (r : HighlightRange) : Prop :=
  match r with
  | NormalRange id l s e =>
      l = line /\ s < e /\
      (forall c, s <= c < e -> realColumn gridRow c id) /\
      ~ realColumn gridRow e id /\
      (forall p, S p = s -> ~ realColumn gridRow p id)
  | VirtualRange hls l col =>
      l = line /\ arr_get gridRow col = Some hls /\ isVirtualColumn hls = true
  end.

(** The ranges account for column [c] of the row: a virtual column has its
    virtual range, a real column lies inside a normal range of its id. *)
Definition columnCovered (line : Z) (gridRow : GridRow) (c : nat)
    (ranges : list HighlightRange) : Prop :=
  (forall hls, arr_get gridRow c = Some hls -> isVirtualColumn hls = true ->
     VirtualRange hls line c ∈ ranges) /\
  (forall id, realColumn gridRow c id ->
     exists s e, NormalRange id line s e ∈ ranges /\ s <= c < e).

(** The state of the walk over a row, started with no range, when the
    columns below [K] have been visited: the ranges emitted describe the
    row, the open range is a run that ends at the last real column, and
    every column below [K] is accounted for by the ranges emitted or by the
    open range. *)
Definition rowBuilt (line : Z) (gridRow : GridRow) (K : nat) (st : BuildState) : Prop :=
  (forall r, r ∈ res st -> rangeOfRow line gridRow r) /\
  match currHighlight st with
  | None => forall c id, c < K -> ~ realColumn gridRow c id
  | Some h0 =>
      currStartCol st <= currEndCol st < K /\
      (forall c, currStartCol st <= c <= currEndCol st ->
         realColumn gridRow c (hlId (cell h0))) /\
      (forall p, S p = currStartCol st -> ~ realColumn gridRow p (hlId (cell h0))) /\
      (forall c id, currEndCol st < c < K -> ~ realColumn gridRow c id)
  end /\
  forall c, c < K ->
    (forall hls, arr_get gridRow c = Some hls -> isVirtualColumn hls = true ->
       VirtualRange hls line c ∈ res st) /\
    (forall id, realColumn gridRow c id ->
       (exists s e, NormalRange id line s e ∈ res st /\ s <= c < e) \/
       (exists h0, currHighlight st = Some h0 /\ hlId (cell h0) = id /\
                   currStartCol st <= c <= currEndCol st)).

(** The range, [by_] lines further down. *)
Definition shiftLine (by_ : Z) (r : HighlightRange) : HighlightRange :=
  match r with
  | NormalRange id line s e => NormalRange id (line + by_) s e
  | VirtualRange hls line col => VirtualRange hls (line + by_) col
  end.

(** ** What the ranges of a line say about its columns, cell-based grid *)

(** The other branch of the test in [lineHighlightsToRanges]: a single
    entry without virtual text. *)
Definition isRealColumn (hls : list Highlight) : bool :=
  match hls with
  | [h] => negb (truthy (virtText h))
  | _ => false
  end.

(** The map of the line has, at column [c], a single entry that is no
    virtual text and has the highlight id [id]. *)
Definition realEntry (highlights : jsmap nat (list Highlight)) (c : nat) (id : Z) : Prop :=
  exists h, (c, [h]) ∈ highlights /\ truthy (virtText h) = false /\ hlId (cell h) = id.

(** The number of columns of a normal range. *)
Definition rangeWidth (r : HighlightRange) : nat :=
  match r with
  | NormalRange _ _ s e => e - s
  | VirtualRange _ _ _ => 0
  end.

(** The normal ranges that [lineHighlightsToRanges] holds when it has
    visited the columns [visited]: every range is a non-empty stretch of
    real columns of its id, every real column lies in a range of its id,
    and the ranges have as many columns as there are real columns. *)
Definition lineRanged (line : Z) (visited : jsmap nat (list Highlight))
    (normalHighlights : jsmap Z (list CellGrid.NormalHighlightRange)) : Prop :=
  (forall id l r, (id, l) ∈ normalHighlights -> r ∈ l ->
     CellGrid.nHlId r = id /\ CellGrid.nLine r = line /\
     CellGrid.nStartCol r < CellGrid.nEndCol r /\
     forall c, CellGrid.nStartCol r <= c < CellGrid.nEndCol r -> realEntry visited c id) /\
  (forall c id, realEntry visited c id ->
     exists l r, map_get normalHighlights id = Some l /\ r ∈ l /\
                 CellGrid.nStartCol r <= c < CellGrid.nEndCol r) /\
  sum_list_with (fun r => CellGrid.nEndCol r - CellGrid.nStartCol r)
                (concat normalHighlights.*2)
  = length (filter (fun kv => isRealColumn kv.2 = true) visited).

(** The normal ranges when the columns are visited in ascending order:
    [bound] lies beyond every visited column, no range reaches beyond it,
    the ranges of an id end at different columns, and no range can be
    extended by the column at its end or by the column before its start. *)
Definition lineMaximal (visited : jsmap nat (list Highlight)) (bound : nat)
    (normalHighlights : jsmap Z (list CellGrid.NormalHighlightRange)) : Prop :=
  NoDup (map_keys normalHighlights) /\
  (forall c hls, (c, hls) ∈ visited -> c < bound) /\
  forall id l, map_get normalHighlights id = Some l ->
    (forall i j r1 r2, l !! i = Some r1 -> l !! j = Some r2 ->
       CellGrid.nEndCol r1 = CellGrid.nEndCol r2 -> i = j) /\
    forall r, r ∈ l ->
      CellGrid.nEndCol r <= bound /\
      ~ realEntry visited (CellGrid.nEndCol r) id /\
      forall p, S p = CellGrid.nStartCol r -> ~ realEntry visited p id.
(** ** The rows while they are shifted down *)

(** The body of the loop that shifts the rows down by [b] from [from]. *)
Definition moveDown {A} (from b : nat) (g : sparse A) (idx : nat) : sparse A :=
  if decide (idx <= from) then g else moveRow g idx (Z.of_nat idx + Z.of_nat b)%Z.

(** What the grid holds when the rows at and above [K] of [g1], the grid
    after the clipped rows were deleted, have been dealt with by the loop
    that shifts by [b] from [from], which visits the rows from the last to
    the first. *)
Definition shiftedDownTo {A} (g1 : sparse A) (from b K : nat) (h : sparse A) : Prop :=
  forall j, arr_get h j =
    if decide (j < K) then arr_get g1 j
    else if decide (j <= from) then arr_get g1 j
    else if decide (K + b <= j /\ from + b < j) then arr_get g1 (j - b)
    else None.

(** ** A concrete reading of the text utilities *)

Module UnicodeText.

(** Modelled from the spec: [wcwidth] of the library [ts-wcwidth] on a UTF-16
    code unit, restricted to what the width arithmetic of the spec names: a
    double-width glyph (the East Asian wide blocks) takes two screen cells,
    any other code unit one. *)
Definition wcwidth (u : N) : Z :=
  if ((0x1100 <=? u) && (u <=? 0x115F) || (0x2E80 <=? u) && (u <=? 0xA4CF)
      || (0xAC00 <=? u) && (u <=? 0xD7A3) || (0xF900 <=? u) && (u <=? 0xFAFF)
      || (0xFE30 <=? u) && (u <=? 0xFE6F) || (0xFF00 <=? u) && (u <=? 0xFF60)
      || (0xFFE0 <=? u) && (u <=? 0xFFE6))%N
  then 2%Z else 1%Z.

Definition wcswidth (s : jsstring) : Z := foldr (fun u w => (wcwidth u + w)%Z) 0%Z s.

(** Modelled from the spec: [getWidth] of [utils/text_cells.ts], after the
    [getWidth] local to [processHLCellsEvent]: the width of the text with
    every tab replaced by [tabSize] spaces. *)
Definition getWidth (s : jsstring) (tabSize : Z) : Z := wcswidth (expandTabs s tabSize).

(** Modelled from the spec: [isDouble] of [utils/text_cells.ts], after
    [const isDouble = (c: string) => wcswidth(c) === 2]. *)
Definition isDouble (c : jsstring) : bool := (wcswidth c =? 2)%Z.

(** Modelled from the spec: [splitGraphemes] of [utils/text.ts], one
    grapheme per code point (a surrogate pair stays together); clusters of
    several code points are left to a finer segmentation. *)
Definition splitGraphemes (s : jsstring) : list jsstring := codePoints s.

(** The walk of [calculateEditorColFromVimScreenCol]: characters are
    consumed while the screen column reached so far is left of [screenCol];
    a tab advances to the next multiple of [tabSize], any other character by
    its width. *)
Fixpoint editorColFrom (chars : list jsstring) (tabSize screenCol currentVimCol : Z)
    (currentCharIdx : nat) : nat :=
  match chars with
  | [] => currentCharIdx
  | c :: rest =>
      if (screenCol <=? currentVimCol)%Z then currentCharIdx
      else
        let w := if decide (c = TAB) then (tabSize - Z.rem currentVimCol tabSize)%Z
                 else wcswidth c in
        editorColFrom rest tabSize screenCol (currentVimCol + w)%Z (S currentCharIdx)
  end.

(** Modelled from the spec: [calculateEditorColFromVimScreenCol] of
    [utils/text.ts], "convert [startScreenCol] into the corresponding
    character-column index of [lineText]", with tab expansion and
    double-width glyphs. *)
Definition calculateEditorColFromVimScreenCol (line : jsstring) (screenCol : nat)
    (tabSize : Z) : nat :=
  editorColFrom (splitGraphemes line) tabSize (Z.of_nat screenCol) 0%Z 0.

Definition utils : TextUtils :=
  Build_TextUtils splitGraphemes getWidth isDouble calculateEditorColFromVimScreenCol.

(** Modelled from the spec: the library's [wcswidth] on [undefined] takes
    the argument for a single narrow character. *)
Definition providerUtils : Provider.Utils :=
  Provider.Build_Utils
    (fun c => match c with Some s => wcswidth s | None => 1%Z end)
    calculateEditorColFromVimScreenCol.

End UnicodeText.

(** ** Example lines, events and grids *)

Module Examples.

(** The double-width glyph of the spec's example, U+732B. *)
Definition CAT : jsstring := [0x732B%N].

(** ["a猫b"] *)
Definition lineACatB : jsstring := ascii "a" ++ CAT ++ ascii "b".

(** The cell run of the spec's example: four screen cells with ids
    [1, 2, 2, 3], the third being the continuation cell of the glyph, which
    carries the empty text. *)
Definition evFourCells : HighlightCellsEvent :=
  mkEvent 0 0
    [mkCell (ascii "a") 1; mkCell CAT 2; mkCell [] 2; mkCell (ascii "b") 3]
    lineACatB 4.

(** The same run as valid cells, the continuation cell left out. *)
Definition evThreeCells : HighlightCellsEvent :=
  mkEvent 0 0 [mkCell (ascii "a") 1; mkCell CAT 2; mkCell (ascii "b") 3] lineACatB 4.

(** The grid after [evThreeCells]. *)
Definition gridACatB : Grid :=
  [Some [Some [mkHighlight (mkCell (ascii "a") 1) None];
         Some [mkHighlight (mkCell CAT 2) None];
         Some [mkHighlight (mkCell (ascii "b") 3) None]]].

(** A tab followed by ["x"]. *)
Definition lineTabX : jsstring := TAB ++ ascii "x".

(** The whole line drawn with tab size 4: four cells for the tab, one for
    ["x"]. *)
Definition evTabLine : HighlightCellsEvent :=
  mkEvent 0 0
    [mkCell (ascii " ") 1; mkCell (ascii " ") 1; mkCell (ascii " ") 1;
     mkCell (ascii " ") 1; mkCell (ascii "x") 2]
    lineTabX 4.

(** The last cell of the tab redrawn with id 3. *)
Definition evTabLastCell : HighlightCellsEvent :=
  mkEvent 0 3 [mkCell (ascii " ") 3] lineTabX 4.

(** The second cell of the tab redrawn with the default id 0. *)
Definition evTabDefaultCell : HighlightCellsEvent :=
  mkEvent 0 1 [mkCell (ascii " ") 0] lineTabX 4.

(** A redraw inside the tab that carries no valid cell. *)
Definition evTabNoCell : HighlightCellsEvent := mkEvent 0 1 [] lineTabX 4.

Definition tabCell (id : Z) : Highlight :=
  mkHighlight (mkCell (ascii " ") id) (Some (ascii " ")).

(** The grid after [evTabLine]. *)
Definition gridTabLine : Grid :=
  [Some [Some [tabCell 1; tabCell 1; tabCell 1; tabCell 1];
         Some [mkHighlight (mkCell (ascii "x") 2) None]]].

(** The grid after [evTabLine] and [evTabLastCell]. *)
Definition gridTabLine' : Grid :=
  [Some [Some [tabCell 1; tabCell 1; tabCell 1; tabCell 3];
         Some [mkHighlight (mkCell (ascii "x") 2) None]]].

(** The grid after [evTabLastCell] on the empty grid, and after applying it
    once more. *)
Definition gridTabOnce : Grid := [Some [Some [tabCell 3]]].
Definition gridTabTwice : Grid := [Some [Some [tabCell 3; tabCell 3]]].

(** The grid after [evTabDefaultCell] on the empty grid. *)
Definition gridTabDefault : Grid := [Some [Some [tabCell 0]]].

(** The grid after [evTabNoCell] on the empty grid. *)
Definition gridTabEmptyList : Grid := [Some [Some []]].

(** The grid after [evFourCells] on the empty grid. *)
Definition gridFourCells : Grid :=
  [Some [Some [mkHighlight (mkCell (ascii "a") 1) None];
         Some [mkHighlight (mkCell CAT 2) None];
         Some [mkHighlight (mkCell [] 2) (Some [])];
         Some [mkHighlight (mkCell (ascii "b") 3) (Some (ascii "b"))]]].

Definition realCell (t : string) (id : Z) : Highlight :=
  mkHighlight (mkCell (ascii t) id) None.

(** A row of three maximal runs: columns 0 and 1 with id 1, column 2 with
    id 2 and, after a hole, column 4 with id 2. *)
Definition rowThreeRuns : GridRow :=
  [Some [realCell "l" 1]; Some [realCell "e" 1]; Some [realCell "t" 2]; None;
   Some [realCell "x" 2]].

(** A grid with that row at index 2, below a row with a virtual column. *)
Definition gridThreeRuns : Grid :=
  [Some [Some [tabCell 1; tabCell 1]; Some [realCell "y" 5]]; None; Some rowThreeRuns].

(** The two cells of the line ["ab"] of row 1, drawn with the ids 1 and 2,
    and the row they leave: two maximal runs. *)
Definition evRowTwoRuns : HighlightCellsEvent :=
  mkEvent 1 0 [mkCell (ascii "a") 1; mkCell (ascii "b") 2] (ascii "ab") 4.
Definition rowTwoRuns : GridRow := [Some [realCell "a" 1]; Some [realCell "b" 2]].

(** The grid after [evTabNoCell] and [evRowTwoRuns] on the empty grid. *)
Definition gridEmptyListTwoRuns : Grid := [Some [Some []]; Some rowTwoRuns].

(** The columns of a line in ascending order: two real columns of id 1, a
    column of two entries, another real column of id 1 and a column with an
    empty list. *)
Definition lineColumns : jsmap nat (list Highlight) :=
  [(0, [realCell "a" 1]); (1, [realCell "b" 1]); (2, [tabCell 1; tabCell 1]);
   (3, [realCell "c" 1]); (4, [])].

(** A group store whose decorators are numbers: every id but the default 0
    has the decorator of its own number. *)
Definition groupDecorator (id : Z) : option nat * unit :=
  (if (id =? 0)%Z then None else Some (Z.to_nat id), tt).

(** A plain reading of the stored cells for the decoration examples: every
    cell of the line highlights the character of its own column. *)
Definition cellPerColumn (lineCells : sparse (list ValidCell)) (line : Z)
    (lineText : jsstring) (tabSize : Z) : jsmap nat (list Highlight) :=
  imap (fun i c => (i, [mkHighlight c None]))
       (default [] (arr_get lineCells (Z.to_nat line))).

(** An editor showing the one line ["ab"], and its viewport. *)
Definition editorAB : CellGrid.Editor := CellGrid.mkEditor 1 (fun _ => ascii "ab") 4.
Definition viewportAB : CellGrid.Viewport := CellGrid.mkViewport 0 0.

(** A grid whose line 0 holds two cells of id 1, before its first refresh. *)
Definition cellGridId1 : CellGrid.GridState (Decorator := nat) (Style := unit) :=
  CellGrid.mkGrid [Some [mkCell (ascii "a") 1; mkCell (ascii "b") 1]] [] true [].

(** The grid after that refresh and a redraw of the two cells with id 2. *)
Definition cellGridId2 : CellGrid.GridState (Decorator := nat) (Style := unit) :=
  CellGrid.handleGridLine (fun id => id) 0 0
    [(ascii "a", Some 2%Z, None); (ascii "b", None, None)]
    (CellGrid.refreshDecorations groupDecorator cellPerColumn
       (Some editorAB) (Some viewportAB) cellGridId1).1.

(** The raw cells of the spec's double-width example, as the provider
    receives them: the continuation cell carries the empty text and no id. *)
Definition rawFourCells : list (jsstring * option Z * option nat) :=
  [(ascii "a", Some 1%Z, None); (CAT, Some 2%Z, None); ([], None, None);
   (ascii "b", Some 3%Z, None)].

(** The provider's highlights of grid 1 after [rawFourCells]. *)
Definition providerACatB : Provider.Highlights :=
  [(1, [Some [Some [Provider.mkHl 1 None]; Some [Provider.mkHl 2 None];
              Some [Provider.mkHl 3 None]]])].

End Examples.
(** * Properties *)

(** ** Sparse arrays *)

Section arr_facts.
Context {A : Type}.

Lemma arr_get_ge (a : sparse A) i : length a <= i -> arr_get a i = None.
Proof. intros H. unfold arr_get. by rewrite lookup_ge_None_2. Qed.

Lemma arr_get_Some_lt (a : sparse A) i x : arr_get a i = Some x -> i < length a.
Proof.
      intros H. destruct (decide (i < length a)) as [|Hn]; [done|].
      rewrite arr_get_ge in H by lia. done.
Qed.

Lemma lookup_arr_get (a : sparse A) i :
      a !! i = if decide (i < length a) then Some (arr_get a i) else None.
Proof.
      unfold arr_get. case_decide as H.
      - destruct (lookup_lt_is_Some_2 a i H) as [x ->]. done.
      - apply lookup_ge_None_2. lia.
Qed.

(** Two arrays with the same [length] and the same elements are equal. *)
Lemma arr_ext (a b : sparse A) :
      length a = length b -> (forall i, arr_get a i = arr_get b i) -> a = b.
Proof.
      intros Hl Hg. apply list_eq. intros i.
      rewrite !lookup_arr_get, Hl, Hg. done.
Qed.

Lemma length_arr_set (a : sparse A) i v :
      length (arr_set a i v) = Nat.max (length a) (S i).
Proof.
      unfold arr_set. case_decide.
      - rewrite length_insert. lia.
      - rewrite !length_app, length_replicate. simpl. lia.
Qed.

Lemma arr_get_set (a : sparse A) i v j :
      arr_get (arr_set a i v) j = if decide (j = i) then Some v else arr_get a j.
Proof.
      unfold arr_set, arr_get. case_decide as Hlt.
      - case_decide as Hj.
        + subst. by rewrite list_lookup_insert_eq.
        + by rewrite list_lookup_insert_ne.
      - case_decide as Hj.
        + subst. rewrite lookup_app_r by lia.
          rewrite lookup_app_r by (rewrite length_replicate; lia).
          rewrite length_replicate.
          replace (i - length a - (i - length a)) with 0 by lia. done.
        + destruct (decide (j < length a)) as [Hja|Hja].
          * by rewrite lookup_app_l.
          * rewrite lookup_app_r by lia.
            rewrite (lookup_ge_None_2 a) by lia. simpl.
            destruct (decide (j < i)) as [Hji|Hji].
            -- rewrite lookup_app_l by (rewrite length_replicate; lia).
               rewrite lookup_replicate_2 by lia. done.
            -- rewrite lookup_ge_None_2; [done|].
               rewrite length_app, length_replicate. simpl. lia.
Qed.

Lemma length_arr_delete (a : sparse A) i : length (arr_delete a i) = length a.
Proof. apply length_insert. Qed.

Lemma arr_get_delete (a : sparse A) i j :
      arr_get (arr_delete a i) j = if decide (j = i) then None else arr_get a j.
Proof.
      unfold arr_delete, arr_get. case_decide as Hj.
      - subst. destruct (decide (i < length a)).
        + by rewrite list_lookup_insert_eq.
        + rewrite list_insert_ge by lia. by rewrite lookup_ge_None_2 by lia.
      - by rewrite list_lookup_insert_ne.
Qed.

Lemma elem_of_entries_from (a : sparse A) k i x :
      (i, x) ∈ entries_from k a <-> k <= i /\ arr_get a (i - k) = Some x.
Proof.
      revert k. induction a as [|[y|] a IH]; intros k; simpl.
      - rewrite elem_of_nil. unfold arr_get. rewrite lookup_nil. simpl.
        split; [done | by intros [_ ?]].
      - rewrite elem_of_cons, IH. unfold arr_get. split.
        + intros [[= -> ->]|[Hk Hx]].
          * split; [lia|]. by replace (k - k) with 0 by lia.
          * split; [lia|]. by replace (i - k) with (S (i - S k)) by lia.
        + intros [Hk Hx]. destruct (decide (i = k)) as [->|Hne].
          * left. replace (k - k) with 0 in Hx by lia. simpl in Hx. congruence.
          * right. split; [lia|].
            by replace (i - k) with (S (i - S k)) in Hx by lia.
      - rewrite IH. unfold arr_get. split.
        + intros [Hk Hx]. split; [lia|].
          by replace (i - k) with (S (i - S k)) by lia.
        + intros [Hk Hx]. destruct (decide (i = k)) as [->|Hne].
          * replace (k - k) with 0 in Hx by lia. done.
          * split; [lia|].
            by replace (i - k) with (S (i - S k)) in Hx by lia.
Qed.

Lemma elem_of_arr_entries (a : sparse A) i x :
      (i, x) ∈ arr_entries a <-> arr_get a i = Some x.
Proof.
      unfold arr_entries. rewrite elem_of_entries_from.
      replace (i - 0) with i by lia. split; [by intros [_ ?]|by intros ?; split; [lia|]].
Qed.
(** A property of the options of a list holds of the elements of the array. *)
Lemma arr_get_Forall (P : A -> Prop) (a : sparse A) :
  Forall (fun o => forall x, o = Some x -> P x) a ->
  forall i x, arr_get a i = Some x -> P x.
Proof.
  intros Hall i x Hx. unfold arr_get in Hx.
  destruct (a !! i) as [o|] eqn:Hi; [|done]. simpl in Hx.
  rewrite Forall_lookup in Hall. by apply (Hall i o).
Qed.

End arr_facts.

(** ** Strings *)

Lemma codePointCount_le_length_aux n (s : jsstring) :
  length s <= n -> codePointCount s <= length s.
Proof.
  revert s. induction n as [|n IH]; intros s Hn.
  - destruct s; simpl in *; lia.
  - destruct s as [|u [|v s'']]; simpl in *; try lia.
    destruct (isHighSurrogate u && isLowSurrogate v).
    + specialize (IH s''). lia.
    + specialize (IH (v :: s'')). simpl in IH. lia.
Qed.

Lemma codePointCount_le_length (s : jsstring) : codePointCount s <= length s.
Proof. by apply (codePointCount_le_length_aux (length s)). Qed.

Lemma codePointCount_pos (s : jsstring) : s <> [] -> 0 < codePointCount s.
Proof.
  destruct s as [|u [|v s'']]; simpl; [done|lia|].
  intros _. destruct (isHighSurrogate u && isLowSurrogate v); lia.
Qed.


(** ** The cell iterator and termination of the cell walk *)

Section walk_facts.
Context `{TextUtils}.

Lemma next_cells it : _cells (next it).2 = _cells it.
Proof. done. Qed.

Lemma next_index it : _index (next it).2 = S (_index it).
Proof. done. Qed.

(** Once the cells are exhausted [next] returns [undefined]. *)
Lemma next_exhausted it : length (_cells it) <= _index it -> (next it).1 = None.
Proof. intros Hle. unfold next. simpl. by apply lookup_ge_None_2. Qed.

Lemma next_Some_lt it c : (next it).1 = Some c -> _index it < length (_cells it).
Proof. unfold next. simpl. apply lookup_lt_Some. Qed.

Lemma takeVirtual_iter n it hls :
  _cells (takeVirtual n it hls).2 = _cells it /\
  _index (takeVirtual n it hls).2 = _index it + n.
Proof.
  revert it hls. induction n as [|n IH]; intros it hls; simpl.
  - split; [done|lia].
  - destruct (IH (mkIter (_cells it) (S (_index it)))
                 match _cells it !! _index it with
                 | Some c => add hls c (Some (text c))
                 | None => hls
                 end) as [IH1 IH2].
    rewrite IH1, IH2. simpl. split; [done|lia].
Qed.

(** The body of the walk never moves the iterator backwards and never
    touches the cells. *)
Lemma cellStep_iter lineChars filled tabSize it c col :
  _cells (cellStep lineChars filled tabSize it c col).2 = _cells it /\
  _index it <= _index (cellStep lineChars filled tabSize it c col).2.
Proof.
  unfold cellStep.
  repeat first
    [ case_decide
    | match goal with
      | |- context [takeVirtual ?n ?i ?h] =>
          let Hc := fresh in let Hi := fresh in
          destruct (takeVirtual_iter n i h) as [Hc Hi];
          destruct (takeVirtual n i h) as [? ?]; simpl in Hc, Hi
      | |- context [if ?b then _ else _] => destruct b
      | |- context [match ?o with Some _ => _ | None => _ end] => destruct o
      end ]; simpl; split; try done; try lia.
Qed.

Lemma cellWalk_fuel fuel lineChars filled tabSize it col gridRow hasUpdates :
  length (_cells it) - _index it <= fuel ->
  is_Some (cellWalk fuel lineChars filled tabSize it col gridRow hasUpdates).
Proof.
  revert it col gridRow hasUpdates.
  induction fuel as [|fuel IH]; intros it col gridRow hasUpdates Hfuel; simpl.
  - destruct (_cells it !! _index it) as [c|] eqn:Hc; [|done].
    apply lookup_lt_Some in Hc. lia.
  - destruct (_cells it !! _index it) as [c|] eqn:Hc; [|done].
    apply lookup_lt_Some in Hc.
    pose proof (cellStep_iter lineChars filled tabSize
                  (mkIter (_cells it) (S (_index it))) c col) as [Hcells Hidx].
    destruct (cellStep _ _ _ _ c col) as [[[hlCol hls] col'] it'].
    simpl in Hcells, Hidx.
    destruct (storeColumn gridRow hlCol hls hasUpdates) as [gridRow' hasUpdates'].
    apply IH. rewrite Hcells. lia.
Qed.

End walk_facts.

(** ** The cell walk as a sequence of column stores *)

Section visits_facts.
Context `{TextUtils}.

Lemma cellWalk_visits fuel lineChars filled tabSize it col gridRow hasUpdates :
  cellWalk fuel lineChars filled tabSize it col gridRow hasUpdates =
  (v ← walkVisits fuel lineChars filled tabSize it col;
   Some (storeVisits v (gridRow, hasUpdates))).
Proof.
  revert it col gridRow hasUpdates.
  induction fuel as [|fuel IH]; intros it col gridRow hasUpdates; simpl.
  - by destruct (_cells it !! _index it).
  - destruct (_cells it !! _index it) as [c|]; [|done].
    destruct (cellStep _ _ _ _ c col) as [[[hlCol hls] col'] it'].
    destruct (storeColumn gridRow hlCol hls hasUpdates) as [gridRow' hasUpdates'] eqn:Hst.
    rewrite IH.
    destruct (walkVisits fuel lineChars filled tabSize it' (S col')) as [v|]; [|done].
    simpl. by rewrite Hst.
Qed.

Lemma walkVisits_fuel fuel lineChars filled tabSize it col :
  length (_cells it) - _index it <= fuel ->
  is_Some (walkVisits fuel lineChars filled tabSize it col).
Proof.
  intros Hfuel.
  destruct (cellWalk_fuel fuel lineChars filled tabSize it col [] false Hfuel) as [r Hr].
  rewrite cellWalk_visits in Hr.
  by destruct (walkVisits fuel lineChars filled tabSize it col).
Qed.

End visits_facts.

Lemma arr_get_storeColumn gridRow c hls b j :
  arr_get (storeColumn gridRow c hls b).1 j =
  if decide (j = c) then (if noHighlight hls then None else Some hls)
  else arr_get gridRow j.
Proof.
  unfold storeColumn. destruct (noHighlight hls).
  - destruct (arr_get gridRow c) eqn:Hc; simpl.
    + apply arr_get_delete.
    + case_decide; by subst.
  - simpl. apply arr_get_set.
Qed.

Lemma length_storeColumn gridRow c hls b :
  length (storeColumn gridRow c hls b).1 =
  Nat.max (length gridRow) (if noHighlight hls then 0 else S c).
Proof.
  unfold storeColumn. destruct (noHighlight hls).
  - destruct (arr_get gridRow c); simpl; rewrite ?length_arr_delete; lia.
  - simpl. apply length_arr_set.
Qed.

Lemma storeVisits_cons c hls rest st :
  storeVisits ((c, hls) :: rest) st = storeVisits rest (storeColumn st.1 c hls st.2).
Proof. done. Qed.

(** The last visit of a column decides what it holds after the walk. *)
Lemma arr_get_storeVisits visits st j :
  arr_get (storeVisits visits st).1 j =
  match lastVisit visits j with
  | Some hls => if noHighlight hls then None else Some hls
  | None => arr_get st.1 j
  end.
Proof.
  revert st. induction visits as [|[c hls] rest IH]; intros st; [done|].
  rewrite storeVisits_cons, IH. simpl.
  destruct (lastVisit rest j); [done|].
  rewrite arr_get_storeColumn. by case_decide; subst; case_decide.
Qed.

Lemma length_storeVisits visits st :
  length (storeVisits visits st).1 = Nat.max (length st.1) (storeBound visits).
Proof.
  revert st. induction visits as [|[c hls] rest IH]; intros st; [simpl; lia|].
  rewrite storeVisits_cons, IH, length_storeColumn. simpl. lia.
Qed.

(** Replaying the same visits changes nothing. *)
Lemma storeVisits_twice visits st b :
  (storeVisits visits ((storeVisits visits st).1, b)).1 = (storeVisits visits st).1.
Proof.
  apply arr_ext.
  - rewrite !length_storeVisits. simpl. rewrite length_storeVisits. lia.
  - intros j. rewrite (arr_get_storeVisits visits (_, b)). simpl.
    rewrite (arr_get_storeVisits visits st).
    by destruct (lastVisit visits j).
Qed.

(** ** The processor as a whole *)

Section process_facts.
Context `{TextUtils}.

Lemma cellWalk_fuel_mono fuel fuel' lineChars filled tabSize it col gridRow hasUpdates r :
  fuel <= fuel' ->
  cellWalk fuel lineChars filled tabSize it col gridRow hasUpdates = Some r ->
  cellWalk fuel' lineChars filled tabSize it col gridRow hasUpdates = Some r.
Proof.
  revert fuel' it col gridRow hasUpdates.
  induction fuel as [|fuel IH]; intros fuel' it col gridRow hasUpdates Hle; simpl.
  - destruct (_cells it !! _index it) as [c|] eqn:Hc; [done|].
    intros <-. destruct fuel'; simpl; by rewrite Hc.
  - destruct (_cells it !! _index it) as [c|] eqn:Hc.
    + destruct fuel' as [|fuel']; [lia|]. simpl. rewrite Hc.
      destruct (cellStep _ _ _ _ c col) as [[[hlCol hls] col'] it'].
      destruct (storeColumn gridRow hlCol hls hasUpdates) as [gridRow' hasUpdates'].
      apply IH. lia.
    + intros <-. destruct fuel'; simpl; by rewrite Hc.
Qed.

Lemma rederivePrevColumn_iter lineChars tabSize vimCol editorCol it gridRow :
  _cells (rederivePrevColumn lineChars tabSize vimCol editorCol it gridRow).2 = _cells it.
Proof.
  unfold rederivePrevColumn.
  repeat first
    [ case_decide
    | match goal with
      | |- context [takeVirtual ?n ?i ?h] =>
          let Hc := fresh in
          destruct (takeVirtual_iter n i h) as [Hc _];
          destruct (takeVirtual n i h) as [? ?]; simpl in Hc
      | |- context [if ?b then _ else _] => destruct b
      end ]; simpl; done.
Qed.

Lemma beforeWalk_cells grid ev : _cells (beforeWalk grid ev).2 = validCells ev.
Proof. unfold beforeWalk. by rewrite rederivePrevColumn_iter. Qed.

Lemma eventVisits_is_Some grid ev : is_Some (eventVisits grid ev).
Proof.
  unfold eventVisits. apply walkVisits_fuel. rewrite beforeWalk_cells. lia.
Qed.

(** The processor runs the previous-column region and then stores the
    visits of the cell walk one after the other. *)
Lemma processWithFuel_visits fuel grid ev :
  processWithFuel fuel grid ev =
  (v ← walkVisits fuel (splitGraphemes (lineText ev))
         (splitGraphemes (filledLineText (lineText ev))) (tabSize ev)
         (beforeWalk grid ev).2
         (calculateEditorColFromVimScreenCol (lineText ev) (vimCol ev) (tabSize ev));
   Some (arr_set (ensureRow grid (row ev)) (row ev)
           (storeVisits v ((beforeWalk grid ev).1, false)).1,
         (storeVisits v ((beforeWalk grid ev).1, false)).2)).
Proof.
  unfold processWithFuel, beforeWalk.
  destruct (rederivePrevColumn _ _ _ _ _ _) as [gridRow it]. simpl.
  rewrite cellWalk_visits.
  destruct (walkVisits _ _ _ _ _ _) as [v|]; [|done]. simpl.
  by destruct (storeVisits v (gridRow, false)).
Qed.

Lemma processHighlightCellsEvent_visits grid ev :
  processHighlightCellsEvent grid ev =
  (v ← eventVisits grid ev;
   Some (arr_set (ensureRow grid (row ev)) (row ev)
           (storeVisits v ((beforeWalk grid ev).1, false)).1,
         (storeVisits v ((beforeWalk grid ev).1, false)).2)).
Proof. apply processWithFuel_visits. Qed.

Lemma processHighlightCellsEvent_is_Some grid ev :
  is_Some (processHighlightCellsEvent grid ev).
Proof.
  rewrite processHighlightCellsEvent_visits.
  destruct (eventVisits_is_Some grid ev) as [v ->]. done.
Qed.

Lemma processWithFuel_mono fuel fuel' grid ev r :
  fuel <= fuel' -> processWithFuel fuel grid ev = Some r ->
  processWithFuel fuel' grid ev = Some r.
Proof.
  intros Hle. unfold processWithFuel.
  destruct (rederivePrevColumn _ _ _ _ _ _) as [gridRow it].
  destruct (cellWalk fuel _ _ _ _ _ _ _) as [[gridRow' b]|] eqn:Hw; [|done].
  by rewrite (cellWalk_fuel_mono _ _ _ _ _ _ _ _ _ _ Hle Hw).
Qed.

(** Every visit takes a cell of its own: the walk makes no more iterations
    than cells remain. *)
Lemma walkVisits_length fuel lineChars filled tabSize it col v :
  walkVisits fuel lineChars filled tabSize it col = Some v ->
  length v <= length (_cells it) - _index it.
Proof.
  revert it col v. induction fuel as [|fuel IH]; intros it col v; simpl.
  - destruct (_cells it !! _index it); [done|]. intros [= <-]. simpl. lia.
  - destruct (_cells it !! _index it) as [c|] eqn:Hc; [|intros [= <-]; simpl; lia].
    apply lookup_lt_Some in Hc.
    pose proof (cellStep_iter lineChars filled tabSize
                  (mkIter (_cells it) (S (_index it))) c col) as [Hcells Hidx].
    destruct (cellStep _ _ _ _ c col) as [[[hlCol hls] col'] it'].
    simpl in Hcells, Hidx.
    destruct (walkVisits fuel lineChars filled tabSize it' (S col')) as [rest|] eqn:Hrest;
      [|done].
    intros [= <-]. apply IH in Hrest. simpl. rewrite Hcells in Hrest. lia.
Qed.

End process_facts.


(** ** The visited columns and the returned flag *)

Section flag_facts.
Context `{TextUtils}.
#[local] Arguments codePointCount : simpl never.

(** The column written by an iteration lies between the character column at
    which the iteration starts and the one at which it ends. *)
Lemma cellStep_cols lineChars filled tabSize it c col :
  col <= (cellStep lineChars filled tabSize it c col).1.1.1 /\
  (cellStep lineChars filled tabSize it c col).1.1.1
    <= (cellStep lineChars filled tabSize it c col).1.2.
Proof.
  unfold cellStep, next.
  assert (Hcp : forall s : jsstring, codePointCount s - 1 <= length s - 1).
  { intros s. pose proof (codePointCount_le_length s). lia. }
  destruct (filled !! col) as [[|u s]|] eqn:Hchar; simpl truthy; cbv iota;
    try specialize (Hcp (u :: s)); simpl default in *;
    repeat first
      [ case_decide
      | match goal with
        | |- context [takeVirtual ?n ?i ?h] => destruct (takeVirtual n i h) as [? ?]
        | |- context [if ?b then _ else _] => destruct b
        | |- context [match ?o with Some _ => _ | None => _ end] => destruct o
        end ]; simpl fst; simpl snd; simpl length in *; lia.
Qed.

(** The visited columns increase strictly from visit to visit. *)
Lemma walkVisits_cols fuel lineChars filled tabSize it col v :
  walkVisits fuel lineChars filled tabSize it col = Some v ->
  Forall (fun x => col <= x.1) v /\ NoDup v.*1.
Proof.
  revert it col v. induction fuel as [|fuel IH]; intros it col v; simpl.
  - destruct (_cells it !! _index it); [done|]. intros [= <-].
    split; constructor.
  - destruct (_cells it !! _index it) as [c|]; [|intros [= <-]; split; constructor].
    pose proof (cellStep_cols lineChars filled tabSize
                  (mkIter (_cells it) (S (_index it))) c col) as [Hlo Hhi].
    destruct (cellStep _ _ _ _ c col) as [[[hlCol hls] col'] it'].
    simpl in Hlo, Hhi.
    destruct (walkVisits fuel lineChars filled tabSize it' (S col')) as [rest|] eqn:Hrest;
      [|done].
    intros [= <-]. apply IH in Hrest as [Hall Hnd]. split.
    + constructor; [done|]. eapply Forall_impl; [exact Hall|].
      intros x Hx. simpl in Hx. lia.
    + simpl. constructor; [|done].
      intros Hin. apply list_elem_of_fmap in Hin as [[c' h'] [-> Hin]].
      rewrite Forall_forall in Hall. specialize (Hall _ Hin). simpl in *. lia.
Qed.

End flag_facts.

Lemma storeColumn_flag_true gridRow c hls : (storeColumn gridRow c hls true).2 = true.
Proof.
  unfold storeColumn. destruct (noHighlight hls); [|done].
  by destruct (arr_get gridRow c).
Qed.

Lemma storeVisits_flag_true visits gridRow : (storeVisits visits (gridRow, true)).2 = true.
Proof.
  revert gridRow. induction visits as [|[c hls] rest IH]; intros gridRow; [done|].
  rewrite storeVisits_cons. simpl.
  pose proof (storeColumn_flag_true gridRow c hls) as Hf.
  destruct (storeColumn gridRow c hls true) as [r b]. simpl in Hf. subst b. apply IH.
Qed.

(** A walk that returns [false] has left the row as it was. *)
Lemma storeVisits_flag_false visits gridRow :
  (storeVisits visits (gridRow, false)).2 = false ->
  (storeVisits visits (gridRow, false)).1 = gridRow.
Proof.
  revert gridRow. induction visits as [|[c hls] rest IH]; intros gridRow; [done|].
  rewrite storeVisits_cons. simpl. unfold storeColumn.
  destruct (noHighlight hls).
  - destruct (arr_get gridRow c).
    + by rewrite storeVisits_flag_true.
    + apply IH.
  - by rewrite storeVisits_flag_true.
Qed.

(** The flag is raised exactly by a visit that stores a list or finds an
    entry to delete. *)
Lemma storeVisits_flag visits gridRow :
  NoDup visits.*1 ->
  (storeVisits visits (gridRow, false)).2 = true <->
  exists c hls, (c, hls) ∈ visits /\
    (noHighlight hls = false \/ is_Some (arr_get gridRow c)).
Proof.
  revert gridRow. induction visits as [|[c hls] rest IH]; intros gridRow Hnd.
  - simpl. split; [done|]. intros (c & hls & Hin & _). by apply elem_of_nil in Hin.
  - apply NoDup_cons in Hnd as [Hc Hnd]. rewrite storeVisits_cons. simpl.
    assert (Hhere : (storeColumn gridRow c hls false).2 = true <->
                    noHighlight hls = false \/ is_Some (arr_get gridRow c)).
    { unfold storeColumn. destruct (noHighlight hls).
      - destruct (arr_get gridRow c) as [old|]; simpl.
        + split; [intros _; right; by exists old | done].
        + split; [done | intros [?|[? ?]]; done].
      - simpl. split; [by left | done]. }
    assert (Hother : forall c' h', (c', h') ∈ rest ->
              arr_get (storeColumn gridRow c hls false).1 c' = arr_get gridRow c').
    { intros c' h' Hin. rewrite arr_get_storeColumn. case_decide; [|done].
      subst c'. exfalso. apply Hc. apply list_elem_of_fmap. by exists (c, h'). }
    destruct (storeColumn gridRow c hls false) as [r [|]] eqn:Hst; simpl in *.
    + rewrite storeVisits_flag_true. split; [|done]. intros _.
      exists c, hls. split; [left|]. by apply Hhere.
    + rewrite (IH r Hnd). split.
      * intros (c' & h' & Hin & Hor). exists c', h'. split; [by right|].
        by rewrite <- (Hother c' h' Hin).
      * intros (c' & h' & Hin & Hor). apply elem_of_cons in Hin as [[= -> ->]|Hin].
        -- apply Hhere in Hor. done.
        -- exists c', h'. split; [done|]. by rewrite (Hother c' h' Hin).
Qed.

(** ** Applying an event twice *)

Lemma arr_set_same {A} (a : sparse A) i v :
  arr_get a i = Some v -> arr_set a i v = a.
Proof.
  intros Hv. apply arr_ext.
  - rewrite length_arr_set. apply arr_get_Some_lt in Hv. lia.
  - intros j. rewrite arr_get_set. case_decide; by subst.
Qed.

Lemma arr_set_set {A} (a : sparse A) i v w :
  arr_set (arr_set a i v) i w = arr_set a i w.
Proof.
  apply arr_ext.
  - rewrite !length_arr_set. lia.
  - intros j. rewrite !arr_get_set. by case_decide.
Qed.

Lemma ensureRow_get (grid : Grid) r :
  exists gridRow, arr_get (ensureRow grid r) r = Some gridRow /\
                  gridRow = default [] (arr_get grid r).
Proof.
  unfold ensureRow. destruct (arr_get grid r) as [gridRow|] eqn:Hr.
  - by exists gridRow.
  - exists []. rewrite arr_get_set. by case_decide.
Qed.

Lemma ensureRow_present (grid : Grid) r gridRow :
  arr_get grid r = Some gridRow -> ensureRow grid r = grid.
Proof. intros Hr. unfold ensureRow. by rewrite Hr. Qed.

Lemma sliceTo_app_settled {A} (n : Z) (stored right : list A) :
  (0 <= n <= Z.of_nat (length stored))%Z ->
  sliceTo n (sliceTo n stored ++ right) = sliceTo n stored.
Proof.
  intros Hn. unfold sliceTo.
  destruct (0 <=? n)%Z eqn:Hpos; [|lia].
  rewrite take_app_le by (rewrite length_take; lia).
  rewrite take_take. f_equal. lia.
Qed.

Section idem_facts.
Context `{TextUtils}.

(** The previous-column region stores, at the column that
    [prevColumnCells] names, the kept entries followed by the re-derived
    ones. *)
Lemma rederivePrevColumn_cells lineChars tabSize vimCol editorCol it gridRow :
  rederivePrevColumn lineChars tabSize vimCol editorCol it gridRow =
  match prevColumnCells lineChars tabSize vimCol editorCol it with
  | None => (gridRow, it)
  | Some (prevCol, expectedCells, rightHls, it') =>
      let n := (expectedCells - Z.of_nat (length rightHls))%Z in
      (arr_set gridRow prevCol
         ((if decide (n = 0)%Z then []
           else sliceTo n (default [] (arr_get gridRow prevCol))) ++ rightHls),
       it')
  end.
Proof.
  unfold rederivePrevColumn, prevColumnCells.
  repeat first
    [ case_decide
    | match goal with
      | |- context [takeVirtual ?n ?i ?h] => destruct (takeVirtual n i h) as [? ?]
      | |- context [if gtNaN ?x ?y then _ else _] => destruct (gtNaN x y)
      | |- context [if (?x <? ?y)%Z then _ else _] => destruct (x <? y)%Z
      end ]; simpl; try done; try lia.
Qed.

Lemma prevColumnCells_lt lineChars tabSize vimCol editorCol it p e right it' :
  prevColumnCells lineChars tabSize vimCol editorCol it = Some (p, e, right, it') ->
  p < editorCol.
Proof.
  unfold prevColumnCells.
  repeat first
    [ case_decide
    | match goal with
      | |- context [takeVirtual ?n ?i ?h] => destruct (takeVirtual n i h) as [? ?]
      | |- context [if gtNaN ?x ?y then _ else _] => destruct (gtNaN x y)
      | |- context [if (?x <? ?y)%Z then _ else _] => destruct (x <? y)%Z
      end ]; intros [= <- <- <- <-] || done; lia.
Qed.

End idem_facts.

Lemma lastVisit_below visits col p :
  Forall (fun x => col <= x.1) visits -> p < col -> lastVisit visits p = None.
Proof.
  intros Hall Hp. induction Hall as [|[c hls] rest Hc _ IH]; [done|].
  simpl in *. rewrite IH. case_decide; [lia|done].
Qed.

(** Re-deriving a settled previous column after the walk stores what is
    stored already. *)
Lemma kept_again (gridRow : GridRow) p (n : Z) (right : list Highlight) visits :
  lastVisit visits p = None ->
  (0 <= n <= Z.of_nat (length (default [] (arr_get gridRow p))))%Z ->
  arr_set
    (storeVisits visits
       (arr_set gridRow p
          ((if decide (n = 0)%Z then []
            else sliceTo n (default [] (arr_get gridRow p))) ++ right), false)).1
    p
    ((if decide (n = 0)%Z then []
      else sliceTo n
             (default []
                (arr_get
                   (storeVisits visits
                      (arr_set gridRow p
                         ((if decide (n = 0)%Z then []
                           else sliceTo n (default [] (arr_get gridRow p))) ++ right),
                       false)).1 p))) ++ right)
  = (storeVisits visits
       (arr_set gridRow p
          ((if decide (n = 0)%Z then []
            else sliceTo n (default [] (arr_get gridRow p))) ++ right), false)).1.
Proof.
  intros Hlast Hn.
  destruct (decide (n = 0)%Z) as [Hz|Hne].
  - apply arr_set_same.
    rewrite arr_get_storeVisits, Hlast. simpl. rewrite arr_get_set.
    by rewrite decide_True.
  - set (row1 := (storeVisits visits _).1).
    assert (Hp : arr_get row1 p
                 = Some (sliceTo n (default [] (arr_get gridRow p)) ++ right)).
    { unfold row1. rewrite arr_get_storeVisits, Hlast. simpl. rewrite arr_get_set.
      by rewrite decide_True. }
    apply arr_set_same. rewrite Hp. simpl.
    by rewrite sliceTo_app_settled.
Qed.

Section idem_row.
Context `{TextUtils}.

Lemma beforeWalk_eq grid ev :
  beforeWalk grid ev =
  let gridRow := default [] (arr_get grid (row ev)) in
  match eventPrevColumnCells ev with
  | None => (gridRow, mkIter (validCells ev) 0)
  | Some (prevCol, expectedCells, rightHls, it') =>
      let n := (expectedCells - Z.of_nat (length rightHls))%Z in
      (arr_set gridRow prevCol
         ((if decide (n = 0)%Z then []
           else sliceTo n (default [] (arr_get gridRow prevCol))) ++ rightHls),
       it')
  end.
Proof.
  unfold beforeWalk, eventPrevColumnCells.
  rewrite rederivePrevColumn_cells.
  destruct (ensureRow_get grid (row ev)) as (gridRow & -> & ->). done.
Qed.

(** The iterator with which the cell walk starts depends on the event only. *)
Lemma beforeWalk_iter grid grid' ev : (beforeWalk grid ev).2 = (beforeWalk grid' ev).2.
Proof.
  rewrite !beforeWalk_eq. simpl.
  by destruct (eventPrevColumnCells ev) as [[[[p e] right] it']|].
Qed.

Lemma eventVisits_grid grid grid' ev : eventVisits grid ev = eventVisits grid' ev.
Proof. unfold eventVisits. by rewrite (beforeWalk_iter grid grid'). Qed.

(** On a grid whose row is the outcome of the event, with the previous
    column settled beforehand, the previous-column region changes nothing. *)
Lemma beforeWalk_again grid grid1 ev visits :
  eventVisits grid ev = Some visits ->
  prevColumnSettled grid ev = true ->
  arr_get grid1 (row ev) = Some (storeVisits visits ((beforeWalk grid ev).1, false)).1 ->
  (beforeWalk grid1 ev).1 = (storeVisits visits ((beforeWalk grid ev).1, false)).1.
Proof.
  intros Hv Hs Hrow.
  unfold eventVisits in Hv. apply walkVisits_cols in Hv as [Hcols _].
  unfold prevColumnSettled in Hs.
  rewrite (beforeWalk_eq grid1), Hrow. simpl.
  rewrite (beforeWalk_eq grid) in *. simpl in *.
  destruct (eventPrevColumnCells ev) as [[[[p e] right] it']|] eqn:Hcells; [|done].
  simpl in *.
  apply prevColumnCells_lt in Hcells.
  pose proof (lastVisit_below _ _ _ Hcols Hcells) as Hlast.
  apply andb_prop in Hs as [Hs1 Hs2].
  apply kept_again; [done|lia].
Qed.

End idem_row.

(** The second application of an event on a settled previous column: the
    grid stays as the first application left it, and the flag is that of
    the walk on the row it left. *)
Lemma processHighlightCellsEvent_again `{TextUtils}
    (grid grid1 : Grid) (ev : HighlightCellsEvent) (b1 : bool) visits :
  processHighlightCellsEvent grid ev = Some (grid1, b1) ->
  prevColumnSettled grid ev = true ->
  eventVisits grid ev = Some visits ->
  processHighlightCellsEvent grid1 ev
  = Some (grid1,
          (storeVisits visits
             ((storeVisits visits ((beforeWalk grid ev).1, false)).1, false)).2) /\
  arr_get grid1 (row ev) = Some (storeVisits visits ((beforeWalk grid ev).1, false)).1.
Proof.
  intros Hp Hs Hv.
  rewrite processHighlightCellsEvent_visits, Hv in Hp.
  simpl in Hp. injection Hp as <- <-.
  set (row1 := (storeVisits visits ((beforeWalk grid ev).1, false)).1).
  set (grid1 := arr_set (ensureRow grid (row ev)) (row ev) row1).
  assert (Hrow : arr_get grid1 (row ev) = Some row1).
  { unfold grid1. rewrite arr_get_set. by rewrite decide_True. }
  split; [|done].
  rewrite processHighlightCellsEvent_visits.
  rewrite (eventVisits_grid grid1 grid), Hv. simpl.
  rewrite (beforeWalk_again grid grid1 ev visits Hv Hs Hrow). fold row1.
  rewrite (ensureRow_present grid1 _ _ Hrow).
  f_equal. f_equal.
  unfold row1 at 1. rewrite storeVisits_twice. fold row1.
  by apply arr_set_same.
Qed.

(** Whatever the text utilities: an event that stores a list at some column
    returns [true] when it is applied a second time, although the second
    application changes nothing. *)
Lemma restore_returns_true `{TextUtils}
    (grid grid1 : Grid) (ev : HighlightCellsEvent) (b1 : bool) visits c hls :
  processHighlightCellsEvent grid ev = Some (grid1, b1) ->
  prevColumnSettled grid ev = true ->
  eventVisits grid ev = Some visits ->
  (c, hls) ∈ visits -> noHighlight hls = false ->
  processHighlightCellsEvent grid1 ev = Some (grid1, true).
Proof.
  intros Hp Hs Hv Hin Hno.
  destruct (processHighlightCellsEvent_again grid grid1 ev b1 visits Hp Hs Hv)
    as [-> _].
  f_equal. f_equal. apply storeVisits_flag.
  - unfold eventVisits in Hv. by apply walkVisits_cols in Hv as [_ Hnd].
  - exists c, hls. split; [done|by left].
Qed.

(** Whatever the text utilities: when the previous-column region runs, the
    list it composes is what the column holds after the event, be it empty
    or all id 0. *)
Lemma rederived_column_is_stored `{TextUtils}
    (grid grid' : Grid) (ev : HighlightCellsEvent) (b : bool) p e right it' :
  processHighlightCellsEvent grid ev = Some (grid', b) ->
  eventPrevColumnCells ev = Some (p, e, right, it') ->
  exists gridRow',
    arr_get grid' (row ev) = Some gridRow' /\
    arr_get gridRow' p
    = Some ((if decide (e - Z.of_nat (length right) = 0)%Z then []
             else sliceTo (e - Z.of_nat (length right))
                    (default [] (arr_get (default [] (arr_get grid (row ev))) p)))
            ++ right).
Proof.
  intros Hp Hcells.
  destruct (eventVisits_is_Some grid ev) as [v Hv].
  rewrite processHighlightCellsEvent_visits, Hv in Hp.
  simpl in Hp. injection Hp as <- <-.
  eexists. split; [rewrite arr_get_set; by rewrite decide_True|].
  unfold eventVisits in Hv. apply walkVisits_cols in Hv as [Hcols _].
  pose proof Hcells as Hlt. apply prevColumnCells_lt in Hlt.
  rewrite arr_get_storeVisits, (lastVisit_below _ _ _ Hcols Hlt). simpl.
  rewrite beforeWalk_eq, Hcells. simpl.
  rewrite arr_get_set. by rewrite decide_True.
Qed.

(** ** The stored columns before the cell walk *)

Lemma ensureRow_get_other (grid : Grid) r r' :
  r' <> r -> arr_get (ensureRow grid r) r' = arr_get grid r'.
Proof.
  intros Hne. unfold ensureRow. destruct (arr_get grid r); [done|].
  rewrite arr_get_set. by rewrite decide_False.
Qed.

Lemma storedColumn_default (grid : Grid) r c :
  storedColumn grid r c = arr_get (default [] (arr_get grid r)) c.
Proof. unfold storedColumn. by destruct (arr_get grid r). Qed.

Section stored_facts.
Context `{TextUtils}.

Lemma prevColumnCells_prev lineChars tabSize vimCol editorCol it p e right it' :
  prevColumnCells lineChars tabSize vimCol editorCol it = Some (p, e, right, it') ->
  S p = editorCol.
Proof.
  unfold prevColumnCells. case_decide; [|done].
  destruct (gtNaN _ 1); [|done]. destruct (_ <? _)%Z; [|done].
  destruct (takeVirtual _ it []) as [r i]. intros [= <- _ _ _]. lia.
Qed.

(** The previous-column region writes the column before the start column
    only. *)
Lemma beforeWalk_get grid ev c :
  S c <> calculateEditorColFromVimScreenCol (lineText ev) (vimCol ev) (tabSize ev) ->
  arr_get (beforeWalk grid ev).1 c = storedColumn grid (row ev) c.
Proof.
  intros Hc. rewrite beforeWalk_eq, storedColumn_default. simpl.
  destruct (eventPrevColumnCells ev) as [[[[p e] right] it']|] eqn:Hprev; [|done].
  apply prevColumnCells_prev in Hprev. simpl.
  rewrite arr_get_set. by rewrite decide_False by lia.
Qed.

(** The columns that the walk visits hold, when the walk starts, what the
    grid stored. *)
Lemma eventVisits_get grid ev visits c hls :
  eventVisits grid ev = Some visits -> (c, hls) ∈ visits ->
  arr_get (beforeWalk grid ev).1 c = storedColumn grid (row ev) c.
Proof.
  intros Hv Hin. unfold eventVisits in Hv. apply walkVisits_cols in Hv as [Hcols _].
  rewrite Forall_forall in Hcols. specialize (Hcols _ Hin). simpl in Hcols.
  apply beforeWalk_get. lia.
Qed.

End stored_facts.

(** ** Where the stored-column invariant is kept *)

Lemma storeColumn_invariant gridRow c hls b :
  rowInvariant gridRow -> rowInvariant (storeColumn gridRow c hls b).1.
Proof.
  intros Hinv j stored. rewrite arr_get_storeColumn.
  destruct (decide (j = c)) as [->|Hne]; [|apply Hinv].
  destruct (noHighlight hls) eqn:Hno; [done|]. by intros [= <-].
Qed.

Lemma storeVisits_invariant visits st :
  rowInvariant st.1 -> rowInvariant (storeVisits visits st).1.
Proof.
  revert st. induction visits as [|[c hls] rest IH]; intros st Hinv; [done|].
  rewrite storeVisits_cons. apply IH. by apply storeColumn_invariant.
Qed.

Lemma rowsFrom_delete {A} (grid g : sparse A) i : rowsFrom grid g -> rowsFrom grid (arr_delete g i).
Proof.
  intros Hg j r. rewrite arr_get_delete. case_decide; [done|apply Hg].
Qed.

Lemma rowsFrom_deleteAt {A} (grid g : sparse A) i : rowsFrom grid g -> rowsFrom grid (deleteAt g i).
Proof.
  intros Hg. unfold deleteAt. destruct (0 <=? i)%Z; [by apply rowsFrom_delete|done].
Qed.

Lemma rowsFrom_moveRow {A} (grid g : sparse A) idx target :
  rowsFrom grid g -> rowsFrom grid (moveRow g idx target).
Proof.
  intros Hg. unfold moveRow. apply rowsFrom_delete.
  destruct (arr_get g idx) as [r|] eqn:Hr.
  - destruct (0 <=? target)%Z; [|done].
    intros j r'. rewrite arr_get_set. case_decide; [|apply Hg].
    intros [= <-]. by apply (Hg idx).
  - by apply rowsFrom_deleteAt.
Qed.

Lemma rowsFrom_foldl {A B} (grid : sparse A) (f : sparse A -> B -> sparse A) (l : list B) g :
  (forall g x, rowsFrom grid g -> rowsFrom grid (f g x)) ->
  rowsFrom grid g -> rowsFrom grid (foldl f g l).
Proof.
  intros Hf. revert g. induction l as [|x l IH]; intros g Hg; [done|].
  simpl. apply IH. by apply Hf.
Qed.

(** A shift only deletes and moves rows. *)
Lemma shiftHighlights_rowsFrom {A} (grid : sparse A) by_ from :
  rowsFrom grid (shiftHighlights grid by_ from).
Proof.
  assert (Hrefl : rowsFrom grid grid) by (intros j r Hr; by exists j).
  unfold shiftHighlights. destruct (0 <? by_)%Z; [|destruct (by_ <? 0)%Z; [|done]].
  - apply rowsFrom_foldl.
    + intros g idx Hg. case_decide; [done|]. by apply rowsFrom_moveRow.
    + apply rowsFrom_foldl; [|done]. intros g i Hg. by apply rowsFrom_delete.
  - apply rowsFrom_foldl.
    + intros g idx Hg. case_decide; [done|]. by apply rowsFrom_moveRow.
    + apply rowsFrom_foldl; [|done]. intros g i Hg. by apply rowsFrom_deleteAt.
Qed.

Lemma shiftHighlights_invariant (grid : Grid) by_ from :
  gridInvariant grid -> gridInvariant (shiftHighlights grid by_ from).
Proof.
  intros Hinv j r Hr.
  destruct (shiftHighlights_rowsFrom grid by_ from j r Hr) as [i Hi]. by apply (Hinv i).
Qed.

Lemma cleanRow_invariant grid r : gridInvariant grid -> gridInvariant (cleanRow grid r).
Proof.
  intros Hinv j gridRow. unfold cleanRow. rewrite arr_get_delete.
  case_decide; [done|apply Hinv].
Qed.

(** The cell walk keeps the invariant: an event whose start column does not
    fall inside a multi-cell column leaves a grid in which no stored column
    is empty or all id 0. *)
Lemma processHighlightCellsEvent_invariant `{TextUtils} grid ev grid' b :
  gridInvariant grid ->
  eventPrevColumnCells ev = None ->
  processHighlightCellsEvent grid ev = Some (grid', b) ->
  gridInvariant grid'.
Proof.
  intros Hinv Hnone. rewrite processHighlightCellsEvent_visits.
  destruct (eventVisits grid ev) as [v|]; [|done]. simpl. intros [= <- <-].
  intros j gridRow. rewrite arr_get_set. case_decide as Hj.
  - intros [= <-]. apply storeVisits_invariant. simpl.
    rewrite beforeWalk_eq, Hnone. simpl.
    destruct (arr_get grid (row ev)) as [r|] eqn:Hr; simpl.
    + by apply (Hinv (row ev)).
    + intros c hls. unfold arr_get. by rewrite lookup_nil.
  - unfold ensureRow. destruct (arr_get grid (row ev)); [apply Hinv|].
    rewrite arr_get_set. case_decide; [done|apply Hinv].
Qed.

(** ** Shifting rows up *)

Lemma foldl_delete_range {A} (a : sparse A) from n :
  length (foldl (fun g i => arr_delete g (from + i)) a (seq 0 n)) = length a /\
  forall j,
    arr_get (foldl (fun g i => arr_delete g (from + i)) a (seq 0 n)) j =
    if decide (from <= j < from + n) then None else arr_get a j.
Proof.
  induction n as [|n [IHl IHg]].
  - simpl. split; [done|]. intros j. case_decide; [lia|done].
  - rewrite seq_S, foldl_app. simpl. split.
    + by rewrite length_arr_delete.
    + intros j. rewrite arr_get_delete, IHg.
      repeat case_decide; try done; lia.
Qed.

Section shift_up.
Context {A : Type}.
Variables (g1 : sparse A) (from b : nat).
Hypothesis Hb : 0 < b.
Hypothesis Hdel : forall j, from <= j < from + b -> arr_get g1 j = None.

Lemma shiftedUpTo_skip K h :
  arr_get g1 K = None \/ K <= from ->
  shiftedUpTo g1 from b K h -> shiftedUpTo g1 from b (S K) h.
Proof using Hb Hdel.
  intros HK [Hlen Hget]. split; [done|]. intros j. rewrite Hget.
  destruct (decide (j < from)); [done|].
  destruct (decide (j + b < K)); [by rewrite decide_True by lia|].
  destruct (decide (j + b < S K)) as [Hjb|Hjb].
  - assert (j + b = K) as <- by lia.
    destruct HK as [HK|HK]; [|lia].
    rewrite HK. by rewrite decide_True by lia.
  - destruct (decide (j < K)); [by rewrite decide_True by lia|].
    destruct (decide (j < S K)); [|done].
    assert (j = K) as -> by lia.
    destruct HK as [HK|HK]; [done|].
    apply Hdel. lia.
Qed.

Lemma shiftedUpTo_move K h r :
  arr_get g1 K = Some r -> from < K ->
  shiftedUpTo g1 from b K h -> shiftedUpTo g1 from b (S K) (moveUp from b h K).
Proof using Hb Hdel.
  intros HK Hfrom [Hlen Hget].
  assert (HKb : from + b <= K).
  { destruct (decide (from + b <= K)); [done|].
    rewrite Hdel in HK by lia. done. }
  assert (HhK : arr_get h K = Some r).
  { rewrite Hget. rewrite decide_False by lia. rewrite decide_False by lia.
    by rewrite decide_False by lia. }
  unfold moveUp, moveRow. rewrite decide_False by lia. rewrite HhK.
  replace (0 <=? Z.of_nat K - Z.of_nat b)%Z with true by lia.
  replace (Z.to_nat (Z.of_nat K - Z.of_nat b)) with (K - b) by lia.
  split.
  - rewrite length_arr_delete, length_arr_set.
    apply arr_get_Some_lt in HhK. lia.
  - intros j. rewrite arr_get_delete, arr_get_set, Hget.
    destruct (decide (j = K)) as [->|HjK].
    { rewrite decide_False by lia. rewrite decide_False by lia.
      by rewrite decide_True by lia. }
    destruct (decide (j = K - b)) as [->|Hjb].
    { rewrite decide_False by lia. rewrite decide_True by lia.
      by replace (K - b + b) with K by lia. }
    destruct (decide (j < from)); [done|].
    destruct (decide (j + b < K)); [by rewrite decide_True by lia|].
    rewrite (decide_False (P := j + b < S K)) by lia.
    destruct (decide (j < K)); [by rewrite decide_True by lia|].
    by rewrite decide_False by lia.
Qed.

Lemma shiftedUpTo_loop (suffix : sparse A) K h :
  (forall i, arr_get suffix i = arr_get g1 (K + i)) ->
  shiftedUpTo g1 from b K h ->
  shiftedUpTo g1 from b (K + length suffix) (foldl (moveUp from b) h (entries_from K suffix).*1).
Proof using Hb Hdel.
  revert K h. induction suffix as [|x suffix IH]; intros K h Hsuf Hinv.
  - simpl. by replace (K + 0) with K by lia.
  - assert (Hx : x = arr_get g1 K).
    { specialize (Hsuf 0). by replace (K + 0) with K in Hsuf by lia. }
    assert (Hsuf' : forall i, arr_get suffix i = arr_get g1 (S K + i)).
    { intros i. specialize (Hsuf (S i)). by replace (K + S i) with (S K + i) in Hsuf by lia. }
    replace (K + length (x :: suffix)) with (S K + length suffix) by (simpl; lia).
    destruct x as [r|]; simpl.
    + apply IH; [done|]. destruct (decide (K <= from)) as [Hle|Hgt].
      * unfold moveUp. rewrite decide_True by done.
        apply shiftedUpTo_skip; [by right|done].
      * apply (shiftedUpTo_move K h r); [done|lia|done].
    + apply IH; [done|]. apply shiftedUpTo_skip; [by left|done].
Qed.

End shift_up.

(** The positive branch of [shiftHighlights]: the rows below [from] stay,
    and index [j >= from] holds what index [j + by] held. *)
Lemma shiftHighlights_up {A} (grid : sparse A) by_ from :
  (0 < by_)%Z ->
  length (shiftHighlights grid by_ from) = length grid /\
  forall j,
    arr_get (shiftHighlights grid by_ from) j =
    if decide (j < from) then arr_get grid j else arr_get grid (j + Z.to_nat by_).
Proof.
  intros Hpos. unfold shiftHighlights.
  replace (0 <? by_)%Z with true by lia.
  destruct (foldl_delete_range grid from (Z.to_nat by_)) as [Hlen Hget].
  set (g1 := foldl _ grid (seq 0 (Z.to_nat by_))) in *.
  assert (Hdel : forall j, from <= j < from + Z.to_nat by_ -> arr_get g1 j = None).
  { intros j Hj. rewrite Hget. by rewrite decide_True. }
  assert (Hinit : shiftedUpTo g1 from (Z.to_nat by_) 0 g1).
  { split; [done|]. intros j. destruct (decide (j < from)); [done|].
    rewrite decide_False by lia. by rewrite decide_False by lia. }
  destruct (shiftedUpTo_loop g1 from (Z.to_nat by_) ltac:(lia) Hdel g1 0 g1
              ltac:(done) Hinit) as [Hl Hg].
  unfold moveUp in Hl, Hg.
  replace (Z.of_nat (Z.to_nat by_)) with by_ in Hl, Hg by lia.
  unfold rowIndices, arr_entries. split; [by rewrite Hl|].
  intros j. rewrite Hg. simpl.
  destruct (decide (j < from)) as [Hj|Hj].
  - rewrite Hget. by rewrite decide_False by lia.
  - destruct (decide (j + Z.to_nat by_ < length g1)).
    + rewrite Hget. by rewrite decide_False by lia.
    + rewrite (arr_get_ge grid) by lia.
      destruct (decide (j < length g1)); [done|]. apply arr_get_ge. lia.
Qed.

(** ** The range builder on one row *)

Lemma normalRangesOfLine_app line (l1 l2 : list HighlightRange) :
  normalRangesOfLine line (l1 ++ l2)
  = normalRangesOfLine line l1 ++ normalRangesOfLine line l2.
Proof. apply filter_app. Qed.

Lemma runStartsBelow_S gridRow K :
  runStartsBelow gridRow (S K)
  = runStartsBelow gridRow K + (if runStart gridRow K then 1 else 0).
Proof.
  unfold runStartsBelow. rewrite seq_S, filter_app, length_app. simpl.
  f_equal. rewrite filter_cons, filter_nil.
  destruct (runStart gridRow K); by case_decide.
Qed.

(** Whatever a column adds to the result lies on the line of its row. *)
Lemma visitColumn_res line st col hls st' :
  visitColumn line st col hls = Some st' ->
  exists new, res st' = res st ++ new /\ Forall (fun r => rangeLine r = line) new.
Proof.
  unfold visitColumn, flushNormal. destruct hls as [|h rest]; [done|].
  repeat match goal with
         | |- context [if ?b then _ else _] => destruct b
         end; intros [= <-]; simpl.
  - eexists. split; [done|]. by repeat constructor.
  - exists []. by rewrite app_nil_r.
  - destruct (currHighlight st).
    + eexists. split; [done|]. by repeat constructor.
    + exists []. by rewrite app_nil_r.
Qed.

Lemma forEachM_visitColumn_res line entries st st' :
  forEachM (visitColumn line) st entries = Some st' ->
  exists new, res st' = res st ++ new /\ Forall (fun r => rangeLine r = line) new.
Proof.
  revert st. induction entries as [|[col hls] entries IH]; intros st; simpl.
  - intros [= <-]. exists []. by rewrite app_nil_r.
  - destruct (visitColumn line st col hls) as [st1|] eqn:Hv; [|done]. simpl.
    intros Hrest. apply visitColumn_res in Hv as (new1 & Hres1 & Hline1).
    apply IH in Hrest as (new2 & Hres2 & Hline2).
    exists (new1 ++ new2). rewrite Hres2, Hres1, app_assoc. split; [done|].
    by apply Forall_app.
Qed.

Lemma visitRow_res topLine acc r gridRow out :
  visitRow topLine acc r gridRow = Some out ->
  exists new, out = acc ++ new /\
    Forall (fun x => rangeLine x = (Z.of_nat r + topLine)%Z) new.
Proof.
  unfold visitRow.
  destruct (forEachM _ _ _) as [st|] eqn:Hst; [|done]. simpl. intros [= <-].
  apply forEachM_visitColumn_res in Hst as (new & Hres & Hline). simpl in Hres.
  unfold flushNormal. destruct (currHighlight st).
  - exists (new ++ [NormalRange (hlId (cell h)) (Z.of_nat r + topLine)
                      (currStartCol st) (S (currEndCol st))]).
    rewrite Hres, app_assoc. split; [done|].
    apply Forall_app. split; [done|]. by repeat constructor.
  - by exists new.
Qed.

(** A row without an empty column list is walked without an exception. *)
Lemma forEachM_visitColumn_total line (suffix : GridRow) K st :
  (forall i, arr_get suffix i <> Some []) ->
  is_Some (forEachM (visitColumn line) st (entries_from K suffix)).
Proof.
  revert K st. induction suffix as [|x suffix IH]; intros K st Hne; [done|].
  assert (Hne' : forall i, arr_get suffix i <> Some []) by (intros i; apply (Hne (S i))).
  destruct x as [hls|]; simpl; [|by apply IH].
  destruct hls as [|h rest]; [by specialize (Hne 0)|].
  unfold visitColumn. simpl.
  repeat match goal with
         | |- context [if ?b then _ else _] => destruct b
         end; simpl; by apply IH.
Qed.

Lemma visitRow_total topLine acc r (gridRow : GridRow) :
  (forall c, arr_get gridRow c <> Some []) ->
  is_Some (visitRow topLine acc r gridRow).
Proof.
  intros Hne. unfold visitRow, arr_entries.
  destruct (forEachM_visitColumn_total (Z.of_nat r + topLine)%Z gridRow 0
              (mkBuild acc None 0 0) Hne) as [st ->]. done.
Qed.

Section row_runs.
Variables (line : Z) (acc : list HighlightRange) (gridRow : GridRow).
Hypothesis Hsingle : forall c hls, arr_get gridRow c = Some hls -> singleReal hls.

Lemma rowWalked_hole K st :
  arr_get gridRow K = None ->
  rowWalked line acc gridRow K st -> rowWalked line acc gridRow (S K) st.
Proof.
  intros HK [Hcount Hcurr]. split.
  - rewrite runStartsBelow_S. unfold runStart. rewrite HK. lia.
  - destruct (currHighlight st) as [h0|].
    + destruct Hcurr as (h' & Hlt & Hend & Hid & Hgap).
      exists h'. repeat split; [lia|done|done|].
      intros c Hc. destruct (decide (c = K)) as [->|]; [done|]. apply Hgap. lia.
    + intros c Hc. destruct (decide (c = K)) as [->|]; [done|]. apply Hcurr. lia.
Qed.

Lemma rowWalked_column K st h :
  arr_get gridRow K = Some [h] -> virtText h = None ->
  rowWalked line acc gridRow K st ->
  exists st', visitColumn line st K [h] = Some st' /\
              rowWalked line acc gridRow (S K) st'.
Proof using Hsingle.
  intros HK Hvirt [Hcount Hcurr].
  unfold visitColumn. rewrite Hvirt. simpl.
  destruct (currHighlight st) as [h0|] eqn:Hh0; simpl.
  - destruct Hcurr as (h' & Hlt & Hend & Hid & Hgap).
    destruct (bool_decide (Some (hlId (cell h0)) = Some (hlId (cell h)))
              && (Z.of_nat (currEndCol st) =? Z.of_nat K - 1)%Z) eqn:Hext.
    + (* the column extends the open range *)
      apply andb_prop in Hext as [Hsame Hadj].
      apply bool_decide_eq_true in Hsame. injection Hsame as Hsame.
      assert (HK1 : K = S (currEndCol st)) by lia.
      eexists. split; [done|]. split; simpl.
      * rewrite ?Hh0, runStartsBelow_S. unfold runStart. rewrite HK. subst K.
        rewrite Hend.
        replace (hlId (cell h') =? hlId (cell h))%Z with true by lia. simpl. lia.
      * rewrite ?Hh0. exists h. repeat split; [lia|done|congruence|]. intros c Hc. lia.
    + (* the open range is emitted and a new one starts *)
      eexists. split; [done|]. split; simpl.
      * unfold flushNormal. rewrite ?Hh0, normalRangesOfLine_app, length_app.
        unfold normalRangesOfLine at 2. rewrite filter_cons, filter_nil.
        rewrite decide_True by done. simpl.
        rewrite runStartsBelow_S.
        assert (Hstart : runStart gridRow K = true).
        { unfold runStart. rewrite HK. destruct K as [|p]; [done|].
          destruct (decide (p = currEndCol st)) as [->|Hp].
          - rewrite Hend. apply andb_false_iff in Hext as [Hne|Hne];
              [|apply Z.eqb_neq in Hne; lia].
            apply bool_decide_eq_false in Hne.
            destruct (hlId (cell h') =? hlId (cell h))%Z eqn:Heq; [|done].
            exfalso. apply Hne. f_equal. lia.
          - rewrite Hgap by lia. done. }
        rewrite Hstart. lia.
      * exists h. repeat split; [lia|done|]. intros c Hc. lia.
  - (* no range is open: the column starts the first one *)
    eexists. split; [done|]. split; simpl.
    + unfold flushNormal. rewrite ?Hh0, runStartsBelow_S.
      assert (Hstart : runStart gridRow K = true).
      { unfold runStart. rewrite HK. destruct K as [|p]; [done|].
        rewrite Hcurr by lia. done. }
      rewrite Hstart. lia.
    + exists h. repeat split; [lia|done|]. intros c Hc. lia.
Qed.

Lemma rowWalked_loop (suffix : GridRow) K st :
  (forall i, arr_get suffix i = arr_get gridRow (K + i)) ->
  rowWalked line acc gridRow K st ->
  exists st', forEachM (visitColumn line) st (entries_from K suffix) = Some st' /\
              rowWalked line acc gridRow (K + length suffix) st'.
Proof using Hsingle.
  revert K st. induction suffix as [|x suffix IH]; intros K st Hsuf Hinv.
  - exists st. split; [done|]. by replace (K + length []) with K by (simpl; lia).
  - assert (Hx : x = arr_get gridRow K).
    { specialize (Hsuf 0). by replace (K + 0) with K in Hsuf by lia. }
    assert (Hsuf' : forall i, arr_get suffix i = arr_get gridRow (S K + i)).
    { intros i. specialize (Hsuf (S i)).
      by replace (K + S i) with (S K + i) in Hsuf by lia. }
    replace (K + length (x :: suffix)) with (S K + length suffix) by (simpl; lia).
    destruct x as [hls|]; simpl.
    + destruct (Hsingle K hls (eq_sym Hx)) as (h & -> & Hvirt).
      destruct (rowWalked_column K st h (eq_sym Hx) Hvirt Hinv) as (st1 & -> & Hinv1).
      simpl. by apply IH.
    + apply IH; [done|]. by apply rowWalked_hole.
Qed.

(** On a row of single real entries the walk emits as many normal ranges
    as the row has maximal runs. *)
Lemma visitRow_runs topLine r :
  line = (Z.of_nat r + topLine)%Z ->
  exists out, visitRow topLine acc r gridRow = Some out /\
    length (normalRangesOfLine line out)
    = length (normalRangesOfLine line acc) + maximalRuns gridRow.
Proof using Hsingle.
  intros Hline. unfold visitRow, arr_entries. rewrite <- Hline.
  assert (Hinit : rowWalked line acc gridRow 0 (mkBuild acc None 0 0)).
  { split; simpl; [unfold runStartsBelow; simpl; lia|]. intros c Hc. lia. }
  destruct (rowWalked_loop gridRow 0 _ ltac:(done) Hinit) as (st & -> & [Hcount Hcurr]).
  simpl in *. eexists. split; [done|].
  unfold maximalRuns, flushNormal. destruct (currHighlight st).
  - rewrite normalRangesOfLine_app, length_app.
    unfold normalRangesOfLine at 2. rewrite filter_cons, filter_nil.
    rewrite decide_True by done. simpl. lia.
  - lia.
Qed.

End row_runs.

(** ** Maps *)

Section map_facts.
Context {K V : Type} `{EqDecision K}.

Lemma map_get_set (m : jsmap K V) k v k' :
  map_get (map_set m k v) k' = if decide (k = k') then Some v else map_get m k'.
Proof.
  induction m as [|[k0 v0] m IH]; simpl.
  - by case_decide.
  - destruct (decide (k0 = k)) as [->|Hne]; simpl.
    + by destruct (decide (k = k')).
    + destruct (decide (k0 = k')) as [->|Hne'].
      * by rewrite decide_False by done.
      * exact IH.
Qed.

Lemma map_get_elem_of (m : jsmap K V) k v : map_get m k = Some v -> (k, v) ∈ m.
Proof.
  induction m as [|[k0 v0] m IH]; simpl; [done|].
  destruct (decide (k0 = k)) as [->|Hne].
  - intros [= ->]. by left.
  - intros Hm. right. by apply IH.
Qed.

Lemma map_get_keys (m : jsmap K V) k : k ∈ map_keys m <-> is_Some (map_get m k).
Proof.
  unfold map_keys. induction m as [|[k0 v0] m IH]; simpl.
  - rewrite elem_of_nil. split; [done|]. by intros [? ?].
  - rewrite elem_of_cons, IH. destruct (decide (k0 = k)) as [->|Hne].
    + split; [by eexists|by left].
    + split; [by intros [?|?]|by right].
Qed.

(** [set] adds one entry and drops at most the one it replaces. *)
Lemma elem_of_map_set (m : jsmap K V) k v k' v' :
  (k', v') ∈ map_set m k v -> (k', v') ∈ m \/ (k' = k /\ v' = v).
Proof.
  induction m as [|[k0 v0] m IH]; simpl.
  - rewrite list_elem_of_singleton. intros [= -> ->]. by right.
  - destruct (decide (k0 = k)) as [->|Hne].
    + rewrite !elem_of_cons. intros [[= -> ->]|?]; [by right|left; by right].
    + rewrite !elem_of_cons. intros [?|Hin]; [left; by left|].
      destruct (IH Hin) as [?|?]; [left; by right|by right].
Qed.

End map_facts.

(** ** The refresh of the decorations *)

Section refresh_facts.
Context {Decorator Style : Type} `{EqDecision Decorator}.
Implicit Types (m computed : jsmap Decorator (list (CellGrid.DecorationOptions (Style := Style)))).

Lemma merge_keys computed m d :
  d ∈ map_keys (foldl (fun m '(decorator, opts) => CellGrid.pushDecorations m decorator opts)
                      m computed)
  <-> d ∈ map_keys m \/ d ∈ map_keys computed.
Proof.
  revert m. induction computed as [|[d0 opts0] computed IH]; intros m; simpl.
  - split; [by left|]. intros [?|Hin]; [done|]. by apply elem_of_nil in Hin.
  - rewrite IH. unfold CellGrid.pushDecorations.
    rewrite !map_get_keys, map_get_set. simpl.
    rewrite elem_of_cons, map_get_keys.
    destruct (decide (d0 = d)) as [->|Hne].
    + split; [intros _; right; by left|intros _; left; by eexists].
    + split; [intros [?|?]; [by left|right; by right]|].
      intros [?|[?|?]]; [by left|congruence|by right].
Qed.

Lemma merge_empty computed m d :
  (forall opts, (d, opts) ∈ computed -> opts = []) ->
  (forall v, map_get m d = Some v -> v = []) ->
  forall v,
    map_get (foldl (fun m '(decorator, opts) => CellGrid.pushDecorations m decorator opts)
                   m computed) d = Some v ->
    v = [].
Proof.
  revert m. induction computed as [|[d0 opts0] computed IH]; intros m Hcomp Hm; simpl.
  - exact Hm.
  - apply IH.
    + intros opts Hin. apply Hcomp. by right.
    + intros v. unfold CellGrid.pushDecorations. rewrite map_get_set.
      destruct (decide (d0 = d)) as [->|Hne]; [|apply Hm].
      intros [= <-]. rewrite (Hcomp opts0) by (by left).
      destruct (map_get m d) as [v0|] eqn:Hv0; simpl; [|done].
      by rewrite (Hm v0).
Qed.

Lemma clear_elem_of (curr prev : list Decorator) m d v :
  (d, v) ∈ foldl (fun m decorator =>
                    if bool_decide (decorator ∈ curr) then m else map_set m decorator [])
                 m prev ->
  (d, v) ∈ m \/ v = [].
Proof.
  revert m. induction prev as [|d0 prev IH]; intros m; simpl; [by left|].
  intros Hin. apply IH in Hin as [Hin | ->]; [|by right].
  destruct (bool_decide (d0 ∈ curr)); [by left|].
  apply elem_of_map_set in Hin as [? | [_ ->]]; [by left|by right].
Qed.

Lemma clear_kept (curr prev : list Decorator) m d :
  d ∈ curr ->
  map_get (foldl (fun m decorator =>
                    if bool_decide (decorator ∈ curr) then m else map_set m decorator [])
                 m prev) d
  = map_get m d.
Proof.
  intros Hd. revert m. induction prev as [|d0 prev IH]; intros m; simpl; [done|].
  rewrite IH. destruct (bool_decide (d0 ∈ curr)) eqn:Hd0; [done|].
  apply bool_decide_eq_false in Hd0. rewrite map_get_set.
  rewrite decide_False; [done|]. congruence.
Qed.

Lemma clear_cleared (curr prev : list Decorator) m d :
  d ∉ curr ->
  d ∈ prev \/ map_get m d = Some [] ->
  map_get (foldl (fun m decorator =>
                    if bool_decide (decorator ∈ curr) then m else map_set m decorator [])
                 m prev) d
  = Some [].
Proof.
  intros Hd. revert m. induction prev as [|d0 prev IH]; intros m Hor; simpl.
  - destruct Hor as [Hin|?]; [|done]. by apply elem_of_nil in Hin.
  - apply IH. destruct (decide (d0 = d)) as [->|Hne].
    + right. rewrite bool_decide_eq_false_2 by done.
      rewrite map_get_set. by rewrite decide_True.
    + destruct Hor as [Hin|Hm].
      * left. apply elem_of_cons in Hin as [?|?]; [congruence|done].
      * right. destruct (bool_decide (d0 ∈ curr)); [done|].
        rewrite map_get_set. by rewrite decide_False.
Qed.

End refresh_facts.

(** ** The ranges of a line in the cell-based grid *)

Lemma length_concat_map_set {K V} `{EqDecision K} (m : jsmap K (list V)) k v :
  length (concat (map_set m k v).*2) + length (default [] (map_get m k))
  = length (concat m.*2) + length v.
Proof.
  induction m as [|[k0 v0] m IH].
  - simpl. rewrite !length_app. simpl. lia.
  - cbn [map_set map_get]. destruct (decide (k0 = k)) as [->|Hne].
    + rewrite !fmap_cons. cbn [concat snd default id]. rewrite !length_app. lia.
    + rewrite !fmap_cons. cbn [concat snd]. rewrite !length_app. lia.
Qed.

Lemma findLastIndex_from {T} (finder : T -> bool) (arr : list T) k found :
  match foldl (fun found '(i, x) => if finder x then Some i else found) found
              (zip (seq k (length arr)) arr) with
  | Some i =>
      found = Some i /\ (forall x, x ∈ arr -> finder x = false)
      \/ exists x, k <= i /\ arr !! (i - k) = Some x /\ finder x = true
  | None => found = None /\ forall x, x ∈ arr -> finder x = false
  end.
Proof.
  revert k found. induction arr as [|x arr IH]; intros k found; simpl.
  - destruct found as [i|].
    + left. split; [done|]. intros x Hx. by apply elem_of_nil in Hx.
    + split; [done|]. intros x Hx. by apply elem_of_nil in Hx.
  - specialize (IH (S k) (if finder x then Some k else found)).
    destruct (foldl _ _ _) as [i|].
    + destruct IH as [[Hfound Hall]|(y & Hk & Hy & Hfy)].
      * destruct (finder x) eqn:Hfx.
        -- injection Hfound as <-. right. exists x.
           replace (k - k) with 0 by lia. done.
        -- left. split; [done|]. intros y Hy.
           apply elem_of_cons in Hy as [->|Hy]; [done|by apply Hall].
      * right. exists y. split; [lia|].
        replace (i - k) with (S (i - S k)) by lia. done.
    + destruct IH as [Hfound Hall]. destruct (finder x) eqn:Hfx; [done|].
      split; [done|]. intros y Hy.
      apply elem_of_cons in Hy as [->|Hy]; [done|by apply Hall].
Qed.

Lemma findLastIndex_spec {T} (finder : T -> bool) (arr : list T) :
  match CellGrid.findLastIndex finder arr with
  | Some i => exists x, arr !! i = Some x /\ finder x = true
  | None => forall x, x ∈ arr -> finder x = false
  end.
Proof.
  unfold CellGrid.findLastIndex.
  pose proof (findLastIndex_from finder arr 0 None) as Hspec.
  destruct (foldl _ _ _) as [i|].
  - destruct Hspec as [[? _]|(x & _ & Hx & Hfx)]; [done|].
    exists x. by replace (i - 0) with i in Hx by lia.
  - by destruct Hspec.
Qed.

Lemma elem_of_alter {T} (f : T -> T) (l : list T) i r :
  r ∈ alter f i l -> r ∈ l \/ exists x, l !! i = Some x /\ r = f x.
Proof.
  intros Hin. apply list_elem_of_lookup in Hin as [j Hj].
  destruct (decide (i = j)) as [->|Hne].
  - rewrite list_lookup_alter_eq in Hj.
    destruct (l !! j) as [x|] eqn:Hx; [|done]. simpl in Hj. injection Hj as <-.
    right. by exists x.
  - rewrite list_lookup_alter_ne in Hj by done. left.
    apply list_elem_of_lookup. by exists j.
Qed.

(** A column with a single real entry extends the range that ends at it, if
    there is one, and starts a new range otherwise. *)
Lemma lineWalked_column line prev st col h :
  match prev with Some (p, _) => p < col | None => True end ->
  virtText h = None ->
  lineWalked prev st ->
  lineWalked (Some (col, hlId (cell h))) (CellGrid.lineHighlightStep line st col [h]) /\
  length (concat (CellGrid.lineHighlightStep line st col [h]).1.*2)
  = length (concat st.1.*2)
    + (if bool_decide (prev = Some (col - 1, hlId (cell h)) /\ 0 < col) then 0 else 1).
Proof.
  destruct st as [m virt]. intros Hlt Hvirt [Hvirtual Hprev]. simpl in *.
  unfold CellGrid.lineHighlightStep. rewrite Hvirt. simpl.
  set (id := hlId (cell h)).
  set (existing := default [] (map_get m id)).
  assert (Hexisting : forall r, r ∈ existing -> (id, existing) ∈ m).
  { intros r Hr. unfold existing in *.
    destruct (map_get m id) as [l|] eqn:Hl; [|by apply elem_of_nil in Hr].
    by apply map_get_elem_of. }
  pose proof (findLastIndex_spec
                (fun hl => bool_decide (CellGrid.nEndCol hl = col)) existing) as Hfind.
  pose proof (length_concat_map_set m id) as Hlen. fold existing in Hlen.
  destruct (CellGrid.findLastIndex _ existing) as [i|].
  - (* a range of this id ends at the column: it is extended *)
    destruct Hfind as (x & Hx & Hend). apply bool_decide_eq_true in Hend.
    assert (Hxin : x ∈ existing) by (apply list_elem_of_lookup; by exists i).
    destruct prev as [[p idp]|]; [|rewrite Hprev in Hexisting;
                                   specialize (Hexisting x Hxin);
                                   by apply elem_of_nil in Hexisting].
    destruct Hprev as [Hall Hex].
    destruct (Hall id existing x (Hexisting x Hxin) Hxin) as [Hle Hid].
    assert (Hcol : col = S p) by lia.
    assert (Hidp : id = idp) by (apply Hid; lia).
    simpl. split; [split; [done|split]|].
    + cbn [fst]. intros id' l r Hentry Hr.
      apply elem_of_map_set in Hentry as [Hentry|[-> ->]].
      * destruct (Hall id' l r Hentry Hr) as [Hle' _]. lia.
      * split; [|done]. apply elem_of_alter in Hr as [Hr|(y & Hy & ->)]; simpl; [|lia].
        destruct (Hall id existing r (Hexisting r Hr) Hr) as [Hle' _]. lia.
    + cbn [fst].
      exists (alter (fun hl => CellGrid.mkNormal (CellGrid.nHlId hl) (CellGrid.nLine hl)
                                 (CellGrid.nStartCol hl) (S col)) i existing),
             (CellGrid.mkNormal (CellGrid.nHlId x) (CellGrid.nLine x)
                (CellGrid.nStartCol x) (S col)).
      rewrite map_get_set, decide_True by done.
      split; [done|]. split; [|reflexivity].
      apply list_elem_of_lookup. exists i. rewrite list_lookup_alter_eq, Hx. done.
    + specialize (Hlen (alter (fun hl => CellGrid.mkNormal (CellGrid.nHlId hl)
                                           (CellGrid.nLine hl) (CellGrid.nStartCol hl)
                                           (S col)) i existing)).
      rewrite length_alter in Hlen.
      rewrite bool_decide_eq_true_2; [lia|].
      split; [|lia]. subst idp. f_equal. f_equal. lia.
  - (* no range of this id ends at the column: a new one starts *)
    assert (Hnew : bool_decide (prev = Some (col - 1, id) /\ 0 < col) = false).
    { apply bool_decide_eq_false. intros [-> Hpos].
      destruct Hprev as [_ (l & r & Hl & Hr & Hend)].
      unfold existing in Hfind. rewrite Hl in Hfind. simpl in Hfind.
      specialize (Hfind r Hr). apply bool_decide_eq_false in Hfind. lia. }
    simpl. split; [split; [done|split]|].
    + cbn [fst]. intros id' l r Hentry Hr.
      apply elem_of_map_set in Hentry as [Hentry|[-> ->]].
      * destruct prev as [[p idp]|]; [|rewrite Hprev in Hentry;
                                       by apply elem_of_nil in Hentry].
        destruct Hprev as [Hall _].
        destruct (Hall id' l r Hentry Hr) as [Hle' _]. lia.
      * split; [|done]. apply elem_of_app in Hr as [Hr|Hr].
        -- destruct prev as [[p idp]|].
           ++ destruct Hprev as [Hall _].
              destruct (Hall id existing r (Hexisting r Hr) Hr) as [Hle' _]. lia.
           ++ rewrite Hprev in Hexisting. specialize (Hexisting r Hr).
              by apply elem_of_nil in Hexisting.
        -- apply list_elem_of_singleton in Hr as ->. simpl. lia.
    + cbn [fst].
      exists (existing ++ [CellGrid.mkNormal id line col (S col)]),
             (CellGrid.mkNormal id line col (S col)).
      rewrite map_get_set, decide_True by done.
      split; [done|]. split; [|reflexivity].
      apply elem_of_app. right. by apply list_elem_of_singleton.
    + specialize (Hlen (existing ++ [CellGrid.mkNormal id line col (S col)])).
      rewrite length_app in Hlen. simpl in Hlen. rewrite Hnew. lia.
Qed.

Lemma lineWalked_loop line (rest : jsmap nat (list Highlight)) prev st :
  ascendingAfter (fst <$> prev) rest ->
  (forall col hls, (col, hls) ∈ rest -> singleReal hls) ->
  lineWalked prev st ->
  (foldl (fun st '(col, hls) => CellGrid.lineHighlightStep line st col hls) st rest).2 = [] /\
  length (concat (foldl (fun st '(col, hls) => CellGrid.lineHighlightStep line st col hls)
                        st rest).1.*2)
  = length (concat st.1.*2) + columnRunsAfter prev rest.
Proof.
  revert prev st. induction rest as [|[col hls] rest IH]; intros prev st Hasc Hsingle Hinv.
  - simpl. split; [by destruct Hinv|lia].
  - destruct (Hsingle col hls) as (h & -> & Hvirt); [by left|].
    destruct Hasc as [Hlt Hasc].
    destruct (lineWalked_column line prev st col h) as [Hinv1 Hlen1]; [|done|done|].
    { by destruct prev as [[p idp]|]. }
    simpl foldl.
    destruct (IH (Some (col, hlId (cell h)))
                (CellGrid.lineHighlightStep line st col [h]) Hasc) as [Hvirtual Hlen];
      [|done|].
    { intros c' hls' Hin. apply (Hsingle c' hls'). by right. }
    split; [done|]. rewrite Hlen, Hlen1. simpl. lia.
Qed.

(** In the cell-based grid as well, a line whose columns, visited in
    ascending order, each hold a single real entry gets as many normal
    ranges as its columns form maximal runs, and no virtual range. *)
Lemma lineHighlightsToRanges_runs line (highlights : jsmap nat (list Highlight)) :
  ascendingAfter None highlights ->
  (forall col hls, (col, hls) ∈ highlights -> singleReal hls) ->
  length (CellGrid.lineHighlightsToRanges line highlights) = columnRuns highlights /\
  Forall (fun r => isNormal r = true) (CellGrid.lineHighlightsToRanges line highlights).
Proof.
  intros Hasc Hsingle. unfold CellGrid.lineHighlightsToRanges, columnRuns.
  destruct (lineWalked_loop line highlights None ([], []) Hasc Hsingle) as [Hvirtual Hlen].
  { by split. }
  destruct (foldl _ _ highlights) as [normalHighlights virtualHighlights].
  simpl in *. subst virtualHighlights. rewrite app_nil_r. split.
  - by rewrite length_fmap.
  - apply Forall_fmap. by apply Forall_true.
Qed.

(** * The claims on the cell-run processor *)

(** C1, as amended.  The processor returns, and the returned boolean is
    true whenever the cell walk stored an entry list at a column or deleted
    an entry stored there, and so whenever the stored state of some column
    other than the column before the start column differs after the call.
    When the call does not re-derive the column before the start column,
    the boolean is true only if the cell walk stored or deleted.  A [true]
    result does not mean that a column differs. *)
Theorem processHighlightCellsEvent_hasUpdates `{TextUtils}
    (grid : Grid) (ev : HighlightCellsEvent) :
  exists grid' hasUpdates visits,
    processHighlightCellsEvent grid ev = Some (grid', hasUpdates) /\
    eventVisits grid ev = Some visits /\
    (walkStores grid ev visits -> hasUpdates = true) /\
    (eventPrevColumnCells ev = None -> hasUpdates = true -> walkStores grid ev visits) /\
    (forall r c,
       storedColumn grid' r c <> storedColumn grid r c ->
       hasUpdates = true \/
       (r = row ev /\
        S c = calculateEditorColFromVimScreenCol (lineText ev) (vimCol ev) (tabSize ev))).
Proof.
  destruct (eventVisits_is_Some grid ev) as [v Hv].
  rewrite processHighlightCellsEvent_visits, Hv. simpl.
  eexists _, _, v. split; [reflexivity|]. split; [reflexivity|].
  assert (Hflag : (storeVisits v ((beforeWalk grid ev).1, false)).2 = true
                  <-> walkStores grid ev v).
  { rewrite storeVisits_flag
      by (unfold eventVisits in Hv; by apply walkVisits_cols in Hv as [_ Hnd]).
    unfold walkStores. split; intros (c & hls & Hin & Hor); exists c, hls; (split; [done|]).
    - by rewrite <- (eventVisits_get grid ev v c hls Hv Hin).
    - by rewrite (eventVisits_get grid ev v c hls Hv Hin). }
  split; [apply Hflag|]. split; [intros _; apply Hflag|].
  intros r c Hdiff.
  destruct (storeVisits v ((beforeWalk grid ev).1, false)).2 eqn:Hf; [by left|right].
  apply storeVisits_flag_false in Hf.
  destruct (decide (r = row ev)) as [->|Hr].
  - split; [done|].
    destruct (decide (S c = calculateEditorColFromVimScreenCol (lineText ev) (vimCol ev)
                              (tabSize ev))) as [Hc|Hc]; [done|].
    exfalso. apply Hdiff. unfold storedColumn at 1.
    rewrite arr_get_set, decide_True by done. simpl. rewrite Hf.
    by apply beforeWalk_get.
  - exfalso. apply Hdiff. unfold storedColumn.
    rewrite arr_get_set, decide_False by done.
    by rewrite ensureRow_get_other.
Qed.

(** C1 as stated fails: on the grid that already stores the three columns of
    ["a猫b"], the same three cells store three identical lists; nothing
    differs afterwards and the processor returns [true]. *)
Lemma hasUpdates_true_on_identical_restore :
  processHighlightCellsEvent (H := UnicodeText.utils)
    Examples.gridACatB Examples.evThreeCells
  = Some (Examples.gridACatB, true).
Proof. vm_compute. reflexivity. Qed.

(** The store of the previous-column region does not raise the flag that
    the store of the cell walk raises: redrawing the last cell of the tab
    of ["\tx"] with another id changes the column of the tab and returns
    [false]. *)
Lemma hasUpdates_false_on_rederived_column :
  processHighlightCellsEvent (H := UnicodeText.utils)
    Examples.gridTabLine Examples.evTabLastCell
  = Some (Examples.gridTabLine', false) /\
  storedColumn Examples.gridTabLine' 0 0 <> storedColumn Examples.gridTabLine 0 0.
Proof. split; [vm_compute; reflexivity|discriminate]. Qed.




(** C10. The cell-run processor terminates on every input: however much
    fuel at least the number of cells the walk is given, it returns, and
    with the same result as [processHighlightCellsEvent]; the walk makes at
    most one iteration per cell, because every iteration takes a cell from
    the iterator and the iterator yields nothing once the cells are
    exhausted. *)
Theorem cellWalk_terminates `{TextUtils} (grid : Grid) (ev : HighlightCellsEvent) (fuel : nat) :
  length (validCells ev) <= fuel ->
  exists grid' hasUpdates visits,
    processWithFuel fuel grid ev = Some (grid', hasUpdates) /\
    processHighlightCellsEvent grid ev = Some (grid', hasUpdates) /\
    eventVisits grid ev = Some visits /\
    length visits <= length (validCells ev).
Proof.
  intros Hfuel.
  destruct (processHighlightCellsEvent_is_Some grid ev) as [[grid' b] Hp].
  destruct (eventVisits_is_Some grid ev) as [v Hv].
  exists grid', b, v. repeat split; try done.
  - by apply (processWithFuel_mono (length (validCells ev))).
  - apply walkVisits_length in Hv. rewrite beforeWalk_cells in Hv. lia.
Qed.

Lemma cellWalk_terminates_witness :
  length (validCells Examples.evTabLine) <= 5 /\
  exists grid' hasUpdates visits,
    processWithFuel (H := UnicodeText.utils) 5 [] Examples.evTabLine
      = Some (grid', hasUpdates) /\
    processHighlightCellsEvent (H := UnicodeText.utils) [] Examples.evTabLine
      = Some (grid', hasUpdates) /\
    eventVisits (H := UnicodeText.utils) [] Examples.evTabLine = Some visits /\
    length visits <= length (validCells Examples.evTabLine).
Proof.
  assert (H1 : length (validCells Examples.evTabLine) <= 5) by (simpl; lia).
  split; [exact H1|].
  exact (cellWalk_terminates (H := UnicodeText.utils) [] Examples.evTabLine 5 H1).
Defined.

(** * The claim on the stored-column invariant *)

(** C2 fails on the code.  The store at the end of the cell walk deletes
    a column whose list is empty or all id 0
    ([processHighlightCellsEvent_invariant]), but the previous-column region
    stores its list unchecked: redrawing the second cell of the tab of
    ["\tx"] with the default id 0 on the empty grid stores a column of id-0
    entries only, and a redraw that brings no valid cell stores the empty
    list, on which [buildHighlightRanges] throws. *)
Theorem prevColumn_stores_unhighlighted_column :
  gridInvariant [] /\
  reachable (H := UnicodeText.utils) Examples.gridTabDefault /\
  reachable (H := UnicodeText.utils) Examples.gridTabEmptyList /\
  processHighlightCellsEvent (H := UnicodeText.utils) [] Examples.evTabDefaultCell
    = Some (Examples.gridTabDefault, false) /\
  arr_get Examples.gridTabDefault 0 = Some [Some [Examples.tabCell 0]] /\
  noHighlight [Examples.tabCell 0] = true /\
  ~ gridInvariant Examples.gridTabDefault /\
  processHighlightCellsEvent (H := UnicodeText.utils) [] Examples.evTabNoCell
    = Some (Examples.gridTabEmptyList, false) /\
  arr_get Examples.gridTabEmptyList 0 = Some [Some []] /\
  ~ gridInvariant Examples.gridTabEmptyList /\
  buildHighlightRanges Examples.gridTabEmptyList 0 = None.
Proof.
  assert (Hdefault : processHighlightCellsEvent (H := UnicodeText.utils)
                       [] Examples.evTabDefaultCell
                     = Some (Examples.gridTabDefault, false))
    by (vm_compute; reflexivity).
  assert (Hnone : processHighlightCellsEvent (H := UnicodeText.utils)
                    [] Examples.evTabNoCell
                  = Some (Examples.gridTabEmptyList, false))
    by (vm_compute; reflexivity).
  split; [intros r gridRow; unfold arr_get; by rewrite lookup_nil|].
  split; [exact (reachable_process [] _ _ _ reachable_empty Hdefault)|].
  split; [exact (reachable_process [] _ _ _ reachable_empty Hnone)|].
  split; [exact Hdefault|]. split; [reflexivity|]. split; [reflexivity|].
  split.
  { intros Hinv.
    specialize (Hinv 0 [Some [Examples.tabCell 0]] eq_refl 0 [Examples.tabCell 0] eq_refl).
    discriminate Hinv. }
  split; [exact Hnone|]. split; [reflexivity|]. split; [|reflexivity].
  intros Hinv. specialize (Hinv 0 [Some []] eq_refl 0 [] eq_refl).
  discriminate Hinv.
Qed.

(** * The claim on the double-width example *)

(** A cell that carries the very character of its column, a single code
    unit other than the tab, becomes the real entry of that column, whatever
    the width of the character. *)
Lemma cellStep_match `{TextUtils} lineChars filled tabSize it (c : ValidCell) col u :
  text c = [u] -> u <> 9%N -> filled !! col = Some [u] ->
  cellStep lineChars filled tabSize it c col = (col, [mkHighlight c None], col, it).
Proof.
  intros Htext Hu Hchar. unfold cellStep. rewrite Hchar, Htext. simpl.
  rewrite (decide_False (P := Some [u] = Some TAB)) by (intros [= ->]; done).
  replace (col + 0 - 0) with col by lia. replace (col + 0) with col by lia.
  destruct (isDouble [u]);
    rewrite ?(decide_True (P := Some [u] = Some [u])) by done; done.
Qed.

Lemma cellWalk_step `{TextUtils} fuel lineChars filled tabSize it col gridRow b c :
  _cells it !! _index it = Some c ->
  cellWalk (S fuel) lineChars filled tabSize it col gridRow b =
  let '(hlCol, hls, col', it') :=
    cellStep lineChars filled tabSize (mkIter (_cells it) (S (_index it))) c col in
  let '(gridRow', b') := storeColumn gridRow hlCol hls b in
  cellWalk fuel lineChars filled tabSize it' (S col') gridRow' b'.
Proof. intros Hc. simpl. by rewrite Hc. Qed.

(** C6, as amended.  For line text ["a猫b"] and the valid cells of the run,
    [a] with id 1, [猫] with id 2 and [b] with id 3, the continuation cell
    of the glyph not being among them, processing on the empty grid and
    range building yield exactly three normal ranges: column 0 with id 1,
    column 1 with id 2 and column 2 with id 3.  This holds for all text
    utilities that split the line into its three characters and map screen
    column 0 to character column 0. *)
Theorem double_width_three_normal_ranges `{TextUtils} :
  splitGraphemes Examples.lineACatB = [ascii "a"; Examples.CAT; ascii "b"] ->
  calculateEditorColFromVimScreenCol Examples.lineACatB 0 4 = 0 ->
  exists grid,
    processHighlightCellsEvent [] Examples.evThreeCells = Some (grid, true) /\
    buildHighlightRanges grid 0
    = Some [NormalRange 1 0 0 1; NormalRange 2 0 1 2; NormalRange 3 0 2 3].
Proof.
  intros Hsplit Hcol.
  exists Examples.gridACatB. split; [|vm_compute; reflexivity].
  unfold processHighlightCellsEvent, processWithFuel, filledLineText.
  cbn [lineText vimCol tabSize validCells row Examples.evThreeCells].
  rewrite Hsplit, Hcol.
  change (foldl _ [] _) with Examples.lineACatB. rewrite Hsplit.
  unfold rederivePrevColumn. rewrite decide_False by lia.
  cbn [length].
  rewrite (cellWalk_step _ _ _ _ _ _ _ _ (mkCell (ascii "a") 1)) by reflexivity.
  rewrite (cellStep_match _ _ _ _ _ 0 97%N) by done.
  cbn [_cells _index]. unfold storeColumn at 1. cbn -[cellWalk].
  rewrite (cellWalk_step _ _ _ _ _ _ _ _ (mkCell Examples.CAT 2)) by reflexivity.
  rewrite (cellStep_match _ _ _ _ _ 1 29483%N) by done.
  cbn [_cells _index]. unfold storeColumn at 1. cbn -[cellWalk].
  rewrite (cellWalk_step _ _ _ _ _ _ _ _ (mkCell (ascii "b") 3)) by reflexivity.
  rewrite (cellStep_match _ _ _ _ _ 2 98%N) by done.
  reflexivity.
Qed.

Lemma double_width_three_normal_ranges_witness :
  exists grid,
    processHighlightCellsEvent (H := UnicodeText.utils) [] Examples.evThreeCells
      = Some (grid, true) /\
    buildHighlightRanges grid 0
    = Some [NormalRange 1 0 0 1; NormalRange 2 0 1 2; NormalRange 3 0 2 3].
Proof.
  apply (double_width_three_normal_ranges (H := UnicodeText.utils));
    vm_compute; reflexivity.
Defined.

(** C6 as stated fails: with the continuation cell among the four cells,
    the cell of [猫] does not take it along; the continuation cell is paired
    with ["b"] and lands in column 2, and the cell of ["b"] falls past the
    line end.  The ranges are a normal range for column 0, one normal range
    with id 2 over columns 1 and 2, and a virtual range at column 3. *)
Lemma continuation_cell_is_not_skipped :
  processHighlightCellsEvent (H := UnicodeText.utils) [] Examples.evFourCells
    = Some (Examples.gridFourCells, true) /\
  buildHighlightRanges Examples.gridFourCells 0
    = Some [NormalRange 1 0 0 1;
            VirtualRange [mkHighlight (mkCell (ascii "b") 3) (Some (ascii "b"))] 0 3;
            NormalRange 2 0 1 3] /\
  buildHighlightRanges Examples.gridFourCells 0
    <> Some [NormalRange 1 0 0 1; NormalRange 2 0 1 2; NormalRange 3 0 2 3].
Proof. vm_compute. repeat split; discriminate. Qed.

(** * The claims on the row shifter *)

(** C5.  For a positive shift amount, [shiftHighlights(by, from)] keeps the
    [length] of the grid, leaves the rows below [from] where they are and
    makes index [j >= from] hold what index [j + by] held.  So the rows at
    [from .. from + by - 1] are gone, every row stored above them is found
    at its index minus [by], and no other row is stored at or above
    [from]. *)
Theorem shiftHighlights_positive (grid : Grid) (by_ : Z) (from : nat) :
  (0 < by_)%Z ->
  length (shiftHighlights grid by_ from) = length grid /\
  (forall j, j < from -> arr_get (shiftHighlights grid by_ from) j = arr_get grid j) /\
  (forall j, from <= j ->
     arr_get (shiftHighlights grid by_ from) j = arr_get grid (j + Z.to_nat by_)) /\
  (forall idx r, from < idx -> arr_get grid idx = Some r ->
     Z.to_nat by_ <= idx - from ->
     arr_get (shiftHighlights grid by_ from) (idx - Z.to_nat by_) = Some r).
Proof.
  intros Hpos. destruct (shiftHighlights_up grid by_ from Hpos) as [Hlen Hget].
  split; [done|]. split; [|split].
  - intros j Hj. rewrite Hget. by rewrite decide_True.
  - intros j Hj. rewrite Hget. by rewrite decide_False by lia.
  - intros idx r Hidx Hr Hby. rewrite Hget. rewrite decide_False by lia.
    by replace (idx - Z.to_nat by_ + Z.to_nat by_) with idx by lia.
Qed.

(** The scroll of the spec's example: rows 0 to 3, [shift(by = 2, from = 0)]. *)
Lemma shiftHighlights_four_rows (r0 r1 r2 r3 : GridRow) :
  shiftHighlights [Some r0; Some r1; Some r2; Some r3] 2 0
  = [Some r2; Some r3; None; None].
Proof. reflexivity. Qed.

Lemma shiftHighlights_positive_witness :
  (0 < 2)%Z /\
  length (shiftHighlights (Examples.gridACatB ++ Examples.gridTabLine
                           ++ Examples.gridTabOnce ++ Examples.gridTabTwice) 2 0) = 4 /\
  arr_get (shiftHighlights (Examples.gridACatB ++ Examples.gridTabLine
                            ++ Examples.gridTabOnce ++ Examples.gridTabTwice) 2 0) 0
    = arr_get Examples.gridTabOnce 0 /\
  arr_get (shiftHighlights (Examples.gridACatB ++ Examples.gridTabLine
                            ++ Examples.gridTabOnce ++ Examples.gridTabTwice) 2 0) 1
    = arr_get Examples.gridTabTwice 0.
Proof.
  assert (Hpos : (0 < 2)%Z) by lia.
  destruct (shiftHighlights_positive
              (Examples.gridACatB ++ Examples.gridTabLine
               ++ Examples.gridTabOnce ++ Examples.gridTabTwice) 2 0 Hpos)
    as (Hlen & _ & Hget & _).
  split; [exact Hpos|]. split; [exact Hlen|]. split.
  - exact (Hget 0 (Nat.le_refl 0)).
  - exact (Hget 1 (Nat.le_0_l 1)).
Defined.

(** C9.  A shift by zero is the identity: neither branch runs. *)
Theorem shiftHighlights_zero (grid : Grid) (from : nat) :
  shiftHighlights grid 0 from = grid.
Proof. reflexivity. Qed.

(** * The claim on coalescing *)

Lemma normalRangesOfLine_other line line' (new : list HighlightRange) :
  line' <> line ->
  Forall (fun r => rangeLine r = line') new ->
  normalRangesOfLine line new = [].
Proof.
  intros Hne Hall. induction Hall as [|r new Hr _ IH]; [done|].
  unfold normalRangesOfLine in *. rewrite filter_cons, IH.
  rewrite decide_False; [done|]. intros [_ Hl]. congruence.
Qed.

(** The walk over the rows: every row adds the ranges of its own line. *)
Lemma buildHighlightRanges_loop (grid : Grid) topLine r gridRow
    (suffix : Grid) K acc :
  arr_get grid r = Some gridRow ->
  (forall c hls, arr_get gridRow c = Some hls -> singleReal hls) ->
  (forall r' row' c, arr_get grid r' = Some row' -> arr_get row' c <> Some []) ->
  (forall i, arr_get suffix i = arr_get grid (K + i)) ->
  exists out, forEachM (visitRow topLine) acc (entries_from K suffix) = Some out /\
    length (normalRangesOfLine (Z.of_nat r + topLine)%Z out)
    = length (normalRangesOfLine (Z.of_nat r + topLine)%Z acc)
      + (if decide (K <= r < K + length suffix) then maximalRuns gridRow else 0).
Proof.
  intros Hr Hsingle Hne. revert K acc.
  induction suffix as [|x suffix IH]; intros K acc Hsuf.
  - exists acc. split; [done|]. rewrite decide_False by (simpl; lia). lia.
  - assert (Hx : x = arr_get grid K).
    { specialize (Hsuf 0). by replace (K + 0) with K in Hsuf by lia. }
    assert (Hsuf' : forall i, arr_get suffix i = arr_get grid (S K + i)).
    { intros i. specialize (Hsuf (S i)).
      by replace (K + S i) with (S K + i) in Hsuf by lia. }
    destruct x as [row'|]; simpl.
    + destruct (decide (K = r)) as [->|HKr].
      * assert (row' = gridRow) as -> by congruence.
        destruct (visitRow_runs (Z.of_nat r + topLine)%Z acc gridRow Hsingle topLine r
                    eq_refl) as (out1 & -> & Hcount1).
        simpl. destruct (IH (S r) out1 Hsuf') as (out & -> & Hcount).
        exists out. split; [done|]. rewrite Hcount, Hcount1.
        rewrite decide_False by lia. rewrite decide_True by lia. lia.
      * destruct (visitRow_total topLine acc K row') as [out1 Hout1].
        { intros c. by apply (Hne K). }
        rewrite Hout1. simpl.
        apply visitRow_res in Hout1 as (new & -> & Hline).
        destruct (IH (S K) (acc ++ new) Hsuf') as (out & -> & Hcount).
        exists out. split; [done|]. rewrite Hcount.
        rewrite normalRangesOfLine_app, length_app.
        rewrite (normalRangesOfLine_other _ (Z.of_nat K + topLine)%Z new) by (done || lia).
        simpl. repeat case_decide; lia.
    + destruct (IH (S K) acc Hsuf') as (out & -> & Hcount).
      exists out. split; [done|]. rewrite Hcount.
      assert (K <> r) by congruence.
      repeat case_decide; lia.
Qed.

(** The coalescing of the range builder on a grid that stores no empty
    column list.  For a row whose stored columns each hold a single real
    entry and form [k] maximal runs of adjacent columns sharing one
    highlight id, the range builder returns and emits exactly [k] normal
    ranges for the line of that row.  The statement is about the stored row
    alone, whatever events built it. *)
Lemma buildHighlightRanges_coalescing (grid : Grid) (topLine : Z) (r : nat)
    (gridRow : GridRow) (k : nat) :
  arr_get grid r = Some gridRow ->
  (forall c hls, arr_get gridRow c = Some hls -> singleReal hls) ->
  maximalRuns gridRow = k ->
  (forall r' row' c, arr_get grid r' = Some row' -> arr_get row' c <> Some []) ->
  exists out, buildHighlightRanges grid topLine = Some out /\
    length (normalRangesOfLine (Z.of_nat r + topLine)%Z out) = k.
Proof.
  intros Hr Hsingle Hk Hne.
  destruct (buildHighlightRanges_loop grid topLine r gridRow grid 0 [] Hr Hsingle Hne)
    as (out & Hout & Hcount); [done|].
  exists out. split; [done|]. rewrite Hcount, Hk.
  apply arr_get_Some_lt in Hr. rewrite decide_True by lia. done.
Qed.

Lemma buildHighlightRanges_coalescing_witness :
  maximalRuns Examples.rowThreeRuns = 3 /\
  exists out, buildHighlightRanges Examples.gridThreeRuns 10 = Some out /\
    length (normalRangesOfLine (Z.of_nat 2 + 10)%Z out) = 3.
Proof.
  assert (Hk : maximalRuns Examples.rowThreeRuns = 3) by (vm_compute; reflexivity).
  split; [exact Hk|].
  apply (buildHighlightRanges_coalescing Examples.gridThreeRuns 10 2
           Examples.rowThreeRuns 3).
  - reflexivity.
  - apply arr_get_Forall.
    repeat constructor; intros hls [=]; subst; eexists; split; reflexivity.
  - exact Hk.
  - intros r' row' c Hrow Hc. revert r' row' Hrow c Hc.
    apply (arr_get_Forall (fun row' : GridRow =>
                             forall c, arr_get row' c = Some [] -> False)).
    repeat constructor; intros row' [=]; subst; intros c Hc;
      refine (arr_get_Forall (fun hls : list Highlight => hls <> []) _ _ c [] Hc eq_refl);
      repeat constructor; intros ? [=]; subst; discriminate.
Defined.

(** C3 fails on the code.  The range builder reads [colHighlights[0]] of
    every stored column and throws on an empty list, which the
    previous-column region of the processor stores when a redraw inside a
    multi-cell column brings no valid cell.  After such a redraw in row 0
    and the two cells of ["ab"] in row 1, row 1 holds two maximal runs of
    single real entries, and the range builder throws instead of emitting
    two normal ranges for it; without the column of the empty list it emits
    the two. *)
Theorem coalescing_fails_after_empty_store :
  reachable (H := UnicodeText.utils) Examples.gridEmptyListTwoRuns /\
  processHighlightCellsEvent (H := UnicodeText.utils) [] Examples.evTabNoCell
    = Some (Examples.gridTabEmptyList, false) /\
  processHighlightCellsEvent (H := UnicodeText.utils)
    Examples.gridTabEmptyList Examples.evRowTwoRuns
    = Some (Examples.gridEmptyListTwoRuns, true) /\
  arr_get Examples.gridEmptyListTwoRuns 1 = Some Examples.rowTwoRuns /\
  (forall c hls, arr_get Examples.rowTwoRuns c = Some hls -> singleReal hls) /\
  maximalRuns Examples.rowTwoRuns = 2 /\
  buildHighlightRanges Examples.gridEmptyListTwoRuns 0 = None /\
  buildHighlightRanges (cleanRow Examples.gridEmptyListTwoRuns 0) 0
    = Some [NormalRange 1 1 0 1; NormalRange 2 1 1 2].
Proof.
  assert (Hnone : processHighlightCellsEvent (H := UnicodeText.utils)
                    [] Examples.evTabNoCell
                  = Some (Examples.gridTabEmptyList, false))
    by (vm_compute; reflexivity).
  assert (Hruns : processHighlightCellsEvent (H := UnicodeText.utils)
                    Examples.gridTabEmptyList Examples.evRowTwoRuns
                  = Some (Examples.gridEmptyListTwoRuns, true))
    by (vm_compute; reflexivity).
  split.
  { eapply reachable_process; [|exact Hruns].
    eapply reachable_process; [apply reachable_empty|exact Hnone]. }
  split; [exact Hnone|]. split; [exact Hruns|]. split; [reflexivity|]. split.
  { apply arr_get_Forall.
    repeat constructor; intros hls [=]; subst; eexists; split; reflexivity. }
  split; [reflexivity|]. split; reflexivity.
Qed.

(** * The claims on the decorations *)

Section decoration_claims.
Context {Decorator Style : Type} `{EqDecision Decorator}.
Variable getDecorator : Z -> option Decorator * Style.
Variable computeLineHighlights :
  sparse (list ValidCell) -> Z -> jsstring -> Z -> jsmap nat (list Highlight).

Lemma appendToLast_snoc (fs : list CellGrid.Fragment) f virt :
  CellGrid.appendToLast (fs ++ [f]) virt
  = fs ++ [CellGrid.mkFragment (CellGrid.fragHlId f) (CellGrid.fragVirtText f ++ virt)].
Proof.
  induction fs as [|f0 fs IH]; [done|]. simpl. rewrite IH.
  by destruct (fs ++ [f]) eqn:Hfs; [destruct fs|].
Qed.

Lemma length_appendToLast (fs : list CellGrid.Fragment) virt :
  length (CellGrid.appendToLast fs virt) = length fs.
Proof.
  induction fs as [|f0 [|f1 fs] IH]; [done|done|]. simpl in *. by rewrite IH.
Qed.

Lemma length_foldl_processColHighlight (processed : list CellGrid.Fragment) hls :
  processed <> [] ->
  length (foldl CellGrid.processColHighlight processed hls)
  = length processed + length (filter (fun h => hlId (cell h) <> 0%Z) hls).
Proof.
  revert processed. induction hls as [|h hls IH]; intros processed Hne; simpl; [lia|].
  unfold CellGrid.processColHighlight at 2.
  assert (Hlen : (0 <? length processed) = true).
  { destruct processed; [done|]. done. }
  rewrite Hlen, andb_true_r. rewrite filter_cons.
  destruct (hlId (cell h) =? 0)%Z eqn:Hz.
  - rewrite IH, length_appendToLast.
    + rewrite decide_False by lia. done.
    + intros Hnil. apply (f_equal length) in Hnil.
      rewrite length_appendToLast in Hnil. by destruct processed.
  - rewrite IH by (by destruct processed). rewrite length_app.
    rewrite decide_True by lia. simpl. lia.
Qed.

(** The fragments of a column: the first entry and every later entry with a
    non-zero id start one. *)
Lemma length_processedColHighlights h0 rest :
  length (CellGrid.processedColHighlights (h0 :: rest))
  = S (length (filter (fun h => hlId (cell h) <> 0%Z) rest)).
Proof.
  unfold CellGrid.processedColHighlights. simpl.
  unfold CellGrid.processColHighlight at 2. simpl. rewrite andb_false_r. simpl.
  by rewrite length_foldl_processColHighlight.
Qed.

(** C7.  In the composition of the virtual text of a column, an entry with
    highlight id 0 that comes after at least one entry adds its text to the
    virtual text of the last fragment processed so far and starts no
    fragment of its own, so the column has as many fragments without that
    entry as with it; and a virtual range all of whose entries have id 0
    adds nothing to the options that [highlightRangesToOptions] returns. *)
Theorem zero_entries_join_the_preceding_fragment
    (lineAt : Z -> jsstring) (pre post : list Highlight) (h : Highlight) :
  pre <> [] ->
  hlId (cell h) = 0%Z ->
  (exists fs f,
     CellGrid.processedColHighlights pre = fs ++ [f] /\
     CellGrid.processedColHighlights (pre ++ [h])
     = fs ++ [CellGrid.mkFragment (CellGrid.fragHlId f)
                (CellGrid.fragVirtText f ++ default (text (cell h)) (virtText h))]) /\
  length (CellGrid.processedColHighlights (pre ++ h :: post))
  = length (CellGrid.processedColHighlights (pre ++ post)) /\
  (forall ranges ranges' highlights line col,
     forallb (fun hl => (hlId (cell hl) =? 0)%Z) highlights = true ->
     CellGrid.highlightRangesToOptions getDecorator lineAt
       (ranges ++ VirtualRange highlights line col :: ranges')
     = CellGrid.highlightRangesToOptions getDecorator lineAt (ranges ++ ranges')).
Proof.
  intros Hpre Hzero. split; [|split].
  - destruct pre as [|h0 pre]; [done|].
    pose proof (length_processedColHighlights h0 pre) as Hlen.
    destruct (CellGrid.processedColHighlights (h0 :: pre)) as [|f0 fs0] eqn:Hfs
      using rev_ind; [done|].
    exists fs0, f0. split; [done|].
    unfold CellGrid.processedColHighlights in *. rewrite foldl_app, Hfs. simpl.
    unfold CellGrid.processColHighlight. rewrite Hzero. simpl.
    rewrite length_app. simpl.
    replace (0 <? length fs0 + 1) with true by (symmetry; apply Nat.ltb_lt; lia).
    apply appendToLast_snoc.
  - destruct pre as [|h0 pre]; [done|]. simpl.
    rewrite !length_processedColHighlights, !filter_app, filter_cons.
    rewrite decide_False; [done|]. intros Hne. by apply Hne.
  - intros ranges ranges' highlights line col Hall.
    unfold CellGrid.highlightRangesToOptions. rewrite !foldl_app. simpl.
    by rewrite Hall.
Qed.

(** What a refresh with an editor and a viewport does. *)
Lemma refreshDecorations_eq editor viewport st :
  CellGrid.refreshDecorations getDecorator computeLineHighlights
    (Some editor) (Some viewport) st
  = let computed :=
      CellGrid.computedDecorations getDecorator computeLineHighlights editor viewport st in
    let decorations :=
      foldl (fun m '(decorator, opts) => CellGrid.pushDecorations m decorator opts)
            [] computed in
    (CellGrid.mkGrid (CellGrid.lineCells st) (map_keys decorations) (CellGrid.isDirty st)
       (CellGrid.getDecorations getDecorator computeLineHighlights
          (CellGrid.lineCells st) (CellGrid.lineDecorationsCache st) editor
          (Z.max 0 (CellGrid.topline viewport))
          (Z.min (CellGrid.lineCount editor - 1) (CellGrid.botline viewport))).2,
     foldl (fun m decorator =>
              if bool_decide (decorator ∈ map_keys decorations) then m
              else map_set m decorator [])
           decorations (CellGrid.prevDecorators st)).
Proof.
  unfold CellGrid.refreshDecorations, CellGrid.computedDecorations.
  by destruct (CellGrid.getDecorations _ _ _ _ _ _ _).
Qed.

(** C8.  Take two consecutive refreshes that find an editor and a viewport,
    the events between them leaving the retained set alone.  Every
    decorator that the first refresh applied with ranges and for which the
    second computes no ranges is applied with the empty list by the second,
    and the set retained after the second refresh holds exactly the
    decorators for which it computed decorations. *)
Theorem refreshDecorations_clears_unused
    (editor1 editor2 : CellGrid.Editor) (viewport1 viewport2 : CellGrid.Viewport)
    (st0 st1 st1' st2 : CellGrid.GridState (Decorator := Decorator) (Style := Style))
    (calls1 calls2 : list (Decorator * list CellGrid.DecorationOptions)) :
  CellGrid.refreshDecorations getDecorator computeLineHighlights
    (Some editor1) (Some viewport1) st0 = (st1, calls1) ->
  CellGrid.prevDecorators st1' = CellGrid.prevDecorators st1 ->
  CellGrid.refreshDecorations getDecorator computeLineHighlights
    (Some editor2) (Some viewport2) st1' = (st2, calls2) ->
  (forall decorator ranges,
     (decorator, ranges) ∈ calls1 -> ranges <> [] ->
     (forall opts,
        (decorator, opts) ∈ CellGrid.computedDecorations getDecorator computeLineHighlights
                              editor2 viewport2 st1' ->
        opts = []) ->
     (decorator, []) ∈ calls2) /\
  (forall decorator,
     decorator ∈ CellGrid.prevDecorators st2 <->
     decorator ∈ map_keys (CellGrid.computedDecorations getDecorator computeLineHighlights
                             editor2 viewport2 st1')).
Proof.
  rewrite !refreshDecorations_eq. simpl.
  intros [= <- <-] Hprev [= <- <-]. simpl. split.
  - intros decorator ranges Hcall Hranges Hnone.
    apply map_get_elem_of.
    assert (Hin1 : decorator ∈ CellGrid.prevDecorators st1').
    { rewrite Hprev. simpl.
      apply clear_elem_of in Hcall as [Hcall|?]; [|done].
      apply (list_elem_of_fmap_2 fst) in Hcall. exact Hcall. }
    set (decorations2 := foldl _ [] (CellGrid.computedDecorations _ _ editor2 viewport2 st1')).
    destruct (decide (decorator ∈ map_keys decorations2)) as [Hcurr|Hcurr].
    + rewrite clear_kept by done.
      pose proof Hcurr as Hsome. apply map_get_keys in Hsome as [v Hv].
      rewrite Hv. f_equal.
      apply (merge_empty _ [] decorator Hnone); [done|exact Hv].
    + apply clear_cleared; [done|by left].
  - intros decorator. rewrite merge_keys. unfold map_keys at 1. simpl.
    rewrite elem_of_nil. tauto.
Qed.

End decoration_claims.

Lemma zero_entries_join_the_preceding_fragment_witness :
  [Examples.tabCell 1] <> [] /\
  hlId (cell (Examples.tabCell 0)) = 0%Z /\
  length (CellGrid.processedColHighlights
            ([Examples.tabCell 1] ++ Examples.tabCell 0 :: [Examples.tabCell 2]))
  = length (CellGrid.processedColHighlights ([Examples.tabCell 1] ++ [Examples.tabCell 2])).
Proof.
  assert (H1 : [Examples.tabCell 1] <> []) by discriminate.
  assert (H2 : hlId (cell (Examples.tabCell 0)) = 0%Z) by reflexivity.
  split; [exact H1|]. split; [exact H2|].
  exact (proj1 (proj2 (zero_entries_join_the_preceding_fragment Examples.groupDecorator
                         (fun _ => Examples.lineTabX)
                         [Examples.tabCell 1] [Examples.tabCell 2] (Examples.tabCell 0)
                         H1 H2))).
Defined.

Lemma refreshDecorations_clears_unused_witness :
  (1, []) ∈ (CellGrid.refreshDecorations Examples.groupDecorator Examples.cellPerColumn
               (Some Examples.editorAB) (Some Examples.viewportAB)
               Examples.cellGridId2).2.
Proof.
  refine (proj1 (refreshDecorations_clears_unused
                   Examples.groupDecorator Examples.cellPerColumn
                   Examples.editorAB Examples.editorAB
                   Examples.viewportAB Examples.viewportAB
                   Examples.cellGridId1 _ Examples.cellGridId2 _ _ _
                   (surjective_pairing _) _ (surjective_pairing _))
                1 [CellGrid.mkOptions 0 0 2 None] _ _ _).
  - reflexivity.
  - vm_compute. apply list_elem_of_here.
  - discriminate.
  - intros opts Hin. vm_compute in Hin.
    apply list_elem_of_singleton in Hin. discriminate.
Defined.

(** * The same properties in [HighlightProvider] and in the cell store *)

(** [shiftGridHighlights] by zero is the identity as well. *)
Lemma shiftGridHighlights_zero (highlights : Provider.Highlights) (grid from : nat) :
  map_get (Provider.shiftGridHighlights highlights grid 0 from) grid
  = map_get highlights grid.
Proof.
  unfold Provider.shiftGridHighlights.
  destruct (map_get highlights grid) as [gridHl|] eqn:Hg; [|done].
  rewrite map_get_set. by rewrite decide_True.
Qed.

(** [shiftGridHighlights] by a positive amount moves the rows of the grid
    as [shiftHighlights] does. *)
Lemma shiftGridHighlights_positive (highlights : Provider.Highlights) (grid : nat)
    (by_ : Z) (from : nat) gridHl :
  (0 < by_)%Z ->
  map_get highlights grid = Some gridHl ->
  exists gridHl',
    map_get (Provider.shiftGridHighlights highlights grid by_ from) grid = Some gridHl' /\
    length gridHl' = length gridHl /\
    forall j, arr_get gridHl' j =
              if decide (j < from) then arr_get gridHl j
              else arr_get gridHl (j + Z.to_nat by_).
Proof.
  intros Hpos Hg. unfold Provider.shiftGridHighlights. rewrite Hg.
  exists (shiftHighlights gridHl by_ from). split.
  - rewrite map_get_set. by rewrite decide_True.
  - by apply shiftHighlights_up.
Qed.

(** The provider takes the raw cells and skips the continuation cell of a
    double-width character itself: the four cells of the spec's example
    leave three real columns. *)
Lemma provider_skips_continuation_cell :
  Provider.processHLCellsEvent (H := UnicodeText.providerUtils)
    [] 1 0 0 Examples.rawFourCells Examples.lineACatB 4
  = Some (Examples.providerACatB, true).
Proof. vm_compute. reflexivity. Qed.

(** The provider, too, returns [true] when it stores what is stored. *)
Lemma provider_true_on_identical_restore :
  Provider.processHLCellsEvent (H := UnicodeText.providerUtils)
    Examples.providerACatB 1 0 0 Examples.rawFourCells Examples.lineACatB 4
  = Some (Examples.providerACatB, true).
Proof. vm_compute. reflexivity. Qed.

(** The provider, too, appends to an unsettled previous column on every
    application. *)
Lemma provider_second_application_differs :
  Provider.processHLCellsEvent (H := UnicodeText.providerUtils)
    [] 1 0 3 [(ascii " ", Some 3%Z, None)] Examples.lineTabX 4
  = Some ([(1, [Some [Some [Provider.mkHl 3 (Some (ascii " "))]]])], false) /\
  Provider.processHLCellsEvent (H := UnicodeText.providerUtils)
    [(1, [Some [Some [Provider.mkHl 3 (Some (ascii " "))]]])]
    1 0 3 [(ascii " ", Some 3%Z, None)] Examples.lineTabX 4
  = Some ([(1, [Some [Some [Provider.mkHl 3 (Some (ascii " "));
                            Provider.mkHl 3 (Some (ascii " "))]]])], false).
Proof. vm_compute. split; reflexivity. Qed.

Section provider_refresh.
Context {Decorator Options : Type}.
Variable getDecoratorForHighlightId : Z -> option Decorator.

(** In [getGridHighlights], an id retained from the previous call that gets
    no options in this call has its decorator applied with the empty list,
    and the ids retained for the next call are those that got options. *)
Lemma getGridHighlights_clears_unused
    (hlId_options : jsmap Z (list Options)) (prevGridHighlightsIds : jsmap nat (list Z))
    (grid : nat) (prevHighlights : list Z) (id : Z) (decorator : Decorator) :
  map_get prevGridHighlightsIds grid = Some prevHighlights ->
  id ∈ prevHighlights ->
  map_has hlId_options id = false ->
  getDecoratorForHighlightId id = Some decorator ->
  (decorator, []) ∈ (Provider.getGridHighlights getDecoratorForHighlightId
                       hlId_options prevGridHighlightsIds grid).1 /\
  map_get (Provider.getGridHighlights getDecoratorForHighlightId
             hlId_options prevGridHighlightsIds grid).2 grid
  = Some (map_keys hlId_options).
Proof.
  intros Hprev Hid Hhas Hdec. unfold Provider.getGridHighlights. simpl. split.
  - rewrite Hprev.
    match goal with |- _ ∈ foldl _ ?acc0 _ => generalize acc0 end.
    intros acc.
    assert (Hor : (decorator, []) ∈ acc \/ id ∈ prevHighlights) by (by right).
    clear Hid Hprev. revert acc Hor.
    induction prevHighlights as [|id0 rest IH]; intros acc Hor; simpl.
    + destruct Hor as [?|Hin]; [done|]. by apply elem_of_nil in Hin.
    + apply IH. destruct Hor as [Hacc|Hin].
      * left. destruct (map_has hlId_options id0); [done|].
        destruct (getDecoratorForHighlightId id0); [|done].
        apply elem_of_app. by left.
      * apply elem_of_cons in Hin as [<-|Hin]; [|by right].
        left. rewrite Hhas, Hdec. apply elem_of_app. right.
        by apply list_elem_of_singleton.
  - rewrite map_get_set. by rewrite decide_True.
Qed.

End provider_refresh.

(** In the cell-based grid a cell run overwrites a stretch of the stored
    cells of the line: applying [handleGridLine] twice with the same
    arguments leaves the state that one application leaves. *)
Lemma handleGridLine_idempotent {Decorator Style : Type}
    (normalizeHighlightId : Z -> Z) (line vimCol : nat)
    (cells : list (jsstring * option Z * option nat))
    (st : CellGrid.GridState (Decorator := Decorator) (Style := Style)) :
  CellGrid.handleGridLine normalizeHighlightId line vimCol cells
    (CellGrid.handleGridLine normalizeHighlightId line vimCol cells st)
  = CellGrid.handleGridLine normalizeHighlightId line vimCol cells st.
Proof.
  unfold CellGrid.handleGridLine. simpl.
  set (redrawCells := (foldl _ ([], 0%Z) cells).1).
  set (prevCells := default [] (arr_get (CellGrid.lineCells st) line)).
  set (padded := if decide (length prevCells < vimCol)
                 then prevCells ++ replicate (vimCol - length prevCells) (mkCell [SPACE] 0)
                 else prevCells).
  assert (Hpad : vimCol <= length padded).
  { unfold padded. case_decide; [|lia]. rewrite length_app, length_replicate. lia. }
  set (leftCells := take vimCol padded).
  set (rightCells := drop (vimCol + length redrawCells) padded).
  assert (Hleft : length leftCells = vimCol).
  { unfold leftCells. rewrite length_take. lia. }
  rewrite arr_get_set, (decide_True (P := line = line)) by done. simpl.
  rewrite decide_False
    by (rewrite !length_app; lia).
  assert (Htake : take vimCol (leftCells ++ redrawCells ++ rightCells) = leftCells).
  { rewrite take_app_le by lia. rewrite take_ge by lia. done. }
  assert (Hdrop : drop (vimCol + length redrawCells) (leftCells ++ redrawCells ++ rightCells)
                  = rightCells).
  { rewrite drop_app_ge by lia. rewrite Hleft.
    replace (vimCol + length redrawCells - vimCol) with (length redrawCells) by lia.
    by rewrite drop_app_length. }
  rewrite Htake, Hdrop, arr_set_set. f_equal.
  apply list_filter_filter_l. done.
Qed.
(** * Further properties of the range builder *)

Lemma realColumn_id gridRow c id id' :
  realColumn gridRow c id -> realColumn gridRow c id' -> id = id'.
Proof. intros (h & Hh & _ & <-) (h' & Hh' & _ & <-). congruence. Qed.

Lemma realColumn_not_virtual gridRow c id hls :
  realColumn gridRow c id -> arr_get gridRow c = Some hls -> isVirtualColumn hls = false.
Proof.
  intros (h & Hh & Hv & _) Hc. rewrite Hh in Hc. injection Hc as <-.
  simpl. by rewrite Hv.
Qed.

Lemma not_virtual_real gridRow c h rest :
  arr_get gridRow c = Some (h :: rest) ->
  (1 <? length (h :: rest)) || truthy (virtText h) = false ->
  rest = [] /\ realColumn gridRow c (hlId (cell h)).
Proof.
  intros Hc Htest. apply orb_false_iff in Htest as [Hlen Hv].
  apply Nat.ltb_ge in Hlen. destruct rest; [|simpl in Hlen; lia].
  split; [done|]. by exists h.
Qed.

(** A hole is passed over. *)
Lemma rowBuilt_hole line gridRow K st :
  arr_get gridRow K = None ->
  rowBuilt line gridRow K st -> rowBuilt line gridRow (S K) st.
Proof.
  intros Hnone (Hres & Hopen & Hcov).
  assert (Hnot : forall id, ~ realColumn gridRow K id).
  { intros id (h & Hh & _). congruence. }
  split; [done|]. split.
  - destruct (currHighlight st) as [h0|].
    + destruct Hopen as (Hle & Hin & Hstart & Hafter). repeat split; try done; try lia.
      intros c id Hc. destruct (decide (c = K)) as [->|]; [done|]. apply Hafter. lia.
    + intros c id Hc. destruct (decide (c = K)) as [->|]; [done|]. apply Hopen. lia.
  - intros c Hc. destruct (decide (c = K)) as [->|]; [|apply Hcov; lia].
    split; [intros hls; congruence|]. intros id Hid. by destruct (Hnot id).
Qed.

(** A stored column is visited. *)
Lemma rowBuilt_column line gridRow K st h rest :
  arr_get gridRow K = Some (h :: rest) ->
  rowBuilt line gridRow K st ->
  exists st', visitColumn line st K (h :: rest) = Some st' /\
              rowBuilt line gridRow (S K) st'.
Proof.
  intros HK (Hres & Hopen & Hcov). unfold visitColumn.
  destruct ((1 <? length (h :: rest)) || truthy (virtText h)) eqn:Htest.
  - (* a virtual column *)
    eexists. split; [done|].
    assert (Hnot : forall id, ~ realColumn gridRow K id).
    { intros id Hid. pose proof (realColumn_not_virtual _ _ _ _ Hid HK) as Hv.
      unfold isVirtualColumn in Hv. congruence. }
    split; [|split]; simpl.
    + intros r [Hr|Hr%list_elem_of_singleton]%elem_of_app; [by apply Hres|].
      subst r. simpl. done.
    + destruct (currHighlight st) as [h0|].
      * destruct Hopen as (Hle & Hin & Hstart & Hafter). repeat split; try done; try lia.
        intros c id Hc. destruct (decide (c = K)) as [->|]; [done|]. apply Hafter. lia.
      * intros c id Hc. destruct (decide (c = K)) as [->|]; [done|]. apply Hopen. lia.
    + intros c Hc. destruct (decide (c = K)) as [->|].
      * split; [|intros id Hid; by destruct (Hnot id)].
        intros hls Hhls _. rewrite HK in Hhls. injection Hhls as <-.
        apply elem_of_app. right. by apply list_elem_of_singleton.
      * destruct (Hcov c ltac:(lia)) as [Hv Hr]. split.
        -- intros hls Hhls Hvirt. apply elem_of_app. left. by apply Hv.
        -- intros id Hid. destruct (Hr id Hid) as [(s & e & Hin & Hse)|Hcur].
           ++ left. exists s, e. split; [|done]. apply elem_of_app. by left.
           ++ by right.
  - (* a real column *)
    destruct (not_virtual_real _ _ _ _ HK Htest) as [-> Hreal].
    assert (Hid : forall id, realColumn gridRow K id -> id = hlId (cell h)).
    { intros id Hid. by apply (realColumn_id _ _ _ _ Hid). }
    assert (HnoV : forall hls, arr_get gridRow K = Some hls -> isVirtualColumn hls = true ->
                               False).
    { intros hls Hhls Hvirt. rewrite (realColumn_not_virtual _ _ _ _ Hreal Hhls) in Hvirt.
      done. }
    destruct (bool_decide _ && _) eqn:Hext.
    + (* the open range is extended *)
      apply andb_true_iff in Hext as [Hsame Hadj].
      apply bool_decide_eq_true in Hsame. apply Z.eqb_eq in Hadj.
      destruct (currHighlight st) as [h0|] eqn:Hcur; [|done].
      simpl in Hsame. injection Hsame as Hsame.
      destruct Hopen as (Hle & Hin & Hstart & Hafter).
      eexists. split; [done|]. split; [|split]; simpl.
      * done.
      * repeat split; try done; try lia.
        -- intros c Hc. destruct (decide (c = K)) as [->|]; [by rewrite Hsame|].
           apply Hin. lia.
      * intros c Hc. destruct (decide (c = K)) as [->|].
        -- split; [intros hls Hhls Hvirt; by destruct (HnoV hls)|].
           intros id Hidc. right. exists h0. rewrite (Hid id Hidc).
           repeat split; try done; lia.
        -- destruct (Hcov c ltac:(lia)) as [Hv Hr]. split; [done|].
           intros id Hidc. destruct (Hr id Hidc) as [Hemit|(h1 & Hh1 & Hid1 & Hrange)].
           ++ by left.
           ++ right. exists h1. repeat split; try done; lia.
    + (* the open range is closed and a new one starts *)
      eexists. split; [done|].
      assert (Hflush : forall r, r ∈ flushNormal line st -> rangeOfRow line gridRow r).
      { unfold flushNormal. destruct (currHighlight st) as [h0|] eqn:Hcur; [|done].
        destruct Hopen as (Hle & Hin & Hstart & Hafter).
        intros r [Hr|Hr%list_elem_of_singleton]%elem_of_app; [by apply Hres|].
        subst r. simpl. repeat split; try done; try lia.
        - intros c Hc. apply Hin. lia.
        - destruct (decide (S (currEndCol st) = K)) as [HSK|].
          + intros Hreal0. rewrite HSK in Hreal0. apply Hid in Hreal0.
            apply andb_false_iff in Hext as [Hne|Hne].
            * apply bool_decide_eq_false in Hne. apply Hne. simpl. by rewrite Hreal0.
            * apply Z.eqb_neq in Hne. lia.
          + apply Hafter. lia. }
      split; [|split]; simpl.
      * done.
      * repeat split; try done; try lia.
        -- intros c Hc. by replace c with K by lia.
        -- intros p Hp Hrealp. destruct (currHighlight st) as [h0|] eqn:Hcur.
           ++ destruct Hopen as (Hle & Hin & Hstart & Hafter).
              destruct (decide (currEndCol st = p)) as [Hep|].
              ** assert (Hreal0 : realColumn gridRow p (hlId (cell h0))) by (apply Hin; lia).
                 pose proof (realColumn_id _ _ _ _ Hrealp Hreal0) as Heq.
                 apply andb_false_iff in Hext as [Hne|Hne].
                 --- apply bool_decide_eq_false in Hne. apply Hne. simpl. by rewrite Heq.
                 --- apply Z.eqb_neq in Hne. lia.
              ** apply (Hafter p (hlId (cell h))); [lia|done].
           ++ apply (Hopen p (hlId (cell h))); [lia|done].
      * intros c Hc. destruct (decide (c = K)) as [->|].
        -- split; [intros hls Hhls Hvirt; by destruct (HnoV hls)|].
           intros id Hidc. right. exists h. rewrite (Hid id Hidc). repeat split; try done; lia.
        -- destruct (Hcov c ltac:(lia)) as [Hv Hr]. split.
           ++ intros hls Hhls Hvirt. unfold flushNormal.
              destruct (currHighlight st); [apply elem_of_app; left|]; by apply Hv.
           ++ intros id Hidc. left.
              destruct (Hr id Hidc) as [(s & e & Hin & Hse)|(h1 & Hh1 & Hid1 & Hrange)].
              ** exists s, e. split; [|done]. unfold flushNormal.
                 destruct (currHighlight st); [apply elem_of_app; left|]; done.
              ** exists (currStartCol st), (S (currEndCol st)). split; [|lia].
                 unfold flushNormal. rewrite Hh1. apply elem_of_app. right.
                 apply list_elem_of_singleton. by rewrite Hid1.
Qed.

(** The walk over the columns of a row that stores no empty list. *)
Lemma rowBuilt_loop line gridRow (suffix : GridRow) K st :
  (forall i, arr_get suffix i = arr_get gridRow (K + i)) ->
  (forall c, arr_get gridRow c <> Some []) ->
  rowBuilt line gridRow K st ->
  exists st', forEachM (visitColumn line) st (entries_from K suffix) = Some st' /\
              rowBuilt line gridRow (K + length suffix) st'.
Proof.
  intros Hsuf Hne. revert K st Hsuf.
  induction suffix as [|x suffix IH]; intros K st Hsuf Hst.
  - exists st. split; [done|]. simpl. by replace (K + 0) with K by lia.
  - assert (Hx : x = arr_get gridRow K).
    { specialize (Hsuf 0). by replace (K + 0) with K in Hsuf by lia. }
    assert (Hsuf' : forall i, arr_get suffix i = arr_get gridRow (S K + i)).
    { intros i. specialize (Hsuf (S i)).
      by replace (K + S i) with (S K + i) in Hsuf by lia. }
    replace (K + length (x :: suffix)) with (S K + length suffix) by (simpl; lia).
    destruct x as [hls|]; simpl.
    + destruct hls as [|h rest]; [by destruct (Hne K)|].
      destruct (rowBuilt_column line gridRow K st h rest) as (st1 & -> & Hst1); [done..|].
      simpl. by apply IH.
    + apply IH; [done|]. by apply rowBuilt_hole.
Qed.

Lemma rowBuilt_start line gridRow acc :
  acc = [] -> rowBuilt line gridRow 0 (mkBuild acc None 0 0).
Proof.
  intros ->. split; [|split]; simpl.
  - intros r Hr. by apply elem_of_nil in Hr.
  - intros c id Hc. lia.
  - intros c Hc. lia.
Qed.

(** The ranges of one row, when the walk starts with no range: they
    describe the row and account for all of its columns. *)
Lemma visitRow_ranges topLine r (gridRow : GridRow) :
  (forall c, arr_get gridRow c <> Some []) ->
  exists out, visitRow topLine [] r gridRow = Some out /\
    (forall x, x ∈ out -> rangeOfRow (Z.of_nat r + topLine)%Z gridRow x) /\
    (forall c, columnCovered (Z.of_nat r + topLine)%Z gridRow c out).
Proof.
  intros Hne. unfold visitRow, arr_entries.
  destruct (rowBuilt_loop (Z.of_nat r + topLine)%Z gridRow gridRow 0
              (mkBuild [] None 0 0)) as (st & -> & Hres & Hopen & Hcov);
    [done|done|by apply rowBuilt_start|].
  simpl in *. eexists. split; [done|].
  assert (Hpast : forall c id, length gridRow <= c -> ~ realColumn gridRow c id).
  { intros c id Hc (h & Hh & _). rewrite arr_get_ge in Hh by done. done. }
  unfold flushNormal. destruct (currHighlight st) as [h0|] eqn:Hcur.
  - destruct Hopen as (Hle & Hin & Hstart & Hafter). split.
    + intros x [Hx|Hx%list_elem_of_singleton]%elem_of_app; [by apply Hres|].
      subst x. simpl. repeat split; try done; try lia.
      * intros c Hc. apply Hin. lia.
      * destruct (decide (S (currEndCol st) < length gridRow)).
        -- apply Hafter. lia.
        -- apply Hpast. lia.
    + intros c. destruct (decide (c < length gridRow)) as [Hc|Hc].
      * destruct (Hcov c Hc) as [Hv Hr]. split.
        -- intros hls Hhls Hvirt. apply elem_of_app. left. by apply Hv.
        -- intros id Hid.
           destruct (Hr id Hid) as [(s & e & Hin' & Hse)|(h1 & [= <-] & Hid1 & Hrange)].
           ++ exists s, e. split; [|done]. apply elem_of_app. by left.
           ++ exists (currStartCol st), (S (currEndCol st)). split; [|lia].
              apply elem_of_app. right. apply list_elem_of_singleton. by rewrite Hid1.
      * split.
        -- intros hls Hhls. rewrite arr_get_ge in Hhls by lia. done.
        -- intros id Hid. destruct (Hpast c id); [lia|done].
  - split; [done|]. intros c. destruct (decide (c < length gridRow)) as [Hc|Hc].
    + destruct (Hcov c Hc) as [Hv Hr]. split; [done|].
      intros id Hid. destruct (Hr id Hid) as [Hemit|(h1 & [=] & _)]. done.
    + split.
      * intros hls Hhls. rewrite arr_get_ge in Hhls by lia. done.
      * intros id Hid. destruct (Hpast c id); [lia|done].
Qed.

(** The ranges that a row adds do not depend on the ranges before it. *)
Lemma visitColumn_acc line acc st col hls :
  visitColumn line (mkBuild (acc ++ res st) (currHighlight st) (currStartCol st)
                            (currEndCol st)) col hls
  = (fun st' => mkBuild (acc ++ res st') (currHighlight st') (currStartCol st')
                        (currEndCol st'))
    <$> visitColumn line st col hls.
Proof.
  unfold visitColumn, flushNormal. destruct hls as [|h rest]; [done|]. simpl.
  repeat match goal with
         | |- context [if ?b then _ else _] => destruct b
         end; simpl; try done.
  - by rewrite app_assoc.
  - destruct (currHighlight st); simpl; by rewrite ?app_assoc.
Qed.

Lemma forEachM_visitColumn_acc line acc entries st :
  forEachM (visitColumn line)
    (mkBuild (acc ++ res st) (currHighlight st) (currStartCol st) (currEndCol st)) entries
  = (fun st' => mkBuild (acc ++ res st') (currHighlight st') (currStartCol st')
                        (currEndCol st'))
    <$> forEachM (visitColumn line) st entries.
Proof.
  revert st. induction entries as [|[col hls] entries IH]; intros st; [done|].
  simpl. rewrite visitColumn_acc.
  destruct (visitColumn line st col hls) as [st1|]; [|done]. simpl. apply IH.
Qed.

Lemma visitRow_acc topLine acc r gridRow :
  visitRow topLine acc r gridRow = (acc ++.) <$> visitRow topLine [] r gridRow.
Proof.
  unfold visitRow.
  pose proof (forEachM_visitColumn_acc (Z.of_nat r + topLine)%Z acc
                (arr_entries gridRow) (mkBuild [] None 0 0)) as Hacc.
  simpl in Hacc. rewrite app_nil_r in Hacc. rewrite Hacc.
  destruct (forEachM _ (mkBuild [] None 0 0) _) as [st|]; [|done]. simpl.
  unfold flushNormal. simpl. destruct (currHighlight st); by rewrite ?app_assoc.
Qed.

(** The exception of the range builder: a stored column that is an empty
    list. *)
Lemma forEachM_visitColumn_None line (suffix : GridRow) K st :
  forEachM (visitColumn line) st (entries_from K suffix) = None
  <-> exists i, arr_get suffix i = Some [].
Proof.
  split.
  - intros Hnone. destruct (decide (Exists (fun o => o = Some []) suffix)) as [Hex|Hall].
    + apply Exists_exists in Hex as (o & Ho & ->).
      apply list_elem_of_lookup in Ho as [i Hi]. exists i. unfold arr_get. by rewrite Hi.
    + destruct (forEachM_visitColumn_total line suffix K st) as [st' Hst'];
        [|congruence].
      intros i Hi. apply Hall. apply Exists_exists. exists (Some []). split; [|done].
      unfold arr_get in Hi. destruct (suffix !! i) as [o|] eqn:Ho; [|done].
      simpl in Hi. subst o. by eapply list_elem_of_lookup_2.
  - revert K st. induction suffix as [|x suffix IH]; intros K st [i Hi]; [by destruct i|].
    destruct i as [|i].
    + unfold arr_get in Hi. simpl in Hi. by subst x.
    + assert (Hrest : exists i, arr_get suffix i = Some []) by (by exists i).
      destruct x as [hls|]; simpl; [|by apply IH].
      destruct (visitColumn line st K hls); simpl; [by apply IH|done].
Qed.

Lemma visitRow_None topLine acc r (gridRow : GridRow) :
  visitRow topLine acc r gridRow = None <-> exists c, arr_get gridRow c = Some [].
Proof.
  unfold visitRow. rewrite <- (forEachM_visitColumn_None (Z.of_nat r + topLine)%Z
                                 gridRow 0 (mkBuild acc None 0 0)).
  unfold arr_entries. destruct (forEachM _ _ _); simpl; split; done.
Qed.

(** The walk over the rows: the result is the ranges before it followed by
    the ranges of every row, and it fails on the first row that throws. *)
Lemma forEachM_visitRow_None topLine (suffix : Grid) K acc :
  forEachM (visitRow topLine) acc (entries_from K suffix) = None
  <-> exists i gridRow c, arr_get suffix i = Some gridRow /\ arr_get gridRow c = Some [].
Proof.
  revert K acc. induction suffix as [|x suffix IH]; intros K acc.
  - split; [done|]. by intros ([|i] & ? & ? & ? & _).
  - destruct x as [gridRow|]; simpl.
    + destruct (visitRow topLine acc K gridRow) as [out|] eqn:Hrow; simpl.
      * rewrite IH. split.
        -- intros (i & row' & c & Hi & Hc). by exists (S i), row', c.
        -- intros ([|i] & row' & c & Hi & Hc); [|by exists i, row', c].
           unfold arr_get in Hi. simpl in Hi. injection Hi as <-.
           assert (visitRow topLine acc K gridRow = None) by (apply visitRow_None; eauto).
           congruence.
      * split; [|done]. intros _. apply visitRow_None in Hrow as [c Hc].
        by exists 0, gridRow, c.
    + rewrite IH. split.
      * intros (i & row' & c & Hi & Hc). by exists (S i), row', c.
      * intros ([|i] & row' & c & Hi & Hc); [done|]. by exists i, row', c.
Qed.

Lemma forEachM_visitRow_elem_of topLine (suffix : Grid) K acc out :
  forEachM (visitRow topLine) acc (entries_from K suffix) = Some out ->
  forall x, x ∈ out <->
    x ∈ acc \/
    exists i gridRow rowOut, arr_get suffix i = Some gridRow /\
      visitRow topLine [] (K + i) gridRow = Some rowOut /\ x ∈ rowOut.
Proof.
  revert K acc. induction suffix as [|x0 suffix IH]; intros K acc Hout x.
  - simpl in Hout. injection Hout as <-. split; [by left|].
    intros [Hx|([|i] & ? & ? & ? & _)]; done.
  - destruct x0 as [gridRow|]; simpl in Hout.
    + rewrite visitRow_acc in Hout.
      destruct (visitRow topLine [] K gridRow) as [rowOut|] eqn:Hrow; [|done].
      simpl in Hout. rewrite (IH _ _ Hout x), elem_of_app. split.
      * intros [[Hx|Hx]|(i & row' & out' & Hi & Hrow' & Hx)].
        -- by left.
        -- right. exists 0, gridRow, rowOut. by replace (K + 0) with K by lia.
        -- right. exists (S i), row', out'.
           by replace (K + S i) with (S K + i) by lia.
      * intros [Hx|([|i] & row' & out' & Hi & Hrow' & Hx)].
        -- left. by left.
        -- unfold arr_get in Hi. simpl in Hi. injection Hi as <-.
           replace (K + 0) with K in Hrow' by lia. left. right. congruence.
        -- right. exists i, row', out'.
           by replace (K + S i) with (S K + i) in Hrow' by lia.
    + rewrite (IH _ _ Hout x). split.
      * intros [Hx|(i & row' & out' & Hi & Hrow' & Hx)]; [by left|].
        right. exists (S i), row', out'. by replace (K + S i) with (S K + i) by lia.
      * intros [Hx|([|i] & row' & out' & Hi & Hrow' & Hx)]; [by left|done|].
        right. exists i, row', out'.
        by replace (K + S i) with (S K + i) in Hrow' by lia.
Qed.

(** The top line only moves the ranges. *)
Lemma visitColumn_shiftLine line t st col hls :
  visitColumn (line + t) (mkBuild (shiftLine t <$> res st) (currHighlight st)
                                  (currStartCol st) (currEndCol st)) col hls
  = (fun st' => mkBuild (shiftLine t <$> res st') (currHighlight st') (currStartCol st')
                        (currEndCol st'))
    <$> visitColumn line st col hls.
Proof.
  unfold visitColumn, flushNormal. destruct hls as [|h rest]; [done|]. simpl.
  repeat match goal with
         | |- context [if ?b then _ else _] => destruct b
         end; simpl; try done.
  - by rewrite fmap_app.
  - destruct (currHighlight st); simpl; by rewrite ?fmap_app.
Qed.

Lemma forEachM_visitColumn_shiftLine line t entries st :
  forEachM (visitColumn (line + t))
    (mkBuild (shiftLine t <$> res st) (currHighlight st) (currStartCol st) (currEndCol st))
    entries
  = (fun st' => mkBuild (shiftLine t <$> res st') (currHighlight st') (currStartCol st')
                        (currEndCol st'))
    <$> forEachM (visitColumn line) st entries.
Proof.
  revert st. induction entries as [|[col hls] entries IH]; intros st; [done|].
  simpl. rewrite visitColumn_shiftLine.
  destruct (visitColumn line st col hls) as [st1|]; [|done]. simpl. apply IH.
Qed.

Lemma visitRow_shiftLine t (acc : list HighlightRange) r gridRow :
  visitRow t (shiftLine t <$> acc) r gridRow
  = fmap (M := list) (shiftLine t) <$> visitRow 0 acc r gridRow.
Proof.
  unfold visitRow.
  replace (Z.of_nat r + t)%Z with (Z.of_nat r + 0 + t)%Z by lia.
  pose proof (forEachM_visitColumn_shiftLine (Z.of_nat r + 0)%Z t
                (arr_entries gridRow) (mkBuild acc None 0 0)) as Hshift.
  simpl in Hshift. rewrite Hshift.
  destruct (forEachM _ (mkBuild acc None 0 0) _) as [st|]; [|done]. simpl.
  unfold flushNormal. simpl. destruct (currHighlight st); by rewrite ?fmap_app.
Qed.

Lemma forEachM_visitRow_shiftLine t entries (acc : list HighlightRange) :
  forEachM (visitRow t) (shiftLine t <$> acc) entries
  = fmap (M := list) (shiftLine t) <$> forEachM (visitRow 0) acc entries.
Proof.
  revert acc. induction entries as [|[r gridRow] entries IH]; intros acc; [done|].
  simpl. rewrite visitRow_shiftLine.
  destruct (visitRow 0 acc r gridRow) as [out|]; [|done]. simpl. apply IH.
Qed.

(** Rows on other lines keep their ranges when the ranges of one line are
    filtered out. *)
Lemma filter_line_other line line' (new : list HighlightRange) :
  line' <> line ->
  Forall (fun x => rangeLine x = line') new ->
  filter (fun x => rangeLine x <> line) new = new.
Proof.
  intros Hne Hall. induction Hall as [|x new Hx _ IH]; [done|].
  rewrite filter_cons, IH. by rewrite decide_True by congruence.
Qed.

Lemma filter_line_same line (new : list HighlightRange) :
  Forall (fun x => rangeLine x = line) new ->
  filter (fun x => rangeLine x <> line) new = [].
Proof.
  intros Hall. induction Hall as [|x new Hx _ IH]; [done|].
  rewrite filter_cons, IH. by rewrite decide_False by (intros Hne; by apply Hne).
Qed.

Lemma forEachM_visitRow_other topLine r (suffix : Grid) K acc out :
  (forall i, i < length suffix -> K + i <> r) ->
  forEachM (visitRow topLine) acc (entries_from K suffix) = Some out ->
  forEachM (visitRow topLine) (filter (fun x => rangeLine x <> (Z.of_nat r + topLine)%Z) acc)
    (entries_from K suffix)
  = Some (filter (fun x => rangeLine x <> (Z.of_nat r + topLine)%Z) out).
Proof.
  revert K acc. induction suffix as [|x0 suffix IH]; intros K acc Hother Hout.
  - simpl in *. congruence.
  - assert (Hother' : forall i, i < length suffix -> S K + i <> r).
    { intros i Hi. specialize (Hother (S i)). simpl in Hother. lia. }
    assert (HK : K <> r). { specialize (Hother 0). simpl in Hother. lia. }
    destruct x0 as [gridRow|]; simpl in *; [|by apply IH].
    destruct (visitRow topLine acc K gridRow) as [out1|] eqn:Hrow; [|done].
    simpl in Hout. pose proof Hrow as Hrow0. rewrite visitRow_acc in Hrow0.
    rewrite visitRow_acc.
    destruct (visitRow topLine [] K gridRow) as [new|] eqn:Hnew; [|done].
    simpl in *. injection Hrow0 as <-.
    apply visitRow_res in Hnew as (new' & -> & Hline). simpl in Hline.
    specialize (IH (S K) (acc ++ new') Hother' Hout).
    by rewrite filter_app, (filter_line_other _ (Z.of_nat K + topLine)%Z new') in IH
      by (done || lia).
Qed.

Lemma forEachM_visitRow_cleaned topLine (suffix : Grid) K i acc out :
  i < length suffix ->
  forEachM (visitRow topLine) acc (entries_from K suffix) = Some out ->
  forEachM (visitRow topLine)
    (filter (fun x => rangeLine x <> (Z.of_nat (K + i) + topLine)%Z) acc)
    (entries_from K (<[i := None]> suffix))
  = Some (filter (fun x => rangeLine x <> (Z.of_nat (K + i) + topLine)%Z) out).
Proof.
  revert K i acc. induction suffix as [|x0 suffix IH]; intros K i acc Hi Hout.
  - simpl in Hi. lia.
  - destruct i as [|i]; simpl.
    + replace (K + 0) with K by lia.
      destruct x0 as [gridRow|]; simpl in Hout.
      * destruct (visitRow topLine acc K gridRow) as [out1|] eqn:Hrow; [|done].
        simpl in Hout. apply visitRow_res in Hrow as (new & -> & Hline).
        apply (forEachM_visitRow_other topLine K) in Hout; [|intros; lia].
        by rewrite filter_app, (filter_line_same _ new), app_nil_r in Hout.
      * apply (forEachM_visitRow_other topLine K) in Hout; [done|intros; lia].
    + replace (K + S i) with (S K + i) by lia. simpl in Hi.
      destruct x0 as [gridRow|]; simpl in *; [|apply (IH (S K) i); [lia|done]].
      destruct (visitRow topLine acc K gridRow) as [out1|] eqn:Hrow; [|done].
      simpl in Hout. pose proof Hrow as Hrow0. rewrite visitRow_acc in Hrow0.
      rewrite visitRow_acc.
      destruct (visitRow topLine [] K gridRow) as [new|] eqn:Hnew; [|done].
      simpl in *. injection Hrow0 as <-.
      apply visitRow_res in Hnew as (new' & -> & Hline). simpl in Hline.
      apply (IH (S K) i) in Hout; [|lia].
      by rewrite filter_app, (filter_line_other _ (Z.of_nat K + topLine)%Z new') in Hout
        by (done || lia).
Qed.

(** Every range describes a stored row. *)
Lemma buildHighlightRanges_rangeOfRow (grid : Grid) (topLine : Z)
    (out : list HighlightRange) (x : HighlightRange) :
  buildHighlightRanges grid topLine = Some out ->
  x ∈ out ->
  exists r gridRow, arr_get grid r = Some gridRow /\
    rangeOfRow (Z.of_nat r + topLine)%Z gridRow x.
Proof.
  intros Hout Hx. unfold buildHighlightRanges, arr_entries in Hout.
  apply (forEachM_visitRow_elem_of _ _ _ _ _ Hout) in Hx
    as [Hx|(r & gridRow & rowOut & Hr & Hrow & Hx)]; [by apply elem_of_nil in Hx|].
  exists r, gridRow. split; [done|].
  destruct (visitRow_ranges topLine r gridRow) as (rowOut' & Hrow' & Hsound & _).
  - intros c Hc.
    assert (visitRow topLine [] r gridRow = None) by (apply visitRow_None; eauto).
    simpl in Hrow. congruence.
  - simpl in Hrow. rewrite Hrow in Hrow'. injection Hrow' as <-. by apply Hsound.
Qed.

(** On a grid that keeps the stored-column invariant the builder returns
    ranges of highlights other than the default one. *)
Lemma noHighlight_false_exists (hls : list Highlight) :
  noHighlight hls = false -> exists h, h ∈ hls /\ hlId (cell h) <> 0%Z.
Proof.
  unfold noHighlight. intros [_ Hex]%orb_false_iff.
  apply negb_false_iff, existsb_exists in Hex as (h & Hin & Hid).
  exists h. split; [by apply list_elem_of_In|].
  apply negb_true_iff, Z.eqb_neq in Hid. done.
Qed.

Lemma buildHighlightRanges_invariant (grid : Grid) (topLine : Z) :
  gridInvariant grid ->
  exists out,
    buildHighlightRanges grid topLine = Some out /\
    forall x, x ∈ out ->
      match x with
      | NormalRange id _ _ _ => id <> 0%Z
      | VirtualRange hls _ _ => exists h, h ∈ hls /\ hlId (cell h) <> 0%Z
      end.
Proof.
  intros Hinv.
  destruct (buildHighlightRanges grid topLine) as [out|] eqn:Hout.
  - exists out. split; [done|]. intros x Hx.
    destruct (buildHighlightRanges_rangeOfRow grid topLine out x Hout Hx)
      as (r & gridRow & Hr & Hrange).
    destruct x as [id line s e|hls line col]; simpl in Hrange.
    + destruct Hrange as (_ & Hse & Hreal & _).
      destruct (Hreal s ltac:(lia)) as (h & Hh & _ & <-).
      apply (Hinv r gridRow Hr) in Hh.
      apply noHighlight_false_exists in Hh as (h' & ->%list_elem_of_singleton & Hid).
      done.
    + destruct Hrange as (_ & Hcol & _).
      apply (Hinv r gridRow Hr) in Hcol. by apply noHighlight_false_exists.
  - apply forEachM_visitRow_None in Hout as (r & gridRow & c & Hr & Hc).
    by apply (Hinv r gridRow Hr) in Hc.
Qed.
(** * Shifting rows down *)

Lemma foldl_reverse_foldr {A B} (f : B -> A -> B) (b : B) (l : list A) :
  foldl f b (reverse l) = foldr (fun x acc => f acc x) b l.
Proof.
  revert b. induction l as [|x l IH]; intros b; [done|].
  rewrite reverse_cons, foldl_app. simpl. by rewrite IH.
Qed.

Section shift_down.
Context {A : Type}.
Variables (g1 : sparse A) (from b : nat).
Hypothesis Hb : 0 < b.

Lemma shiftedDownTo_loop (suffix : sparse A) K :
  (forall i, arr_get suffix i = arr_get g1 (K + i)) ->
  (forall j, K + length suffix <= j -> arr_get g1 j = None) ->
  let h := foldr (fun idx g => moveDown from b g idx) g1 (entries_from K suffix).*1 in
  shiftedDownTo g1 from b K h /\
  length g1 <= length h /\
  (length h = length g1 \/ is_Some (arr_get h (length h - 1))).
Proof using Hb.
  revert K. induction suffix as [|x suffix IH]; intros K Hsuf Hend.
  - simpl in *. split; [|by split; [|left]]. intros j.
    destruct (decide (j < K)); [done|].
    destruct (decide (j <= from)); [done|].
    rewrite (Hend j) by lia. case_decide; [|done]. rewrite Hend; [done|lia].
  - assert (Hx : x = arr_get g1 K).
    { specialize (Hsuf 0). by replace (K + 0) with K in Hsuf by lia. }
    assert (Hsuf' : forall i, arr_get suffix i = arr_get g1 (S K + i)).
    { intros i. specialize (Hsuf (S i)). by replace (K + S i) with (S K + i) in Hsuf by lia. }
    specialize (IH (S K) Hsuf').
    destruct IH as (Hinv & Hlen & Hlast).
    { intros j Hj. apply Hend. simpl. lia. }
    set (h := foldr _ g1 _) in *.
    destruct x as [r|].
    + assert (Hfold : foldr (fun idx g => moveDown from b g idx) g1
                        (entries_from K (Some r :: suffix)).*1
                      = moveDown from b h K) by done.
      rewrite Hfold. clear Hfold. clearbody h.
      unfold moveDown. destruct (decide (K <= from)) as [Hle|Hgt].
      * split; [|done]. intros j. rewrite Hinv.
        destruct (decide (j < K)); [by rewrite decide_True by lia|].
        destruct (decide (j < S K)); [by rewrite decide_True by lia|].
        destruct (decide (j <= from)); [done|].
        repeat case_decide; try done; lia.
      * assert (HhK : arr_get h K = Some r).
        { rewrite Hinv. by rewrite decide_True by lia. }
        unfold moveRow. rewrite HhK.
        replace (0 <=? Z.of_nat K + Z.of_nat b)%Z with true by lia.
        replace (Z.to_nat (Z.of_nat K + Z.of_nat b)) with (K + b) by lia.
        assert (Hget : forall j, arr_get (arr_delete (arr_set h (K + b) r) K) j
                  = if decide (j = K) then None
                    else if decide (j = K + b) then Some r else arr_get h j).
        { intros j. by rewrite arr_get_delete, arr_get_set. }
        split; [|split].
        -- intros j. rewrite Hget, Hinv.
           destruct (decide (j = K)) as [->|HjK].
           { rewrite decide_False by lia. rewrite decide_False by lia.
             by rewrite decide_False by lia. }
           destruct (decide (j = K + b)) as [->|Hjb].
           { rewrite decide_False by lia. rewrite decide_False by lia.
             rewrite decide_True by lia. by replace (K + b - b) with K by lia. }
           destruct (decide (j < K)); [by rewrite decide_True by lia|].
           rewrite (decide_False (P := j < S K)) by lia.
           destruct (decide (j <= from)); [done|].
           repeat case_decide; try done; lia.
        -- rewrite length_arr_delete, length_arr_set. lia.
        -- rewrite length_arr_delete, length_arr_set, Hget.
           destruct (decide (K + b < length h)) as [Hin|Hout].
           ++ replace (Nat.max (length h) (S (K + b))) with (length h) by lia.
              destruct Hlast as [Hl|Hl]; [by left|right].
              rewrite decide_False by lia. by case_decide.
           ++ right. replace (Nat.max (length h) (S (K + b)) - 1) with (K + b) by lia.
              rewrite decide_False by lia. by rewrite decide_True.
    + change (shiftedDownTo g1 from b K h /\ length g1 <= length h /\
              (length h = length g1 \/ is_Some (arr_get h (length h - 1)))).
      split; [|done]. intros j. rewrite Hinv.
      destruct (decide (j < K)); [by rewrite decide_True by lia|].
      destruct (decide (j < S K)).
      { assert (j = K) as -> by lia. rewrite <- Hx.
        destruct (decide (K <= from)); [done|]. by rewrite decide_False by lia. }
      destruct (decide (j <= from)); [done|].
      destruct (decide (j = K + b)) as [->|].
      { rewrite decide_False by lia. replace (K + b - b) with K by lia. rewrite <- Hx.
        by case_decide. }
      repeat case_decide; try done; lia.
Qed.

End shift_down.

(** The rows that the negative branch deletes first. *)
Lemma foldl_deleteAt_from {A} (a : sparse A) from n :
  from <> 0 ->
  length (foldl (fun g i => deleteAt g (if decide (from <> 0)%nat then Z.of_nat (from + i)
                                        else (Z.of_nat (length g) - 1 - Z.of_nat i)%Z))
                a (seq 0 n)) = length a /\
  forall j,
    arr_get (foldl (fun g i => deleteAt g (if decide (from <> 0)%nat then Z.of_nat (from + i)
                                           else (Z.of_nat (length g) - 1 - Z.of_nat i)%Z))
                   a (seq 0 n)) j =
    if decide (from <= j < from + n) then None else arr_get a j.
Proof.
  intros Hfrom. induction n as [|n [IHl IHg]].
  - simpl. split; [done|]. intros j. case_decide; [lia|done].
  - rewrite seq_S, foldl_app. simpl. rewrite decide_True by done.
    set (g := foldl _ a (seq 0 n)) in *. clearbody g.
    unfold deleteAt. rewrite (proj2 (Z.leb_le 0 (Z.of_nat (from + n)))) by lia.
    rewrite Nat2Z.id. split.
    + by rewrite length_arr_delete.
    + intros j. rewrite arr_get_delete, IHg.
      repeat case_decide; try done; lia.
Qed.

Lemma foldl_deleteAt_end {A} (a : sparse A) n :
  length (foldl (fun g i => deleteAt g (if decide (0 <> 0)%nat then Z.of_nat (0 + i)
                                        else (Z.of_nat (length g) - 1 - Z.of_nat i)%Z))
                a (seq 0 n)) = length a /\
  forall j,
    arr_get (foldl (fun g i => deleteAt g (if decide (0 <> 0)%nat then Z.of_nat (0 + i)
                                           else (Z.of_nat (length g) - 1 - Z.of_nat i)%Z))
                   a (seq 0 n)) j =
    if decide (length a <= j + n) then None else arr_get a j.
Proof.
  induction n as [|n [IHl IHg]].
  - simpl. split; [done|]. intros j. case_decide; [|done]. apply arr_get_ge. lia.
  - rewrite seq_S, foldl_app. simpl in *.
    set (g := foldl _ a (seq 0 n)) in *. clearbody g. unfold deleteAt.
    destruct (0 <=? Z.of_nat (length g) - 1 - Z.of_nat n)%Z eqn:Hpos.
    + apply Z.leb_le in Hpos.
      replace (Z.to_nat (Z.of_nat (length g) - 1 - Z.of_nat n)) with (length g - 1 - n)
        by lia.
      split; [by rewrite length_arr_delete|].
      intros j. rewrite arr_get_delete, IHg.
      repeat case_decide; try done; lia.
    + apply Z.leb_gt in Hpos. split; [done|].
      intros j. rewrite IHg. repeat case_decide; try done; lia.
Qed.

(** The negative branch of [shiftHighlights], after its first loop has
    produced [g1]. *)
Lemma shiftHighlights_down_loop {A} (g1 : sparse A) from b :
  0 < b ->
  (forall j,
     arr_get (foldl (moveDown from b) g1 (reverse (rowIndices g1))) j =
     if decide (j <= from) then arr_get g1 j
     else if decide (from + b < j) then arr_get g1 (j - b)
     else None) /\
  length g1 <= length (foldl (moveDown from b) g1 (reverse (rowIndices g1))) /\
  (length (foldl (moveDown from b) g1 (reverse (rowIndices g1))) = length g1 \/
   is_Some (arr_get (foldl (moveDown from b) g1 (reverse (rowIndices g1)))
              (length (foldl (moveDown from b) g1 (reverse (rowIndices g1))) - 1))).
Proof.
  intros Hb. rewrite foldl_reverse_foldr. unfold rowIndices, arr_entries.
  destruct (shiftedDownTo_loop g1 from b Hb g1 0) as (Hinv & Hlen & Hlast).
  - done.
  - intros j' Hj'. apply arr_get_ge. simpl in Hj'. lia.
  - split; [|done]. intros j. rewrite Hinv.
    rewrite decide_False by lia. destruct (decide (j <= from)); [done|].
    repeat case_decide; try done; lia.
Qed.
(** * Further properties of the cell-run processor *)

Lemma lastVisit_elem_of visits j hls :
  lastVisit visits j = Some hls -> (j, hls) ∈ visits.
Proof.
  induction visits as [|[c h] rest IH]; [done|]. simpl.
  destruct (lastVisit rest j) as [h'|].
  - intros [= <-]. right. by apply IH.
  - case_decide; [|done]. intros [= <-]. subst c. left.
Qed.

Lemma elem_of_sliceTo {A} (n : Z) (l : list A) x : x ∈ sliceTo n l -> x ∈ l.
Proof.
  unfold sliceTo. destruct (0 <=? n)%Z; intros (i & Hi & _)%elem_of_take;
    by eapply list_elem_of_lookup_2.
Qed.

Section cells_facts.
Context `{TextUtils}.

Lemma next_elem_of it c : (next it).1 = Some c -> c ∈ _cells it.
Proof. unfold next. simpl. apply list_elem_of_lookup_2. Qed.

(** The entries that the tab loop and the loop of the previous-column region
    add carry cells of the iterator. *)
Lemma takeVirtual_cells n it hls h :
  h ∈ (takeVirtual n it hls).1 -> h ∈ hls \/ cell h ∈ _cells it.
Proof.
  revert it hls. induction n as [|n IH]; intros it hls; simpl; [by left|].
  intros Hh. apply IH in Hh as [Hh|Hh]; [|by right].
  destruct (_cells it !! _index it) as [c|] eqn:Hc; [|by left].
  unfold add in Hh. apply elem_of_app in Hh as [Hh|Hh%list_elem_of_singleton]; [by left|].
  subst h. right. simpl. by eapply list_elem_of_lookup_2.
Qed.

(** Every entry that an iteration of the walk computes carries the current
    cell or another cell of the iterator. *)
Lemma cellStep_cells lineChars filled tabSize it c col h :
  h ∈ (cellStep lineChars filled tabSize it c col).1.1.2 ->
  cell h = c \/ cell h ∈ _cells it.
Proof.
  unfold cellStep, add.
  destruct (decide (filled !! col = Some TAB)).
  - destruct (takeVirtual _ it _) as [hls it'] eqn:Htake. simpl.
    intros Hh. change hls with (hls, it').1 in Hh. rewrite <- Htake in Hh.
    apply takeVirtual_cells in Hh as [Hh%list_elem_of_singleton|Hh]; [|by right].
    subst h. by left.
  - destruct (truthy _ && isDouble _).
    + destruct (decide (filled !! col = Some (text c))); simpl.
      { intros Hh%list_elem_of_singleton. subst h. by left. }
      destruct (isDouble (text c)); simpl.
      { intros Hh%list_elem_of_singleton. subst h. by left. }
      unfold next. simpl.
      destruct (_cells it !! _index it) as [nc|] eqn:Hnc; simpl;
        destruct (decide _); simpl; intros Hh;
        repeat match goal with
               | Hh : _ ∈ _ ++ _ |- _ => apply elem_of_app in Hh as [Hh|Hh]
               | Hh : _ ∈ _ :: _ |- _ => apply elem_of_cons in Hh as [Hh|Hh]
               | Hh : _ ∈ [] |- _ => by apply elem_of_nil in Hh
               end; subst h; simpl;
        first [by left | right; by eapply list_elem_of_lookup_2].
    + destruct (decide (filled !! col = Some (text c))); simpl;
        intros Hh%list_elem_of_singleton; subst h; by left.
Qed.

Lemma walkVisits_cells fuel lineChars filled tabSize it col v c hls h :
  walkVisits fuel lineChars filled tabSize it col = Some v ->
  (c, hls) ∈ v -> h ∈ hls -> cell h ∈ _cells it.
Proof.
  revert it col v. induction fuel as [|fuel IH]; intros it col v; simpl.
  - destruct (_cells it !! _index it); [done|]. intros [= <-] Hin.
    by apply elem_of_nil in Hin.
  - destruct (_cells it !! _index it) as [c0|] eqn:Hc0;
      [|intros [= <-] Hin; by apply elem_of_nil in Hin].
    pose proof (cellStep_cells lineChars filled tabSize
                  (mkIter (_cells it) (S (_index it))) c0 col h) as Hstep.
    pose proof (cellStep_iter lineChars filled tabSize
                  (mkIter (_cells it) (S (_index it))) c0 col) as [Hcells _].
    destruct (cellStep _ _ _ _ c0 col) as [[[hlCol hls0] col'] it'].
    simpl in Hstep, Hcells.
    destruct (walkVisits fuel lineChars filled tabSize it' (S col')) as [rest|] eqn:Hrest;
      [|done].
    intros [= <-] Hin Hh. apply elem_of_cons in Hin as [[= -> ->]|Hin].
    + destruct (Hstep Hh) as [->|Hc]; [|done]. by eapply list_elem_of_lookup_2.
    + rewrite <- Hcells. by eapply IH.
Qed.

End cells_facts.
(** * The largest stored column, and the cell iterator *)

Lemma foldl_max_col {A} (entries : list (nat * A)) m0 :
  let m := foldl (fun currMaxCol '(col, _) =>
                    if decide (currMaxCol < col) then col else currMaxCol) m0 entries in
  m0 <= m /\
  (forall col x, (col, x) ∈ entries -> col <= m) /\
  (m = m0 \/ exists x, (m, x) ∈ entries).
Proof.
  revert m0. induction entries as [|[col x] entries IH]; intros m0; simpl.
  - split; [done|]. split; [|by left]. intros col x Hin. by apply elem_of_nil in Hin.
  - destruct (IH (if decide (m0 < col) then col else m0)) as (Hle & Hall & Hcase).
    split; [case_decide; lia|]. split.
    + intros col' x' [[= -> ->]|Hin]%elem_of_cons; [case_decide; lia|by eapply Hall].
    + destruct Hcase as [Heq|[x' Hin]].
      * case_decide; [|by left]. right. exists x. rewrite Heq. left.
      * right. exists x'. by right.
Qed.

Lemma next_iter_index k it :
  _cells (Nat.iter k (fun it => (next it).2) it) = _cells it /\
  _index (Nat.iter k (fun it => (next it).2) it) = _index it + k.
Proof.
  induction k as [|k [IHc IHi]]; [simpl; split; [done|lia]|].
  change (Nat.iter (S k) (fun it => (next it).2) it)
    with ((next (Nat.iter k (fun it => (next it).2) it)).2).
  rewrite next_cells, next_index, IHc, IHi. split; [done|lia].
Qed.
(** * Further properties of the cell-based grid *)

Section jsmap_more.
Context {K V : Type} `{EqDecision K}.

Lemma map_get_delete (m : jsmap K V) k k' :
  map_get (filter (fun kv => kv.1 <> k) m) k'
  = if decide (k' = k) then None else map_get m k'.
Proof.
  induction m as [|[k0 v0] m IH]; [by case_decide|].
  rewrite filter_cons. simpl. destruct (decide (k0 <> k)) as [Hne|Heq].
  - simpl. destruct (decide (k0 = k')) as [->|]; [by rewrite decide_False|done].
  - assert (k0 = k) as -> by (by destruct (decide (k0 = k))).
    rewrite IH. destruct (decide (k' = k)) as [->|]; [done|]. by rewrite decide_False.
Qed.

Lemma map_set_same_value (m : jsmap K V) k v :
  map_get m k = Some v -> map_set m k v = m.
Proof.
  induction m as [|[k0 v0] m IH]; [done|]. simpl.
  destruct (decide (k0 = k)) as [->|]; [by intros [= ->]|].
  intros Hget. by rewrite IH.
Qed.

Lemma map_keys_set_NoDup (m : jsmap K V) k v :
  NoDup (map_keys m) -> NoDup (map_keys (map_set m k v)).
Proof.
  unfold map_keys. induction m as [|[k0 v0] m IH]; simpl.
  - intros _. repeat constructor. by intros ?%elem_of_nil.
  - intros [Hnotin Hnd]%NoDup_cons. destruct (decide (k0 = k)) as [->|Hne]; simpl.
    + by constructor.
    + constructor; [|by apply IH].
      intros Hin. apply Hnotin. apply list_elem_of_fmap in Hin as [[k1 v1] [-> Hin]].
      apply elem_of_map_set in Hin as [Hin|[-> _]]; [|done].
      by apply (list_elem_of_fmap_2 fst) in Hin.
Qed.

Lemma map_set_absent (m : jsmap K V) k v :
  map_get m k = None -> map_set m k v = m ++ [(k, v)].
Proof.
  induction m as [|[k0 v0] m IH]; [done|]. simpl.
  destruct (decide (k0 = k)); [done|]. intros Hget. by rewrite IH.
Qed.

Lemma map_get_None_keys (m : jsmap K V) k : map_get m k = None <-> k ∉ map_keys m.
Proof.
  rewrite map_get_keys. destruct (map_get m k) as [v|]; split; try done.
  intros Hnot. destruct Hnot. by exists v.
Qed.

End jsmap_more.

(** The expansion of the cells of [handleGridLine] is the one inside
    [handleGridLine]. *)
Lemma handleGridLine_eq {Decorator Style : Type}
    (normalizeHighlightId : Z -> Z) (line vimCol : nat)
    (cells : list (jsstring * option Z * option nat))
    (st : CellGrid.GridState (Decorator := Decorator) (Style := Style)) :
  CellGrid.handleGridLine normalizeHighlightId line vimCol cells st
  = let prevCells := default [] (arr_get (CellGrid.lineCells st) line) in
    let padded :=
      prevCells ++ replicate (vimCol - length prevCells) (mkCell [SPACE] 0) in
    CellGrid.mkGrid
      (arr_set (CellGrid.lineCells st) line
         (take vimCol padded ++ CellGrid.redrawCells normalizeHighlightId cells
          ++ drop (vimCol + length (CellGrid.redrawCells normalizeHighlightId cells)) padded))
      (CellGrid.prevDecorators st) true
      (filter (fun kv => kv.1 <> Z.of_nat line) (CellGrid.lineDecorationsCache st)).
Proof.
  unfold CellGrid.handleGridLine, CellGrid.redrawCells. simpl.
  case_decide; [done|].
  replace (vimCol - length (default [] (arr_get (CellGrid.lineCells st) line))) with 0
    by lia.
  simpl. by rewrite app_nil_r.
Qed.

(** The expansion of the cells, started from any id and list. *)
Lemma redrawCells_from (normalizeHighlightId : Z -> Z)
    (cells : list (jsstring * option Z * option nat)) (acc : list ValidCell) (cur : Z) :
  foldl (fun '(redrawCells, currHlId) '(t, id, repeat_) =>
           let currHlId :=
             match id with
             | Some id => normalizeHighlightId id
             | None => currHlId
             end in
           (redrawCells ++ replicate (default 1 repeat_) (mkCell t currHlId), currHlId))
        (acc, cur) cells
  = (acc ++ (foldl (fun '(redrawCells, currHlId) '(t, id, repeat_) =>
                      let currHlId :=
                        match id with
                        | Some id => normalizeHighlightId id
                        | None => currHlId
                        end in
                      (redrawCells ++ replicate (default 1 repeat_) (mkCell t currHlId),
                       currHlId))
                   ([], cur) cells).1,
     (foldl (fun '(redrawCells, currHlId) '(t, id, repeat_) =>
               let currHlId :=
                 match id with
                 | Some id => normalizeHighlightId id
                 | None => currHlId
                 end in
               (redrawCells ++ replicate (default 1 repeat_) (mkCell t currHlId), currHlId))
            ([], cur) cells).2).
Proof.
  revert acc cur. induction cells as [|[[t id] rep] cells IH]; intros acc cur; simpl.
  - by rewrite app_nil_r.
  - rewrite IH. symmetry. rewrite IH. simpl. by rewrite app_assoc.
Qed.

(** A run of cells can be cut before any cell that carries an id. *)
Lemma redrawCells_app (normalizeHighlightId : Z -> Z)
    (cells1 cells2 : list (jsstring * option Z * option nat)) :
  match cells2 with
  | (_, None, _) :: _ => False
  | _ => True
  end ->
  CellGrid.redrawCells normalizeHighlightId (cells1 ++ cells2)
  = CellGrid.redrawCells normalizeHighlightId cells1
    ++ CellGrid.redrawCells normalizeHighlightId cells2.
Proof.
  intros Hid. unfold CellGrid.redrawCells. rewrite foldl_app.
  destruct (foldl _ ([], 0%Z) cells1) as [acc cur] eqn:H1. simpl.
  rewrite redrawCells_from. simpl. f_equal.
  destruct cells2 as [|[[t [id|]] rep] cells2]; [done| |done]. done.
Qed.

Section merge_facts.
Context {Decorator Style : Type} `{EqDecision Decorator}.

(** Merging a map with distinct keys into a map that has none of them
    appends its entries. *)
Lemma merge_distinct (computed m : jsmap Decorator (list (CellGrid.DecorationOptions
                                                          (Style := Style)))) :
  NoDup (map_keys computed) ->
  (forall d, d ∈ map_keys computed -> d ∉ map_keys m) ->
  foldl (fun m '(decorator, opts) => CellGrid.pushDecorations m decorator opts) m computed
  = m ++ computed.
Proof.
  revert m. induction computed as [|[d opts] computed IH]; intros m Hnd Hdisj.
  - by rewrite app_nil_r.
  - unfold map_keys in *. simpl in *. apply NoDup_cons in Hnd as [Hnotin Hnd].
    assert (Hget : map_get m d = None).
    { apply map_get_None_keys. apply Hdisj. left. }
    unfold CellGrid.pushDecorations at 2. rewrite Hget. simpl.
    rewrite map_set_absent by done. rewrite IH; [by rewrite <- app_assoc|done|].
    intros d' Hd'. unfold map_keys. rewrite fmap_app. simpl.
    intros [Hin|Hin%list_elem_of_singleton]%elem_of_app.
    + by apply (Hdisj d'); [right|].
    + by subst d'.
Qed.

End merge_facts.
(** * Ranges, virtual text and end-of-line cells of the cell-based grid *)

Lemma elem_of_concat {A} (x : A) (ls : list (list A)) :
  x ∈ concat ls <-> exists l, x ∈ l /\ l ∈ ls.
Proof.
  induction ls as [|l0 ls IH]; simpl.
  - split; [by intros ?%elem_of_nil|]. by intros (l & _ & ?%elem_of_nil).
  - rewrite elem_of_app, IH. split.
    + intros [Hx|(l & Hx & Hl)]; [exists l0; split; [done|left]|].
      exists l. split; [done|by right].
    + intros (l & Hx & [->|Hl]%elem_of_cons); [by left|right; eauto].
Qed.

(** The virtual ranges that [lineHighlightsToRanges] collects, and the line
    of its normal ranges. *)
Lemma lineHighlightStep_loop line (highlights : jsmap nat (list Highlight))
    (normalHighlights : jsmap Z (list CellGrid.NormalHighlightRange))
    (virtualHighlights : list HighlightRange) :
  (forall id l r, (id, l) ∈ normalHighlights -> r ∈ l -> CellGrid.nLine r = line) ->
  (foldl (fun st '(col, hls) => CellGrid.lineHighlightStep line st col hls)
         (normalHighlights, virtualHighlights) highlights).2
  = virtualHighlights
    ++ ((fun kv => VirtualRange kv.2 line kv.1)
          <$> filter (fun kv => isVirtualColumn kv.2 = true) highlights) /\
  (forall id l r,
     (id, l) ∈ (foldl (fun st '(col, hls) => CellGrid.lineHighlightStep line st col hls)
                      (normalHighlights, virtualHighlights) highlights).1 ->
     r ∈ l -> CellGrid.nLine r = line).
Proof.
  revert normalHighlights virtualHighlights.
  induction highlights as [|[col hls] highlights IH];
    intros normalHighlights virtualHighlights Hline.
  - simpl. by rewrite app_nil_r.
  - cbn [foldl]. rewrite filter_cons. cbn [snd].
    unfold CellGrid.lineHighlightStep at 2 4. destruct hls as [|h rest].
    + rewrite decide_False by done. by apply IH.
    + unfold isVirtualColumn.
      destruct ((1 <? length (h :: rest)) || truthy (virtText h)) eqn:Htest.
      * rewrite decide_True by done.
        destruct (IH normalHighlights
                    (virtualHighlights ++ [VirtualRange (h :: rest) line col]) Hline)
          as [Hv Hn].
        split; [|done]. rewrite Hv. rewrite fmap_cons. simpl. by rewrite <- app_assoc.
      * rewrite decide_False by done. apply IH.
        intros id l r [Hin|[-> ->]]%elem_of_map_set Hr; [by eapply Hline|].
        destruct (CellGrid.findLastIndex _ _) as [i|].
        -- apply elem_of_alter in Hr as [Hr|(x & Hx & ->)].
           ++ destruct (map_get normalHighlights (hlId (cell h))) as [l0|] eqn:Hl0;
                [|by apply elem_of_nil in Hr].
              apply map_get_elem_of in Hl0. by eapply Hline.
           ++ simpl. destruct (map_get normalHighlights (hlId (cell h))) as [l0|] eqn:Hl0;
                [|done].
              apply map_get_elem_of in Hl0. eapply Hline; [done|].
              by eapply list_elem_of_lookup_2.
        -- apply elem_of_app in Hr as [Hr|Hr%list_elem_of_singleton]; [|by subst r].
           destruct (map_get normalHighlights (hlId (cell h))) as [l0|] eqn:Hl0;
             [|by apply elem_of_nil in Hr].
           apply map_get_elem_of in Hl0. by eapply Hline.
Qed.

Section virt_text_facts.
Context {Decorator Style : Type}.
Variable getDecorator : Z -> option Decorator * Style.

Lemma pushOptions_lookup
    (m : jsmap Z (list (CellGrid.DecorationOptions (Style := Style)))) id opts id' :
  default [] (map_get (CellGrid.pushOptions m id opts) id')
  = if decide (id = id') then default [] (map_get m id) ++ opts
    else default [] (map_get m id').
Proof.
  unfold CellGrid.pushOptions. rewrite map_get_set. by case_decide.
Qed.

(** The option that the fragment [f] at the offset [i] gets. *)
#[local, warnings="-inconsistent-scopes"] Abbreviation fragmentOption line lineLength col id :=
  (fun kv : nat * CellGrid.Fragment =>
     CellGrid.mkOptions line (Nat.min lineLength col) (Nat.min lineLength col)
       (Some (CellGrid.mkRender (CellGrid.fragVirtText kv.2) (kv.1 + (col - lineLength))
                (length (CellGrid.fragVirtText kv.2))
                (99 - Z.of_nat (kv.1 + (col - lineLength))%nat)%Z id (getDecorator id).2))).

(** What a fragment adds to the options. *)
Lemma emitFragment_lookup line lineLength col
    (m : jsmap Z (list (CellGrid.DecorationOptions (Style := Style)))) i f id :
  default [] (map_get (CellGrid.emitFragment getDecorator line lineLength col m i f) id)
  = default [] (map_get m id)
    ++ (if decide (CellGrid.fragHlId f = id /\ is_Some (getDecorator id).1)
        then [fragmentOption line lineLength col id (i, f)] else []).
Proof.
  unfold CellGrid.emitFragment.
  destruct (getDecorator (CellGrid.fragHlId f)) as [[d|] sty] eqn:Hdec.
  - rewrite pushOptions_lookup.
    replace (if decide (lineLength < col) then i + (col - lineLength) else i)
      with (i + (col - lineLength)) by (case_decide; lia).
    destruct (decide (CellGrid.fragHlId f = id)) as [<-|Hne].
    + rewrite decide_True by (by rewrite Hdec). by rewrite Hdec.
    + rewrite decide_False by (by intros [? _]). by rewrite app_nil_r.
  - rewrite decide_False; [by rewrite app_nil_r|].
    intros [<- Hsome]. rewrite Hdec in Hsome. by destruct Hsome.
Qed.

Lemma emitFragment_loop line lineLength col (fs : list CellGrid.Fragment) k
    (m : jsmap Z (list (CellGrid.DecorationOptions (Style := Style)))) id :
  default []
    (map_get (foldl (fun m '(offset, f) =>
                       CellGrid.emitFragment getDecorator line lineLength col m offset f)
                    m (zip (seq k (length fs)) fs)) id)
  = default [] (map_get m id)
    ++ (fragmentOption line lineLength col id
          <$> filter (fun kv => CellGrid.fragHlId kv.2 = id /\ is_Some (getDecorator id).1)
                     (zip (seq k (length fs)) fs)).
Proof.
  revert k m. induction fs as [|f0 fs IH]; intros k m.
  - simpl. by rewrite app_nil_r.
  - cbn [length seq zip zip_with foldl]. rewrite IH, emitFragment_lookup.
    rewrite filter_cons. cbn [snd]. rewrite <- app_assoc. f_equal.
    by case_decide.
Qed.

(** The ids that get options. *)
Lemma emitFragment_keys line lineLength col
    (m : jsmap Z (list (CellGrid.DecorationOptions (Style := Style)))) i f id :
  is_Some (map_get (CellGrid.emitFragment getDecorator line lineLength col m i f) id)
  <-> is_Some (map_get m id) \/
      (CellGrid.fragHlId f = id /\ is_Some (getDecorator id).1).
Proof.
  unfold CellGrid.emitFragment.
  destruct (getDecorator (CellGrid.fragHlId f)) as [[d|] sty] eqn:Hdec.
  - unfold CellGrid.pushOptions. rewrite map_get_set.
    destruct (decide (CellGrid.fragHlId f = id)) as [<-|Hne].
    + split; [|done]. intros _. right. by rewrite Hdec.
    + split; [by left|]. by intros [?|[? _]].
  - split; [by left|]. intros [?|[<- Hsome]]; [done|].
    rewrite Hdec in Hsome. by destruct Hsome.
Qed.

Lemma emitFragment_loop_keys line lineLength col (fs : list CellGrid.Fragment) k
    (m : jsmap Z (list (CellGrid.DecorationOptions (Style := Style)))) id :
  is_Some (map_get (foldl (fun m '(offset, f) =>
                             CellGrid.emitFragment getDecorator line lineLength col m offset f)
                          m (zip (seq k (length fs)) fs)) id)
  <-> is_Some (map_get m id) \/
      exists f, f ∈ fs /\ CellGrid.fragHlId f = id /\ is_Some (getDecorator id).1.
Proof.
  revert k m. induction fs as [|f0 fs IH]; intros k m.
  - simpl. split; [by left|]. by intros [?|(f & ?%elem_of_nil & _)].
  - cbn [length seq zip zip_with foldl]. rewrite IH, emitFragment_keys. split.
    + intros [[?|[Hid Hsome]]|(f & Hf & Hid & Hsome)].
      * by left.
      * right. exists f0. split; [by left|done].
      * right. exists f. split; [by right|done].
    + intros [?|(f & [->|Hf]%elem_of_cons & Hid & Hsome)].
      * left. by left.
      * left. by right.
      * right. by exists f.
Qed.

End virt_text_facts.

(** The fragments keep the text of the entries, in order. *)
Lemma join_appendToLast (fs : list CellGrid.Fragment) virt :
  fs <> [] ->
  join (CellGrid.fragVirtText <$> CellGrid.appendToLast fs virt)
  = join (CellGrid.fragVirtText <$> fs) ++ virt.
Proof.
  intros Hne. induction fs as [|f0 [|f1 fs] IH]; [done| |].
  - simpl. unfold join. simpl. by rewrite !app_nil_r.
  - change (CellGrid.appendToLast (f0 :: f1 :: fs) virt)
      with (f0 :: CellGrid.appendToLast (f1 :: fs) virt).
    rewrite !fmap_cons. unfold join in *. rewrite !concat_cons.
    rewrite fmap_cons, concat_cons in IH. rewrite IH by done. by rewrite app_assoc.
Qed.

Lemma join_processColHighlight (processed : list CellGrid.Fragment) hls :
  join (CellGrid.fragVirtText <$> foldl CellGrid.processColHighlight processed hls)
  = join (CellGrid.fragVirtText <$> processed)
    ++ join ((fun h => default (text (cell h)) (virtText h)) <$> hls).
Proof.
  revert processed. induction hls as [|h hls IH]; intros processed.
  - simpl. unfold join. simpl. by rewrite app_nil_r.
  - cbn [foldl]. rewrite IH. rewrite fmap_cons. unfold join at 4. rewrite concat_cons.
    fold (join ((fun h => default (text (cell h)) (virtText h)) <$> hls)).
    rewrite app_assoc. f_equal.
    unfold CellGrid.processColHighlight.
    destruct ((hlId (cell h) =? 0)%Z && (0 <? length processed)) eqn:Hz.
    + apply join_appendToLast. apply andb_true_iff in Hz as [_ Hlen].
      apply Nat.ltb_lt in Hlen. destruct processed; [simpl in Hlen; lia|done].
    + rewrite fmap_app. unfold join. rewrite concat_app. simpl. by rewrite app_nil_r.
Qed.

(** The cells past the end of the line. *)
Lemma appendTextToLast_snoc (eolCells : list ValidCell) c t :
  CellGrid.appendTextToLast (eolCells ++ [c]) t
  = eolCells ++ [mkCell (text c ++ t) (hlId c)].
Proof.
  induction eolCells as [|c0 eolCells IH]; [done|]. simpl. rewrite IH.
  by destruct (eolCells ++ [c]) eqn:Hl; [destruct eolCells|].
Qed.

Lemma sliceTo_sliceFrom {A} (n : Z) (l : list A) :
  sliceTo n l ++ CellGrid.sliceFrom n l = l.
Proof.
  unfold sliceTo, CellGrid.sliceFrom. destruct (0 <=? n)%Z; apply take_drop.
Qed.

Lemma combineEolCell_loop (cells eolCells : list ValidCell) (id : Z) :
  (eolCells <> [] -> last (hlId <$> eolCells) = Some id) ->
  (forall i a b, eolCells !! i = Some a -> eolCells !! S i = Some b -> hlId a <> hlId b) ->
  join (text <$> (foldl CellGrid.combineEolCell (eolCells, id) cells).1)
  = join (text <$> eolCells) ++ join (text <$> cells) /\
  length (foldl CellGrid.combineEolCell (eolCells, id) cells).1
  <= length eolCells + length cells /\
  (forall i a b,
     (foldl CellGrid.combineEolCell (eolCells, id) cells).1 !! i = Some a ->
     (foldl CellGrid.combineEolCell (eolCells, id) cells).1 !! S i = Some b ->
     hlId a <> hlId b).
Proof.
  revert eolCells id. induction cells as [|c cells IH]; intros eolCells id Hlast Hadj.
  - simpl. split; [|split; [lia|done]]. unfold join. simpl. by rewrite app_nil_r.
  - cbn [foldl]. unfold CellGrid.combineEolCell at 2 4 6 8. cbn [fst snd].
    destruct ((hlId c =? id)%Z && (0 <? length eolCells)) eqn:Htest.
    + apply andb_true_iff in Htest as [Hid%Z.eqb_eq Hlen%Nat.ltb_lt].
      destruct eolCells as [|c0 eolCells _] using rev_ind; [simpl in Hlen; lia|].
      rewrite appendTextToLast_snoc.
      destruct (IH (eolCells ++ [mkCell (text c0 ++ text c) (hlId c0)]) (hlId c))
        as (Hjoin & Hle & Hdist).
      * intros _. rewrite fmap_app. cbn [fmap list_fmap]. rewrite last_snoc. simpl.
        rewrite fmap_app in Hlast. cbn [fmap list_fmap] in Hlast.
        rewrite last_snoc in Hlast.
        specialize (Hlast ltac:(by destruct eolCells)). congruence.
      * intros i a b Ha Hb. destruct (decide (S i < length eolCells)) as [Hlt|Hge].
        -- rewrite lookup_app_l in Ha, Hb by lia.
           apply (Hadj i a b); by rewrite lookup_app_l by lia.
        -- destruct (decide (S i = length eolCells)) as [Heq|Hne].
           ++ rewrite lookup_app_l in Ha by lia.
              rewrite lookup_app_r, Heq, Nat.sub_diag in Hb by lia.
              injection Hb as <-. simpl.
              apply (Hadj i a c0); [by rewrite lookup_app_l by lia|].
              by rewrite lookup_app_r, Heq, Nat.sub_diag by lia.
           ++ apply lookup_lt_Some in Hb. rewrite length_app in Hb. simpl in Hb. lia.
      * split; [|split; [|done]].
        -- rewrite Hjoin. rewrite !fmap_app, !fmap_cons. unfold join.
           rewrite !concat_app, !concat_cons. simpl. rewrite !app_nil_r.
           by rewrite <- !app_assoc.
        -- rewrite length_app in *. simpl in *. lia.
    + destruct (IH (eolCells ++ [c]) (hlId c)) as (Hjoin & Hle & Hdist).
      * intros _. rewrite fmap_app. cbn [fmap list_fmap]. by rewrite last_snoc.
      * intros i a b Ha Hb. destruct (decide (S i < length eolCells)) as [Hlt|Hge].
        -- rewrite lookup_app_l in Ha, Hb by lia. by apply (Hadj i a b).
        -- destruct (decide (S i = length eolCells)) as [Heq|Hne].
           ++ rewrite lookup_app_l in Ha by lia.
              rewrite lookup_app_r, Heq, Nat.sub_diag in Hb by lia.
              injection Hb as <-.
              assert (Hne : eolCells <> []) by (intros ->; simpl in Heq; lia).
              specialize (Hlast Hne).
              assert (Ha' : last (hlId <$> eolCells) = Some (hlId a)).
              { rewrite last_lookup, length_fmap, <- Heq. simpl.
                by rewrite list_lookup_fmap, Ha. }
              rewrite Hlast in Ha'. injection Ha' as ->.
              apply andb_false_iff in Htest as [Hid%Z.eqb_neq|Hlen%Nat.ltb_ge]; [done|].
              lia.
           ++ apply lookup_lt_Some in Hb. rewrite length_app in Hb. simpl in Hb. lia.
      * split; [|split; [|done]].
        -- rewrite Hjoin. rewrite !fmap_app, !fmap_cons. unfold join.
           rewrite !concat_app, !concat_cons. simpl. rewrite !app_nil_r.
           by rewrite <- !app_assoc.
        -- rewrite length_app in *. simpl in *. lia.
Qed.

(** ** The normal ranges of a line *)

Lemma sum_concat_map_set {K V} `{EqDecision K} (w : V -> nat) (m : jsmap K (list V)) k v :
  sum_list_with w (concat (map_set m k v).*2) + sum_list_with w (default [] (map_get m k))
  = sum_list_with w (concat m.*2) + sum_list_with w v.
Proof.
  induction m as [|[k0 v0] m IH].
  - simpl. rewrite !sum_list_with_app. simpl. lia.
  - cbn [map_set map_get]. destruct (decide (k0 = k)) as [->|Hne].
    + rewrite !fmap_cons. cbn [concat snd default id]. rewrite !sum_list_with_app. lia.
    + rewrite !fmap_cons. cbn [concat snd]. rewrite !sum_list_with_app. lia.
Qed.

Lemma sum_alter {V} (w : V -> nat) (f : V -> V) (l : list V) i x :
  l !! i = Some x -> w (f x) = S (w x) ->
  sum_list_with w (alter f i l) = S (sum_list_with w l).
Proof.
  revert i. induction l as [|y l IH]; intros [|i] Hi Hw; try done; simpl in *.
  - injection Hi as ->. lia.
  - change (list_alter f i l) with (alter f i l). rewrite (IH i) by done. lia.
Qed.

Lemma elem_of_alter_2 {T} (f : T -> T) (l : list T) i r :
  r ∈ l -> r ∈ alter f i l \/ (l !! i = Some r /\ f r ∈ alter f i l).
Proof.
  intros [j Hj]%list_elem_of_lookup.
  destruct (decide (i = j)) as [->|Hne].
  - right. split; [done|]. apply list_elem_of_lookup. exists j.
    by rewrite list_lookup_alter_eq, Hj.
  - left. apply list_elem_of_lookup. exists j. by rewrite list_lookup_alter_ne.
Qed.

Lemma realEntry_app visited rest c id :
  realEntry visited c id -> realEntry (visited ++ rest) c id.
Proof. intros (h & Hin & Hreal). exists h. split; [|done]. apply elem_of_app. by left. Qed.

Lemma realEntry_snoc visited col hls c id :
  realEntry (visited ++ [(col, hls)]) c id ->
  realEntry visited c id \/
  exists h, c = col /\ hls = [h] /\ truthy (virtText h) = false /\ hlId (cell h) = id.
Proof.
  intros (h & [Hin|Hin%list_elem_of_singleton]%elem_of_app & Hvirt & Hid).
  - left. by exists h.
  - right. injection Hin as -> <-. by exists h.
Qed.

(** A column that is no real column leaves the normal ranges alone. *)
Lemma lineRanged_skip line visited m col hls :
  isRealColumn hls = false ->
  lineRanged line visited m -> lineRanged line (visited ++ [(col, hls)]) m.
Proof.
  intros Hreal (Hsound & Hcover & Hsum). split; [|split].
  - intros id l r Hl Hr. destruct (Hsound id l r Hl Hr) as (? & ? & ? & Hcols).
    repeat split; try done. intros c Hc. by apply realEntry_app, Hcols.
  - intros c id [Hc|(h & _ & -> & Hvirt & _)]%realEntry_snoc; [by apply Hcover|].
    simpl in Hreal. by rewrite Hvirt in Hreal.
  - rewrite filter_app, length_app, filter_cons, decide_False, filter_nil;
      [|simpl; by rewrite Hreal].
    simpl. lia.
Qed.

(** A real column extends the range of its id that ends at it, or starts a
    range of its own. *)
Lemma lineRanged_column line visited m virt col h :
  truthy (virtText h) = false ->
  lineRanged line visited m ->
  (CellGrid.lineHighlightStep line (m, virt) col [h]).2 = virt /\
  lineRanged line (visited ++ [(col, [h])])
    (CellGrid.lineHighlightStep line (m, virt) col [h]).1.
Proof.
  intros Hvirt (Hsound & Hcover & Hsum).
  unfold CellGrid.lineHighlightStep. rewrite Hvirt. cbn [length Nat.ltb Nat.leb orb].
  set (id := hlId (cell h)).
  set (existing := default [] (map_get m id)).
  assert (Hexisting : forall r, r ∈ existing -> (id, existing) ∈ m).
  { intros r Hr. unfold existing in *.
    destruct (map_get m id) as [l|] eqn:Hl; [|by apply elem_of_nil in Hr].
    by apply map_get_elem_of. }
  assert (Hnew : realEntry (visited ++ [(col, [h])]) col id).
  { exists h. split; [|done]. apply elem_of_app. right. by apply list_elem_of_singleton. }
  assert (Hcount : length (filter (fun kv : nat * list Highlight => isRealColumn kv.2 = true)
                             (visited ++ [(col, [h])]))
                   = S (length (filter (fun kv : nat * list Highlight =>
                                          isRealColumn kv.2 = true) visited))).
  { rewrite filter_app, length_app, filter_cons, decide_True; [simpl; lia|].
    simpl. by rewrite Hvirt. }
  pose proof (sum_concat_map_set
                (fun r => CellGrid.nEndCol r - CellGrid.nStartCol r) m id) as Hset.
  fold existing in Hset.
  pose proof (findLastIndex_spec
                (fun hl => bool_decide (CellGrid.nEndCol hl = col)) existing) as Hfind.
  destruct (CellGrid.findLastIndex _ existing) as [i|]; cbn [fst snd]; (split; [done|]).
  - (* a range of this id ends at the column: it is extended *)
    destruct Hfind as (x & Hx & Hend). apply bool_decide_eq_true in Hend.
    assert (Hxin : x ∈ existing) by (apply list_elem_of_lookup; by exists i).
    destruct (Hsound id existing x (Hexisting x Hxin) Hxin) as (Hxid & Hxline & Hxlt & Hxcols).
    set (extend := fun hl => CellGrid.mkNormal (CellGrid.nHlId hl) (CellGrid.nLine hl)
                               (CellGrid.nStartCol hl) (S col)).
    split; [|split].
    + intros id' l r [Hl|[-> ->]]%elem_of_map_set Hr.
      * destruct (Hsound id' l r Hl Hr) as (? & ? & ? & Hcols).
        repeat split; try done. intros c Hc. by apply realEntry_app, Hcols.
      * apply elem_of_alter in Hr as [Hr|(y & Hy & ->)].
        -- destruct (Hsound id existing r (Hexisting r Hr) Hr) as (? & ? & ? & Hcols).
           repeat split; try done. intros c Hc. by apply realEntry_app, Hcols.
        -- rewrite Hx in Hy. injection Hy as <-. unfold extend. simpl.
           repeat split; try done; [lia|]. intros c Hc.
           destruct (decide (c = col)) as [->|Hne]; [done|].
           apply realEntry_app, Hxcols. lia.
    + intros c id' [Hc|(h' & -> & [= <-] & _ & <-)]%realEntry_snoc.
      * destruct (Hcover c id' Hc) as (l & r & Hl & Hr & Hcr).
        rewrite map_get_set. destruct (decide (id = id')) as [<-|Hne]; [|by exists l, r].
        assert (l = existing) as -> by (unfold existing; by rewrite Hl).
        exists (alter extend i existing).
        destruct (elem_of_alter_2 extend existing i r Hr) as [Hr'|[Hir Hr']].
        -- by exists r.
        -- exists (extend r). split; [done|]. split; [done|].
           rewrite Hx in Hir. injection Hir as <-. unfold extend. simpl. lia.
      * rewrite map_get_set, decide_True by done.
        exists (alter extend i existing), (extend x). split; [done|]. split.
        -- apply list_elem_of_lookup. exists i. by rewrite list_lookup_alter_eq, Hx.
        -- unfold extend. simpl. lia.
    + rewrite Hcount, <- Hsum.
      specialize (Hset (alter extend i existing)).
      rewrite (sum_alter _ extend existing i x) in Hset; [lia|done|].
      unfold extend. simpl. lia.
  - (* no range of this id ends at the column: a new one starts *)
    split; [|split].
    + intros id' l r [Hl|[-> ->]]%elem_of_map_set Hr.
      * destruct (Hsound id' l r Hl Hr) as (? & ? & ? & Hcols).
        repeat split; try done. intros c Hc. by apply realEntry_app, Hcols.
      * apply elem_of_app in Hr as [Hr|Hr%list_elem_of_singleton].
        -- destruct (Hsound id existing r (Hexisting r Hr) Hr) as (? & ? & ? & Hcols).
           repeat split; try done. intros c Hc. by apply realEntry_app, Hcols.
        -- subst r. simpl. repeat split; try done; [lia|]. intros c Hc.
           by replace c with col by lia.
    + intros c id' [Hc|(h' & -> & [= <-] & _ & <-)]%realEntry_snoc.
      * destruct (Hcover c id' Hc) as (l & r & Hl & Hr & Hcr).
        rewrite map_get_set. destruct (decide (id = id')) as [<-|Hne]; [|by exists l, r].
        assert (l = existing) as -> by (unfold existing; by rewrite Hl).
        eexists _, r. split; [done|]. split; [|done]. apply elem_of_app. by left.
      * rewrite map_get_set, decide_True by done.
        eexists _, (CellGrid.mkNormal id line col (S col)). split; [done|]. split.
        -- apply elem_of_app. right. by apply list_elem_of_singleton.
        -- simpl. lia.
    + rewrite Hcount, <- Hsum.
      specialize (Hset (existing ++ [CellGrid.mkNormal id line col (S col)])).
      rewrite sum_list_with_app in Hset. simpl in Hset. lia.
Qed.

(** The walk of [lineHighlightsToRanges] over the columns. *)
Lemma lineRanged_loop line (rest visited : jsmap nat (list Highlight)) m virt :
  lineRanged line visited m ->
  lineRanged line (visited ++ rest)
    (foldl (fun st '(col, hls) => CellGrid.lineHighlightStep line st col hls) (m, virt) rest).1.
Proof.
  revert visited m virt. induction rest as [|[col hls] rest IH]; intros visited m virt Hinv.
  - simpl. by rewrite app_nil_r.
  - cbn [foldl]. replace (visited ++ (col, hls) :: rest)
      with ((visited ++ [(col, hls)]) ++ rest) by (by rewrite <- app_assoc).
    destruct (isRealColumn hls) eqn:Hreal.
    + destruct hls as [|h [|h' hls]]; try done.
      apply negb_true_iff in Hreal.
      destruct (lineRanged_column line visited m virt col h Hreal Hinv) as [Hv Hstep].
      destruct (CellGrid.lineHighlightStep line (m, virt) col [h]) as [m' virt'].
      by apply IH.
    + assert (Hstep : exists virt',
                 CellGrid.lineHighlightStep line (m, virt) col hls = (m, virt')).
      { unfold CellGrid.lineHighlightStep. destruct hls as [|h [|h' hls]].
        - by eexists.
        - simpl in Hreal. apply negb_false_iff in Hreal. rewrite Hreal. by eexists.
        - by eexists. }
      destruct Hstep as [virt' ->]. apply IH. by apply lineRanged_skip.
Qed.

(** Columns with an empty list do not take part in the walk. *)
Lemma lineHighlightStep_nonempty line (highlights : jsmap nat (list Highlight)) st :
  foldl (fun st '(col, hls) => CellGrid.lineHighlightStep line st col hls) st
        (filter (fun kv => kv.2 <> []) highlights)
  = foldl (fun st '(col, hls) => CellGrid.lineHighlightStep line st col hls) st highlights.
Proof.
  revert st. induction highlights as [|[col hls] highlights IH]; intros st; [done|].
  rewrite filter_cons. cbn [snd foldl]. destruct hls as [|h hls].
  - rewrite decide_False by (by intros ?). rewrite IH.
    by destruct st.
  - rewrite decide_True by done. cbn [foldl]. apply IH.
Qed.

(** ** The normal ranges of a line visited in ascending order *)

Lemma map_get_NoDup {K V} `{EqDecision K} (m : jsmap K V) k v :
  NoDup (map_keys m) -> (k, v) ∈ m -> map_get m k = Some v.
Proof.
  unfold map_keys. induction m as [|[k0 v0] m IH]; [by intros _ ?%elem_of_nil|].
  simpl. intros [Hnotin Hnd]%NoDup_cons [[= -> ->]|Hin]%elem_of_cons.
  - by rewrite decide_True.
  - rewrite decide_False; [by apply IH|]. intros ->. apply Hnotin.
    by apply (list_elem_of_fmap_2 fst) in Hin.
Qed.

Lemma realEntry_bound visited bound c id :
  (forall c hls, (c, hls) ∈ visited -> c < bound) -> realEntry visited c id -> c < bound.
Proof. intros Hbound (h & Hin & _). by eapply Hbound. Qed.

(** A column that is no real column moves the bound only. *)
Lemma lineMaximal_skip visited bound m col hls :
  isRealColumn hls = false -> bound <= col ->
  lineMaximal visited bound m -> lineMaximal (visited ++ [(col, hls)]) (S col) m.
Proof.
  intros Hreal Hcol (Hkeys & Hbound & Hranges). split; [done|]. split.
  - intros c hls' [Hin|[= -> ->]%list_elem_of_singleton]%elem_of_app; [|lia].
    specialize (Hbound c hls' Hin). lia.
  - intros id l Hl. destruct (Hranges id l Hl) as [Hends Hmax]. split; [done|].
    intros r Hr. destruct (Hmax r Hr) as (Hle & Hend & Hstart).
    split; [lia|]. split.
    + intros [?|(h & _ & -> & Hvirt & _)]%realEntry_snoc; [done|].
      simpl in Hreal. by rewrite Hvirt in Hreal.
    + intros p Hp [?|(h & _ & -> & Hvirt & _)]%realEntry_snoc; [by eapply Hstart|].
      simpl in Hreal. by rewrite Hvirt in Hreal.
Qed.

(** A real column to the right of the columns visited so far leaves every
    range without a neighbour to take in. *)
Lemma lineMaximal_column line visited bound m virt col h :
  truthy (virtText h) = false -> bound <= col ->
  lineRanged line visited m ->
  lineMaximal visited bound m ->
  lineMaximal (visited ++ [(col, [h])]) (S col)
    (CellGrid.lineHighlightStep line (m, virt) col [h]).1.
Proof.
  intros Hvirt Hcol (Hsound & Hcover & _) (Hkeys & Hbound & Hranges).
  unfold CellGrid.lineHighlightStep. rewrite Hvirt. cbn [length Nat.ltb Nat.leb orb].
  set (id := hlId (cell h)).
  set (existing := default [] (map_get m id)).
  assert (Hbound' : forall c hls, (c, hls) ∈ visited ++ [(col, [h])] -> c < S col).
  { intros c hls' [Hin|[= -> ->]%list_elem_of_singleton]%elem_of_app; [|lia].
    specialize (Hbound c hls' Hin). lia. }
  assert (Hexisting : forall r, r ∈ existing -> map_get m id = Some existing).
  { intros r Hr. unfold existing in *.
    destruct (map_get m id) as [l|] eqn:Hl; [done|by apply elem_of_nil in Hr]. }
  assert (Hold : forall r, r ∈ existing ->
            CellGrid.nStartCol r < CellGrid.nEndCol r /\ CellGrid.nEndCol r <= bound /\
            (CellGrid.nEndCol r <> col ->
             ~ realEntry (visited ++ [(col, [h])]) (CellGrid.nEndCol r) id) /\
            forall p, S p = CellGrid.nStartCol r ->
                      ~ realEntry (visited ++ [(col, [h])]) p id).
  { intros r Hr. pose proof (Hexisting r Hr) as Hl.
    destruct (Hranges id existing Hl) as [_ Hmax].
    destruct (Hmax r Hr) as (Hle & Hend & Hstart).
    destruct (Hsound id existing r (map_get_elem_of _ _ _ Hl) Hr) as (_ & _ & Hlt & _).
    split; [done|]. split; [done|]. split.
    - intros Hne [?|(h' & Heq & _)]%realEntry_snoc; [done|]. by apply Hne.
    - intros p Hp [?|(h' & -> & _)]%realEntry_snoc; [by eapply Hstart|]. lia. }
  assert (Hother : forall id' l, id <> id' -> map_get m id' = Some l ->
            (forall i j r1 r2, l !! i = Some r1 -> l !! j = Some r2 ->
               CellGrid.nEndCol r1 = CellGrid.nEndCol r2 -> i = j) /\
            forall r, r ∈ l ->
              CellGrid.nEndCol r <= S col /\
              ~ realEntry (visited ++ [(col, [h])]) (CellGrid.nEndCol r) id' /\
              forall p, S p = CellGrid.nStartCol r ->
                        ~ realEntry (visited ++ [(col, [h])]) p id').
  { intros id' l Hne Hl. destruct (Hranges id' l Hl) as [Hends Hmax]. split; [done|].
    intros r Hr. destruct (Hmax r Hr) as (Hle & Hend & Hstart).
    split; [lia|]. split.
    - intros [?|(h' & _ & [= <-] & _ & Hid)]%realEntry_snoc; [done|]. by apply Hne.
    - intros p Hp [?|(h' & _ & [= <-] & _ & Hid)]%realEntry_snoc; [by eapply Hstart|].
      by apply Hne. }
  pose proof (findLastIndex_spec
                (fun hl => bool_decide (CellGrid.nEndCol hl = col)) existing) as Hfind.
  destruct (CellGrid.findLastIndex _ existing) as [i|]; cbn [fst].
  - (* the range that ends at the column is extended *)
    destruct Hfind as (x & Hx & Hend). apply bool_decide_eq_true in Hend.
    assert (Hxin : x ∈ existing) by (apply list_elem_of_lookup; by exists i).
    pose proof (Hexisting x Hxin) as Hl.
    destruct (Hranges id existing Hl) as [Hends _].
    set (extend := fun hl => CellGrid.mkNormal (CellGrid.nHlId hl) (CellGrid.nLine hl)
                               (CellGrid.nStartCol hl) (S col)).
    assert (Hlookup : forall j r, alter extend i existing !! j = Some r ->
              (j = i /\ r = extend x) \/
              (j <> i /\ existing !! j = Some r /\ CellGrid.nEndCol r <> col)).
    { intros j r Hj. destruct (decide (j = i)) as [->|Hne].
      - left. rewrite list_lookup_alter_eq, Hx in Hj. by injection Hj as <-.
      - right. rewrite list_lookup_alter_ne in Hj by done. split; [done|]. split; [done|].
        intros Hr. apply Hne. apply (Hends j i r x Hj Hx). lia. }
    split; [by apply map_keys_set_NoDup|]. split; [done|].
    intros id' l. rewrite map_get_set.
    destruct (decide (id = id')) as [<-|Hne]; [|by apply Hother].
    intros [= <-]. split.
    + intros a b r1 r2 Ha Hb Heq.
      destruct (Hlookup a r1 Ha) as [[-> ->]|(Hai & Ha' & _)];
        destruct (Hlookup b r2 Hb) as [[-> ->]|(Hbi & Hb' & _)]; try done.
      * destruct (Hold r2) as (_ & Hle & _); [by eapply list_elem_of_lookup_2|].
        simpl in Heq. lia.
      * destruct (Hold r1) as (_ & Hle & _); [by eapply list_elem_of_lookup_2|].
        simpl in Heq. lia.
      * by apply (Hends a b r1 r2).
    + intros r [j Hj]%list_elem_of_lookup.
      destruct (Hlookup j r Hj) as [[-> ->]|(Hji & Hj' & Hne)].
      * destruct (Hold x Hxin) as (Hlt & _ & _ & Hstart). unfold extend. simpl.
        split; [lia|]. split; [|done].
        intros Hreal. apply (realEntry_bound _ _ _ _ Hbound') in Hreal. lia.
      * destruct (Hold r) as (_ & Hle & Hend' & Hstart); [by eapply list_elem_of_lookup_2|].
        split; [lia|]. split; [by apply Hend'|done].
  - (* a range of its own starts at the column *)
    split; [by apply map_keys_set_NoDup|]. split; [done|].
    intros id' l. rewrite map_get_set.
    destruct (decide (id = id')) as [<-|Hne]; [|by apply Hother].
    intros [= <-].
    assert (Hnot : forall r, r ∈ existing -> CellGrid.nEndCol r <> col).
    { intros r Hr. specialize (Hfind r Hr). by apply bool_decide_eq_false in Hfind. }
    split.
    + intros a b r1 r2 Ha Hb Heq.
      destruct (decide (a < length existing)) as [Hla|Hla];
        destruct (decide (b < length existing)) as [Hlb|Hlb].
      * rewrite lookup_app_l in Ha, Hb by done.
        assert (Hl : map_get m id = Some existing)
          by (apply (Hexisting r1); by eapply list_elem_of_lookup_2).
        destruct (Hranges id existing Hl) as [Hends _].
        by apply (Hends a b r1 r2).
      * rewrite lookup_app_l in Ha by done. rewrite lookup_app_r in Hb by lia.
        destruct (b - length existing) as [|k]; [|by destruct k].
        injection Hb as <-. simpl in Heq.
        destruct (Hold r1) as (_ & Hle & _); [by eapply list_elem_of_lookup_2|]. lia.
      * rewrite lookup_app_l in Hb by done. rewrite lookup_app_r in Ha by lia.
        destruct (a - length existing) as [|k]; [|by destruct k].
        injection Ha as <-. simpl in Heq.
        destruct (Hold r2) as (_ & Hle & _); [by eapply list_elem_of_lookup_2|]. lia.
      * apply lookup_lt_Some in Ha, Hb. rewrite length_app in Ha, Hb. simpl in *. lia.
    + intros r [Hr|Hr%list_elem_of_singleton]%elem_of_app.
      * destruct (Hold r Hr) as (_ & Hle & Hend' & Hstart).
        split; [lia|]. split; [apply Hend'; by apply Hnot|done].
      * subst r. simpl. split; [lia|]. split.
        -- intros Hreal. apply (realEntry_bound _ _ _ _ Hbound') in Hreal. lia.
        -- intros p Hp [Hreal|(h' & -> & _)]%realEntry_snoc; [|lia].
           destruct (Hcover p id Hreal) as (l & r & Hl & Hr & Hpr).
           assert (l = existing) as -> by (unfold existing; by rewrite Hl).
           destruct (Hold r Hr) as (_ & Hle & _). apply (Hnot r Hr). lia.
Qed.

Lemma lineMaximal_loop line (rest visited : jsmap nat (list Highlight)) m virt prev :
  ascendingAfter prev rest ->
  lineRanged line visited m ->
  lineMaximal visited (match prev with Some p => S p | None => 0 end) m ->
  exists bound,
    lineMaximal (visited ++ rest) bound
      (foldl (fun st '(col, hls) => CellGrid.lineHighlightStep line st col hls)
             (m, virt) rest).1.
Proof.
  revert visited m virt prev.
  induction rest as [|[col hls] rest IH]; intros visited m virt prev Hasc Hinv Hmax.
  - simpl. rewrite app_nil_r. by eexists.
  - destruct Hasc as [Hlt Hasc].
    assert (Hcol : match prev with Some p => S p | None => 0 end <= col)
      by (destruct prev; lia).
    cbn [foldl]. replace (visited ++ (col, hls) :: rest)
      with ((visited ++ [(col, hls)]) ++ rest) by (by rewrite <- app_assoc).
    destruct (isRealColumn hls) eqn:Hreal.
    + destruct hls as [|h [|h' hls]]; try done.
      apply negb_true_iff in Hreal.
      pose proof (lineMaximal_column line visited _ m virt col h Hreal Hcol Hinv Hmax)
        as Hmax'.
      destruct (lineRanged_column line visited m virt col h Hreal Hinv) as [_ Hinv'].
      destruct (CellGrid.lineHighlightStep line (m, virt) col [h]) as [m' virt'].
      by apply (IH _ _ _ (Some col)).
    + assert (Hstep : exists virt',
                 CellGrid.lineHighlightStep line (m, virt) col hls = (m, virt')).
      { unfold CellGrid.lineHighlightStep. destruct hls as [|h [|h' hls]].
        - by eexists.
        - simpl in Hreal. apply negb_false_iff in Hreal. rewrite Hreal. by eexists.
        - by eexists. }
      destruct Hstep as [virt' ->]. apply (IH _ _ _ (Some col)); [done| |].
      * by apply lineRanged_skip.
      * by apply (lineMaximal_skip visited _ m col hls Hreal Hcol).
Qed.
(** * Further properties of [HighlightProvider] *)

Section provider_walk.
Context `{Provider.Utils}.








End provider_walk.

(** The expansion of the cells never pushes a blank cell behind the index
    [maxCells]. *)
Lemma pushRepeated_blank n maxCells t id newCells :
  (forall i c, newCells !! i = Some c -> text c = [SPACE] -> (Z.of_nat i <= maxCells)%Z) ->
  forall i c, Provider.pushRepeated n maxCells t id newCells !! i = Some c ->
              text c = [SPACE] -> (Z.of_nat i <= maxCells)%Z.
Proof.
  revert newCells. induction n as [|n IH]; intros newCells Hinv; simpl; [done|].
  destruct ((maxCells <? Z.of_nat (length newCells))%Z && bool_decide (t = [SPACE]))
    eqn:Hcut; [done|].
  apply IH. intros i c Hc Ht.
  destruct (decide (i < length newCells)) as [Hlt|Hge].
  - rewrite lookup_app_l in Hc by done. by eapply Hinv.
  - rewrite lookup_app_r in Hc by lia.
    destruct (i - length newCells) as [|k] eqn:Hk; [|by destruct k].
    injection Hc as <-. simpl in Ht. subst t.
    apply andb_false_iff in Hcut as [Hlen%Z.ltb_ge|Hne%bool_decide_eq_false]; [lia|done].
Qed.

Lemma expandCells_blank cells maxCells curHlId newCells :
  (forall i c, newCells !! i = Some c -> text c = [SPACE] -> (Z.of_nat i <= maxCells)%Z) ->
  forall i c, Provider.expandCells cells maxCells curHlId newCells !! i = Some c ->
              text c = [SPACE] -> (Z.of_nat i <= maxCells)%Z.
Proof.
  revert curHlId newCells. induction cells as [|[[t id] rep] cells IH];
    intros curHlId newCells Hinv; simpl; [done|].
  destruct ((maxCells <? Z.of_nat (length newCells))%Z && bool_decide (t = [SPACE]));
    [done|].
  apply IH. by apply pushRepeated_blank.
Qed.

(** Cells that are not blank are all pushed. *)
Lemma pushRepeated_not_blank n maxCells t id newCells :
  t <> [SPACE] ->
  Provider.pushRepeated n maxCells t id newCells = newCells ++ replicate n (mkCell t id).
Proof.
  intros Hne. revert newCells. induction n as [|n IH]; intros newCells; simpl.
  - by rewrite app_nil_r.
  - rewrite bool_decide_eq_false_2 by done. rewrite andb_false_r.
    rewrite IH. by rewrite <- app_assoc.
Qed.

Lemma expandCells_not_blank cells maxCells curHlId newCells :
  Forall (fun c => c.1.1 <> [SPACE]) cells ->
  Provider.expandCells cells maxCells curHlId newCells
  = (foldl (fun '(redrawCells, currHlId) '(t, id, repeat_) =>
              let currHlId :=
                match id with
                | Some id => (fun id => id) id
                | None => currHlId
                end in
              (redrawCells ++ replicate (default 1 repeat_) (mkCell t currHlId), currHlId))
           (newCells, curHlId) cells).1.
Proof.
  intros Hall. revert curHlId newCells.
  induction Hall as [|[[t id] rep] cells Hne _ IH]; intros curHlId newCells; [done|].
  simpl in *. rewrite bool_decide_eq_false_2 by done. rewrite andb_false_r.
  rewrite IH, pushRepeated_not_blank by done. by destruct id.
Qed.
(** * The decorators of the highlight groups *)

Lemma hexDigitValue_hexDigit (d : N) :
  (d < 16)%N -> Provider.hexDigitValue (Provider.hexDigit d) = d.
Proof.
  intros Hd. unfold Provider.hexDigitValue, Provider.hexDigit.
  destruct (d <? 10)%N eqn:H10.
  - apply N.ltb_lt in H10. replace (48 + d <? 58)%N with true by (symmetry; apply N.ltb_lt; lia).
    lia.
  - apply N.ltb_ge in H10. replace (87 + d <? 58)%N with false by (symmetry; apply N.ltb_ge; lia).
    lia.
Qed.

Lemma hexValue_snoc (s : jsstring) (u : N) :
  Provider.hexValue (s ++ [u]) = (16 * Provider.hexValue s + Provider.hexDigitValue u)%N.
Proof. unfold Provider.hexValue. by rewrite foldl_app. Qed.

(** With enough fuel the digits read back as the number. *)
Lemma toHexFuel_value (fuel : nat) (n : N) :
  (n < 16 ^ N.of_nat fuel)%N ->
  Provider.hexValue (Provider.toHexFuel fuel n) = n.
Proof.
  revert n. induction fuel as [|fuel IH]; intros n Hn.
  - simpl in Hn. assert (n = 0%N) as -> by lia. done.
  - simpl. destruct (n <? 16)%N eqn:H16.
    + apply N.ltb_lt in H16. unfold Provider.hexValue. simpl.
      rewrite hexDigitValue_hexDigit by done. lia.
    + apply N.ltb_ge in H16. rewrite hexValue_snoc, IH.
      * rewrite hexDigitValue_hexDigit by (apply N.mod_lt; lia).
        pose proof (N.div_mod n 16 ltac:(lia)). lia.
      * apply N.Div0.div_lt_upper_bound.
        rewrite Nat2N.inj_succ, N.pow_succ_r' in Hn. exact Hn.
Qed.

Lemma toHexFuel_length (fuel : nat) (n : N) (k : nat) :
  0 < k -> (n < 16 ^ N.of_nat k)%N -> length (Provider.toHexFuel fuel n) <= k.
Proof.
  revert n k. induction fuel as [|fuel IH]; intros n k Hk Hn; simpl; [lia|].
  destruct (n <? 16)%N eqn:H16; [simpl; lia|].
  apply N.ltb_ge in H16. rewrite length_app. simpl.
  destruct k as [|[|k]]; [lia| |].
  - simpl in Hn. lia.
  - specialize (IH (n / 16)%N (S k) ltac:(lia)).
    assert (n / 16 < 16 ^ N.of_nat (S k))%N; [|lia].
    apply N.Div0.div_lt_upper_bound.
    rewrite (Nat2N.inj_succ (S k)), N.pow_succ_r' in Hn. exact Hn.
Qed.

Lemma toHexFuel_pos (fuel : nat) (n : N) : 0 < length (Provider.toHexFuel (S fuel) n).
Proof.
  simpl. destruct (n <? 16)%N; [simpl; lia|]. rewrite length_app. simpl. lia.
Qed.

Lemma hexDigit_range (d : N) :
  (d < 16)%N ->
  (48 <= Provider.hexDigit d <= 57)%N \/ (97 <= Provider.hexDigit d <= 102)%N.
Proof.
  intros Hd. unfold Provider.hexDigit. destruct (d <? 10)%N eqn:H10.
  - apply N.ltb_lt in H10. lia.
  - apply N.ltb_ge in H10. lia.
Qed.

Lemma toHexFuel_digits (fuel : nat) (n : N) :
  Forall (fun u => (48 <= u <= 57)%N \/ (97 <= u <= 102)%N) (Provider.toHexFuel fuel n).
Proof.
  revert n. induction fuel as [|fuel IH]; intros n; simpl; [constructor|].
  destruct (n <? 16)%N eqn:H16.
  - apply N.ltb_lt in H16. constructor; [by apply hexDigit_range|constructor].
  - apply Forall_app. split; [apply IH|].
    constructor; [|constructor]. apply hexDigit_range. apply N.mod_lt. lia.
Qed.

Lemma toString16_fuel (n : N) : (n < 16 ^ N.of_nat (S (N.to_nat (N.log2 n))))%N.
Proof.
  rewrite Nat2N.inj_succ, N2Nat.id.
  destruct (decide (n = 0%N)) as [->|Hn]; [done|].
  pose proof (N.log2_spec n ltac:(lia)) as [_ Hlt].
  eapply N.lt_le_trans; [exact Hlt|].
  apply N.pow_le_mono_l. lia.
Qed.

Lemma hexValue_zeros (k : nat) (s : jsstring) :
  Provider.hexValue (replicate k 48%N ++ s) = Provider.hexValue s.
Proof.
  unfold Provider.hexValue. rewrite foldl_app. f_equal.
  induction k as [|k IH]; [done|]. rewrite replicate_S_end, foldl_app, IH. done.
Qed.

(** The colour string: ["#"] and at least six hexadecimal digits that read
    back as the number. *)
Lemma colorString_spec (n : N) :
  exists s,
    Provider.colorString n = ascii "#" ++ s /\
    Provider.hexValue s = n /\
    Forall (fun u => (48 <= u <= 57)%N \/ (97 <= u <= 102)%N) s /\
    6 <= length s /\
    ((n < 2 ^ 24)%N -> length s = 6).
Proof.
  unfold Provider.colorString, Provider.padStart.
  eexists. split; [done|]. split; [|split; [|split]].
  - rewrite hexValue_zeros. apply toHexFuel_value, toString16_fuel.
  - apply Forall_app. split; [|apply toHexFuel_digits].
    apply Forall_replicate. left. lia.
  - rewrite length_app, length_replicate. lia.
  - intros Hn. rewrite length_app, length_replicate.
    pose proof (toHexFuel_length (S (N.to_nat (N.log2 n))) n 6 ltac:(lia) Hn).
    unfold Provider.toString16. lia.
Qed.

Lemma colorString_not_theme (n : N) : take 6 (Provider.colorString n) <> ascii "theme.".
Proof. unfold Provider.colorString. simpl. discriminate. Qed.

Lemma normalizeThemeColor_idempotent (c : option Provider.Color) :
  Provider.normalizeThemeColor (Provider.normalizeThemeColor c)
  = Provider.normalizeThemeColor c.
Proof.
  destruct c as [[s|t]|]; simpl; try done.
  destruct (decide (take 6 s = ascii "theme.")) as [Hs|Hs]; simpl; [done|].
  by rewrite decide_False.
Qed.

Lemma normalizeThemeColor_not_theme (c : option Provider.Color) (s : jsstring) :
  take 6 s = ascii "theme." ->
  Provider.normalizeThemeColor c <> Some (Provider.ColorString s).
Proof.
  intros Hs. destruct c as [[s'|t]|]; simpl; try done.
  destruct (decide (take 6 s' = ascii "theme.")) as [Hs'|Hs']; [done|].
  intros [= ->]. done.
Qed.

(** [groups.reverse().find(...)] picks the last configured group. *)
Lemma find_last_configured {A} (P : A -> Prop) `{forall x, Decision (P x)}
    (pre post : list A) (g : A) :
  P g -> Forall (fun g' => ~ P g') post ->
  snd <$> list_find P (reverse (pre ++ g :: post)) = Some g.
Proof.
  intros Hg Hpost. rewrite reverse_app, reverse_cons, <- app_assoc.
  rewrite list_find_app_r by (apply list_find_None; by apply Forall_reverse).
  simpl. rewrite decide_True by done. done.
Qed.

Lemma find_none_configured {A} (P : A -> Prop) `{forall x, Decision (P x)}
    (groups : list A) :
  Forall (fun g' => ~ P g') groups ->
  snd <$> list_find P (reverse groups) = None.
Proof.
  intros Hall. replace (list_find P (reverse groups)) with (@None (nat * A)); [done|].
  symmetry. apply list_find_None. by apply Forall_reverse.
Qed.
(** * The range builder: exception, meaning of the ranges, top line, row-clear *)

(** X1.  [buildHighlightRanges] throws (the [TypeError] of
    [colHighlights[0].virtText]) exactly when some stored column of some
    stored row is an empty list; on every other grid it returns its
    ranges. *)
Theorem buildHighlightRanges_throws_on_empty_column (grid : Grid) (topLine : Z) :
  buildHighlightRanges grid topLine = None
  <-> exists r gridRow c, arr_get grid r = Some gridRow /\ arr_get gridRow c = Some [].
Proof. apply forEachM_visitRow_None. Qed.

(** X2.  Every range that [buildHighlightRanges] returns
    describes a stored row, on the line [row + topLine]: a normal range
    [startCol, endCol) is not empty, each of its columns stores a single
    entry with the id of the range and with no virtual text ([undefined] or
    the empty string), and the columns [startCol - 1] and [endCol] do not
    (the run is maximal); a virtual range carries the entry list stored at
    its column, which has several entries or a first entry with virtual
    text. *)
Theorem buildHighlightRanges_ranges_describe_rows (grid : Grid) (topLine : Z)
    (out : list HighlightRange) (x : HighlightRange) :
  buildHighlightRanges grid topLine = Some out ->
  x ∈ out ->
  exists r gridRow, arr_get grid r = Some gridRow /\
    rangeOfRow (Z.of_nat r + topLine)%Z gridRow x.
Proof. apply buildHighlightRanges_rangeOfRow. Qed.

Lemma buildHighlightRanges_ranges_describe_rows_witness :
  exists r gridRow, arr_get Examples.gridThreeRuns r = Some gridRow /\
    rangeOfRow (Z.of_nat r + 10)%Z gridRow (NormalRange 1 12 0 2).
Proof.
  eapply (buildHighlightRanges_ranges_describe_rows Examples.gridThreeRuns 10);
    [reflexivity|].
  vm_compute. repeat constructor.
Defined.

(** X3.  The ranges that [buildHighlightRanges] returns
    account for every stored column: a column whose list has several
    entries, or a first entry with virtual text, has its virtual range on
    the line [row + topLine], and a column with a single entry without
    virtual text lies inside a normal range of its id on that line. *)
Theorem buildHighlightRanges_covers_every_column (grid : Grid) (topLine : Z)
    (out : list HighlightRange) (r : nat) (gridRow : GridRow) (c : nat) :
  buildHighlightRanges grid topLine = Some out ->
  arr_get grid r = Some gridRow ->
  columnCovered (Z.of_nat r + topLine)%Z gridRow c out.
Proof.
  intros Hout Hr. unfold buildHighlightRanges, arr_entries in Hout.
  pose proof (forEachM_visitRow_elem_of _ _ _ _ _ Hout) as Hin.
  destruct (visitRow_ranges topLine r gridRow) as (rowOut & Hrow & _ & Hcov).
  - intros c' Hc'.
    assert (forEachM (visitRow topLine) [] (entries_from 0 grid) = None).
    { apply forEachM_visitRow_None. eauto. }
    congruence.
  - assert (Hsub : forall x, x ∈ rowOut -> x ∈ out).
    { intros x Hx. apply Hin. right. by exists r, gridRow, rowOut. }
    destruct (Hcov c) as [Hv Hn]. split.
    + intros hls Hhls Hvirt. by apply Hsub, Hv.
    + intros id Hid. destruct (Hn id Hid) as (s & e & Hse & Hc).
      exists s, e. split; [by apply Hsub|done].
Qed.

Lemma buildHighlightRanges_covers_every_column_witness :
  columnCovered (Z.of_nat 2 + 10)%Z Examples.rowThreeRuns 4
    [VirtualRange [Examples.tabCell 1; Examples.tabCell 1] 10 0;
     NormalRange 5 10 1 2; NormalRange 1 12 0 2; NormalRange 2 12 2 3;
     NormalRange 2 12 4 5].
Proof.
  apply (buildHighlightRanges_covers_every_column Examples.gridThreeRuns 10);
    reflexivity.
Defined.

(** X4.  The top line only moves the ranges: the ranges for
    [topLine] are the ranges for top line 0 with [topLine] added to every
    line, and the builder throws for one top line when it throws for the
    other. *)
Theorem buildHighlightRanges_topLine (grid : Grid) (topLine : Z) :
  buildHighlightRanges grid topLine
  = fmap (M := list) (shiftLine topLine) <$> buildHighlightRanges grid 0.
Proof. apply (forEachM_visitRow_shiftLine topLine (arr_entries grid) []). Qed.

(** X5.  After [cleanRow(row)] the builder returns the
    ranges it returned before without those of the line [row + topLine],
    in the same order. *)
Theorem cleanRow_removes_the_ranges_of_its_line (grid : Grid) (r : nat) (topLine : Z)
    (out : list HighlightRange) :
  buildHighlightRanges grid topLine = Some out ->
  buildHighlightRanges (cleanRow grid r) topLine
  = Some (filter (fun x => rangeLine x <> (Z.of_nat r + topLine)%Z) out).
Proof.
  intros Hout. unfold buildHighlightRanges, arr_entries, cleanRow, arr_delete in *.
  destruct (decide (r < length grid)) as [Hr|Hr].
  - by apply (forEachM_visitRow_cleaned topLine grid 0 r []).
  - rewrite list_insert_ge by lia.
    apply (forEachM_visitRow_other topLine r grid 0 []); [intros; lia|done].
Qed.

Lemma cleanRow_removes_the_ranges_of_its_line_witness :
  buildHighlightRanges (cleanRow Examples.gridThreeRuns 2) 10
  = Some (filter (fun x => rangeLine x <> (Z.of_nat 2 + 10)%Z)
            [VirtualRange [Examples.tabCell 1; Examples.tabCell 1] 10 0;
             NormalRange 5 10 1 2; NormalRange 1 12 0 2; NormalRange 2 12 2 3;
             NormalRange 2 12 4 5]).
Proof.
  apply (cleanRow_removes_the_ranges_of_its_line Examples.gridThreeRuns 2 10).
  reflexivity.
Defined.

(** X6.  On a grid in which no stored column is an empty
    list or a list of id-0 entries only, [buildHighlightRanges] returns, and
    no range it returns is one of the default highlight: a normal range
    has an id other than 0 and a virtual range has an entry with an id
    other than 0.  An event whose start column does not fall strictly
    inside a multi-cell column keeps the grid that way, so the ranges built
    after it are of this kind. *)
Theorem buildHighlightRanges_no_default_range `{TextUtils} (grid grid' : Grid)
    (ev : HighlightCellsEvent) (b : bool) (topLine : Z) :
  gridInvariant grid ->
  eventPrevColumnCells ev = None ->
  processHighlightCellsEvent grid ev = Some (grid', b) ->
  exists out,
    buildHighlightRanges grid' topLine = Some out /\
    forall x, x ∈ out ->
      match x with
      | NormalRange id _ _ _ => id <> 0%Z
      | VirtualRange hls _ _ => exists h, h ∈ hls /\ hlId (cell h) <> 0%Z
      end.
Proof.
  intros Hinv Hprev Hp.
  apply (buildHighlightRanges_invariant grid' topLine).
  by eapply processHighlightCellsEvent_invariant.
Qed.

Lemma buildHighlightRanges_no_default_range_witness :
  exists out,
    buildHighlightRanges Examples.gridACatB 0 = Some out /\
    forall x, x ∈ out ->
      match x with
      | NormalRange id _ _ _ => id <> 0%Z
      | VirtualRange hls _ _ => exists h, h ∈ hls /\ hlId (cell h) <> 0%Z
      end.
Proof.
  apply (buildHighlightRanges_no_default_range (H := UnicodeText.utils)
           [] Examples.gridACatB Examples.evThreeCells true 0).
  - intros r gridRow Hr. by rewrite arr_get_ge in Hr by (simpl; lia).
  - reflexivity.
  - vm_compute. reflexivity.
Defined.
(** * The row shifter: negative amounts, composition, rows kept *)

(** X7.  For a negative amount [by] and [from <> 0],
    [shiftHighlights(by, from)] leaves the rows below [from] where they
    are, empties the [2 * |by|] indices from [from] on and makes every
    index [j >= from + 2 * |by|] hold what index [j - |by|] held: the rows
    at [from .. from + |by| - 1] are gone and the rows stored above them
    are found [|by|] indices further down.  The grid does not get
    shorter. *)
Theorem shiftHighlights_negative (grid : Grid) (by_ : Z) (from : nat) :
  (by_ < 0)%Z ->
  from <> 0 ->
  length grid <= length (shiftHighlights grid by_ from) /\
  forall j,
    arr_get (shiftHighlights grid by_ from) j =
    if decide (j < from) then arr_get grid j
    else if decide (j < from + 2 * Z.to_nat (- by_)) then None
    else arr_get grid (j - Z.to_nat (- by_)).
Proof.
  intros Hneg Hfrom. unfold shiftHighlights.
  replace (0 <? by_)%Z with false by lia. replace (by_ <? 0)%Z with true by lia.
  set (b := Z.to_nat (- by_)).
  replace (Z.to_nat (Z.abs by_)) with b by lia.
  replace (Z.abs by_) with (Z.of_nat b) by lia.
  destruct (foldl_deleteAt_from grid from b Hfrom) as [Hlen Hget].
  set (g1 := foldl _ grid (seq 0 b)) in *.
  destruct (shiftHighlights_down_loop g1 from b ltac:(lia)) as (Hdown & Hle & _).
  unfold moveDown in Hdown, Hle. split; [lia|].
  intros j. rewrite Hdown, !Hget.
  repeat case_decide; try done; lia.
Qed.

Lemma shiftHighlights_negative_witness :
  length Examples.gridThreeRuns <= length (shiftHighlights Examples.gridThreeRuns (-1) 1) /\
  forall j,
    arr_get (shiftHighlights Examples.gridThreeRuns (-1) 1) j =
    if decide (j < 1) then arr_get Examples.gridThreeRuns j
    else if decide (j < 1 + 2 * Z.to_nat (- (-1))) then None
    else arr_get Examples.gridThreeRuns (j - Z.to_nat (- (-1))).
Proof.
  apply (shiftHighlights_negative Examples.gridThreeRuns (-1) 1); [reflexivity|].
  discriminate.
Defined.

(** X8.  For a negative amount [by] and [from = 0],
    [shiftHighlights(by, 0)] keeps the [length] of the grid, drops the last
    [|by|] rows and makes every index [j] with [|by| < j < length] hold
    what index [j - |by|] held; the indices [1 .. |by|] are empty.  Row 0
    is not moved: it stays at index 0, unless it is among the rows
    dropped. *)
Theorem shiftHighlights_negative_from_top (grid : Grid) (by_ : Z) :
  (by_ < 0)%Z ->
  length (shiftHighlights grid by_ 0) = length grid /\
  forall j,
    arr_get (shiftHighlights grid by_ 0) j =
    if decide (j = 0)
    then (if decide (length grid <= Z.to_nat (- by_)) then None else arr_get grid 0)
    else if decide (Z.to_nat (- by_) < j < length grid)
         then arr_get grid (j - Z.to_nat (- by_))
         else None.
Proof.
  intros Hneg. unfold shiftHighlights.
  replace (0 <? by_)%Z with false by lia. replace (by_ <? 0)%Z with true by lia.
  set (b := Z.to_nat (- by_)).
  replace (Z.to_nat (Z.abs by_)) with b by lia.
  replace (Z.abs by_) with (Z.of_nat b) by lia.
  destruct (foldl_deleteAt_end grid b) as [Hlen Hget].
  set (g1 := foldl _ grid (seq 0 b)) in *.
  destruct (shiftHighlights_down_loop g1 0 b ltac:(lia)) as (Hdown & Hle & Hlast).
  unfold moveDown in Hdown, Hle, Hlast.
  set (h := foldl _ g1 (reverse (rowIndices g1))) in *.
  assert (Hh : forall j, arr_get h j =
            if decide (j = 0)
            then (if decide (length grid <= b) then None else arr_get grid 0)
            else if decide (b < j < length grid) then arr_get grid (j - b) else None).
  { intros j. rewrite Hdown. destruct (decide (j = 0)) as [->|Hj].
    - rewrite decide_True by lia. rewrite Hget. simpl.
      repeat case_decide; try done; lia.
    - rewrite decide_False by lia. simpl.
      destruct (decide (b < j)); [|by rewrite decide_False by lia].
      rewrite Hget. repeat case_decide; try done; lia. }
  split; [|done].
  destruct Hlast as [Hl|[r Hr]]; [lia|].
  destruct (decide (length h <= length grid)); [lia|].
  rewrite Hh in Hr. repeat case_decide; try done; lia.
Qed.

Lemma shiftHighlights_negative_from_top_witness :
  length (shiftHighlights Examples.gridThreeRuns (-1) 0) = length Examples.gridThreeRuns /\
  forall j,
    arr_get (shiftHighlights Examples.gridThreeRuns (-1) 0) j =
    if decide (j = 0)
    then (if decide (length Examples.gridThreeRuns <= Z.to_nat (- (-1))) then None
          else arr_get Examples.gridThreeRuns 0)
    else if decide (Z.to_nat (- (-1)) < j < length Examples.gridThreeRuns)
         then arr_get Examples.gridThreeRuns (j - Z.to_nat (- (-1)))
         else None.
Proof. apply (shiftHighlights_negative_from_top Examples.gridThreeRuns (-1)). reflexivity. Defined.

(** X9.  Two shifts up from the same row compose: shifting
    by [a > 0] and then by [b > 0] gives the grid that the one shift by
    [a + b] gives. *)
Theorem shiftHighlights_positive_compose (grid : Grid) (a b : Z) (from : nat) :
  (0 < a)%Z ->
  (0 < b)%Z ->
  shiftHighlights (shiftHighlights grid a from) b from = shiftHighlights grid (a + b) from.
Proof.
  intros Ha Hb.
  destruct (shiftHighlights_up grid a from Ha) as [Hla Hga].
  destruct (shiftHighlights_up (shiftHighlights grid a from) b from Hb) as [Hlb Hgb].
  destruct (shiftHighlights_up grid (a + b) from ltac:(lia)) as [Hlab Hgab].
  apply arr_ext; [lia|].
  intros j. rewrite Hgb, Hgab, !Hga.
  destruct (decide (j < from)); [done|].
  rewrite decide_False by lia. f_equal. lia.
Qed.

Lemma shiftHighlights_positive_compose_witness :
  shiftHighlights (shiftHighlights Examples.gridThreeRuns 1 0) 1 0
  = shiftHighlights Examples.gridThreeRuns (1 + 1) 0.
Proof.
  apply (shiftHighlights_positive_compose Examples.gridThreeRuns 1 1 0); reflexivity.
Defined.

(** X10.  Whatever the amount and the start row,
    [shiftHighlights] only deletes and moves rows: every row of the grid
    after the shift is a row that the grid held before, with the columns it
    had. *)
Theorem shiftHighlights_keeps_rows_whole (grid : Grid) (by_ : Z) (from j : nat)
    (gridRow : GridRow) :
  arr_get (shiftHighlights grid by_ from) j = Some gridRow ->
  exists i, arr_get grid i = Some gridRow.
Proof. apply shiftHighlights_rowsFrom. Qed.

Lemma shiftHighlights_keeps_rows_whole_witness :
  exists i, arr_get Examples.gridThreeRuns i = Some Examples.rowThreeRuns.
Proof.
  apply (shiftHighlights_keeps_rows_whole Examples.gridThreeRuns (-1) 1 3
           Examples.rowThreeRuns).
  reflexivity.
Defined.
(** * The cell-run processor: what an event can touch, and with what *)

(** X11.  [processHighlightCellsEvent] touches one row, from
    the column before the start column on: the other rows of the grid stay
    as they are, the row of the event exists afterwards (the grid is
    extended up to it when needed), and every column of that row further
    left than the column before [editorCol] holds what it held. *)
Theorem processHighlightCellsEvent_is_local `{TextUtils} (grid grid' : Grid)
    (ev : HighlightCellsEvent) (b : bool) :
  processHighlightCellsEvent grid ev = Some (grid', b) ->
  length grid' = Nat.max (length grid) (S (row ev)) /\
  (forall r, r <> row ev -> arr_get grid' r = arr_get grid r) /\
  exists gridRow', arr_get grid' (row ev) = Some gridRow' /\
    forall c,
      S c < calculateEditorColFromVimScreenCol (lineText ev) (vimCol ev) (tabSize ev) ->
      arr_get gridRow' c = arr_get (default [] (arr_get grid (row ev))) c.
Proof.
  intros Hp. rewrite processHighlightCellsEvent_visits in Hp.
  destruct (eventVisits grid ev) as [visits|] eqn:Hv; [|done].
  simpl in Hp. injection Hp as <- <-.
  split; [|split].
  - rewrite length_arr_set. unfold ensureRow.
    destruct (arr_get grid (row ev)) as [gridRow|] eqn:Hrow.
    + apply arr_get_Some_lt in Hrow. lia.
    + rewrite length_arr_set. lia.
  - intros r Hr. rewrite arr_get_set. rewrite decide_False by done.
    by apply ensureRow_get_other.
  - eexists. split; [rewrite arr_get_set; by rewrite decide_True|].
    intros c Hc. unfold eventVisits in Hv.
    apply walkVisits_cols in Hv as [Hcols _].
    rewrite arr_get_storeVisits, (lastVisit_below _ _ _ Hcols) by lia. simpl.
    rewrite beforeWalk_eq. simpl.
    destruct (eventPrevColumnCells ev) as [[[[p e] right] it']|] eqn:Hprev; [|done].
    apply prevColumnCells_prev in Hprev. simpl.
    rewrite arr_get_set. by rewrite decide_False by lia.
Qed.

Lemma processHighlightCellsEvent_is_local_witness :
  length Examples.gridTabLine'
  = Nat.max (length Examples.gridTabLine) (S (row Examples.evTabLastCell)) /\
  (forall r, r <> row Examples.evTabLastCell ->
     arr_get Examples.gridTabLine' r = arr_get Examples.gridTabLine r) /\
  exists gridRow', arr_get Examples.gridTabLine' (row Examples.evTabLastCell) = Some gridRow' /\
    forall c,
      S c < UnicodeText.calculateEditorColFromVimScreenCol
              (lineText Examples.evTabLastCell) (vimCol Examples.evTabLastCell)
              (tabSize Examples.evTabLastCell) ->
      arr_get gridRow' c
      = arr_get (default [] (arr_get Examples.gridTabLine (row Examples.evTabLastCell))) c.
Proof.
  apply (processHighlightCellsEvent_is_local (H := UnicodeText.utils)
           Examples.gridTabLine Examples.gridTabLine' Examples.evTabLastCell false).
  vm_compute. reflexivity.
Defined.

(** X12.  The processor invents no highlight: after an
    event, every entry stored in a column of its row either carries one of
    the valid cells of the event (text and highlight id), or was stored in
    that column before the event. *)
Theorem processHighlightCellsEvent_entries_carry_event_cells `{TextUtils}
    (grid grid' : Grid) (ev : HighlightCellsEvent) (b : bool)
    (gridRow' : GridRow) (c : nat) (hls : list Highlight) (h : Highlight) :
  processHighlightCellsEvent grid ev = Some (grid', b) ->
  arr_get grid' (row ev) = Some gridRow' ->
  arr_get gridRow' c = Some hls ->
  h ∈ hls ->
  cell h ∈ validCells ev \/
  exists hls0, arr_get (default [] (arr_get grid (row ev))) c = Some hls0 /\ h ∈ hls0.
Proof.
  intros Hp Hrow Hc Hh. rewrite processHighlightCellsEvent_visits in Hp.
  destruct (eventVisits grid ev) as [visits|] eqn:Hv; [|done].
  simpl in Hp. injection Hp as <- <-.
  rewrite arr_get_set in Hrow. rewrite decide_True in Hrow by done.
  injection Hrow as <-. rewrite arr_get_storeVisits in Hc. simpl in Hc.
  destruct (lastVisit visits c) as [hls1|] eqn:Hlast.
  - destruct (noHighlight hls1); [done|]. injection Hc as ->.
    apply lastVisit_elem_of in Hlast. left. unfold eventVisits in Hv.
    rewrite <- (beforeWalk_cells grid ev). by eapply walkVisits_cells.
  - rewrite beforeWalk_eq in Hc. simpl in Hc.
    destruct (eventPrevColumnCells ev) as [[[[p e] right] it']|] eqn:Hprev; simpl in Hc.
    + rewrite arr_get_set in Hc. destruct (decide (c = p)) as [->|]; [|right; eauto].
      injection Hc as <-. apply elem_of_app in Hh as [Hh|Hh].
      * right. destruct (decide _); [by apply elem_of_nil in Hh|].
        apply elem_of_sliceTo in Hh.
        destruct (arr_get (default [] (arr_get grid (row ev))) p) as [hls0|];
          [eauto|by apply elem_of_nil in Hh].
      * left. unfold eventPrevColumnCells, prevColumnCells in Hprev.
        case_decide; [|done]. destruct (gtNaN _ 1); [|done].
        destruct (_ <? _)%Z; [|done].
        destruct (takeVirtual _ _ []) as [right0 it0] eqn:Htake.
        injection Hprev as _ _ <- _.
        change right0 with (right0, it0).1 in Hh. rewrite <- Htake in Hh.
        apply takeVirtual_cells in Hh as [Hh|Hh]; [by apply elem_of_nil in Hh|done].
    + right. eauto.
Qed.

Lemma processHighlightCellsEvent_entries_carry_event_cells_witness :
  cell (Examples.tabCell 3) ∈ validCells Examples.evTabLastCell \/
  exists hls0,
    arr_get (default [] (arr_get Examples.gridTabLine (row Examples.evTabLastCell))) 0
    = Some hls0 /\ Examples.tabCell 3 ∈ hls0.
Proof.
  apply (processHighlightCellsEvent_entries_carry_event_cells (H := UnicodeText.utils)
           Examples.gridTabLine Examples.gridTabLine' Examples.evTabLastCell false
           [Some [Examples.tabCell 1; Examples.tabCell 1; Examples.tabCell 1;
                  Examples.tabCell 3];
            Some [mkHighlight (mkCell (ascii "x") 2) None]]
           0
           [Examples.tabCell 1; Examples.tabCell 1; Examples.tabCell 1; Examples.tabCell 3]
           (Examples.tabCell 3)).
  - vm_compute. reflexivity.
  - reflexivity.
  - reflexivity.
  - repeat constructor.
Defined.

(** An event without valid cells returns [false].
    When, moreover, its start column does not fall strictly inside a
    multi-cell column, all it does is create the row: the grid afterwards
    is the grid before with [this.grid[row] = []] when the row was
    missing. *)
Lemma processHighlightCellsEvent_without_cells `{TextUtils} (grid : Grid)
    (ev : HighlightCellsEvent) :
  validCells ev = [] ->
  exists grid', processHighlightCellsEvent grid ev = Some (grid', false) /\
    (eventPrevColumnCells ev = None -> grid' = ensureRow grid (row ev)).
Proof.
  intros Hcells. rewrite processHighlightCellsEvent_visits.
  unfold eventVisits. rewrite Hcells. simpl.
  pose proof (beforeWalk_cells grid ev) as Hbc. rewrite Hcells in Hbc.
  rewrite Hbc. simpl. eexists. split; [done|].
  intros Hprev. rewrite beforeWalk_eq, Hprev. simpl.
  destruct (ensureRow_get grid (row ev)) as (gridRow & Hget & ->).
  by apply arr_set_same.
Qed.
(** * [maxColInRow] and [CellIter] *)

(** X13.  [maxColInRow(row)] is an upper bound of the stored
    columns of the row, and it is one of them unless it is 0; it is 0 for
    a missing row and for a row without stored columns, as it is for a row
    whose only stored column is column 0. *)
Theorem maxColInRow_largest_stored_column (grid : Grid) (row : nat) :
  (forall gridRow c hls,
     arr_get grid row = Some gridRow -> arr_get gridRow c = Some hls ->
     c <= maxColInRow grid row) /\
  (maxColInRow grid row = 0 \/
   exists gridRow hls,
     arr_get grid row = Some gridRow /\
     arr_get gridRow (maxColInRow grid row) = Some hls) /\
  (forall gridRow,
     arr_get grid row = Some gridRow ->
     (forall c, arr_get gridRow c = None) -> maxColInRow grid row = 0) /\
  (arr_get grid row = None -> maxColInRow grid row = 0).
Proof.
  unfold maxColInRow. destruct (arr_get grid row) as [gridRow|];
    [|split; [done|]; split; [by left|done]].
  destruct (foldl_max_col (arr_entries gridRow) 0) as (_ & Hall & Hcase).
  split; [|split; [|split]].
  - intros ? c hls [= <-] Hc. apply (Hall c hls). by apply elem_of_arr_entries.
  - destruct Hcase as [Heq|[hls Hin]]; [by left|right].
    exists gridRow, hls. split; [done|]. by apply elem_of_arr_entries.
  - intros ? [= <-] Hnone. destruct Hcase as [Heq|[hls Hin]]; [done|].
    apply elem_of_arr_entries in Hin. by rewrite Hnone in Hin.
  - done.
Qed.

(** X14.  The iterator hands out the cells in order and then
    [undefined] for ever: after [k] calls of [next()], the next call
    returns the cell at [_index + k], which is [undefined] from the end of
    the cells on, and [getNext()] returns the same without advancing.
    [setNext(hlId, text)] replaces the cell that the next call returns and
    no other; once the cells are exhausted it does nothing. *)
Theorem CellIter_hands_out_cells_in_order (it : CellIter) (k : nat) (hl : Z) (t : jsstring) :
  (next (Nat.iter k (fun it => (next it).2) it)).1 = _cells it !! (_index it + k) /\
  getNext (Nat.iter k (fun it => (next it).2) it) = _cells it !! (_index it + k) /\
  (length (_cells it) <= _index it + k ->
   (next (Nat.iter k (fun it => (next it).2) it)).1 = None) /\
  (_index it < length (_cells it) ->
   (next (setNext it hl t)).1 = Some (mkCell t hl) /\
   forall i, i <> 0 ->
     (next (Nat.iter i (fun it => (next it).2) (setNext it hl t))).1
     = (next (Nat.iter i (fun it => (next it).2) it)).1) /\
  (length (_cells it) <= _index it -> setNext it hl t = it).
Proof.
  destruct (next_iter_index k it) as [Hc Hi].
  assert (Hnext : forall it' i,
            (next (Nat.iter i (fun it => (next it).2) it')).1
            = _cells it' !! (_index it' + i)).
  { intros it' i. destruct (next_iter_index i it') as [Hc' Hi'].
    unfold next at 1. cbn [fst]. by rewrite Hc', Hi'. }
  split; [apply Hnext|]. split; [unfold getNext; by rewrite Hc, Hi|].
  split; [intros Hend; rewrite Hnext; by apply lookup_ge_None_2|].
  split.
  - intros Hlt. unfold setNext. rewrite decide_True by done. split.
    + unfold next. simpl. by apply list_lookup_insert_eq.
    + intros i Hne. rewrite !Hnext. simpl. apply list_lookup_insert_ne. lia.
  - intros Hge. unfold setNext. by rewrite decide_False by lia.
Qed.
(** * The cell-based grid: redraw events, flush, cache, dispose *)

Section cell_grid_extras.
Context {Decorator Style : Type} `{EqDecision Decorator}.
Variable getDecorator : Z -> option Decorator * Style.
Variable computeLineHighlights :
  sparse (list ValidCell) -> Z -> jsstring -> Z -> jsmap nat (list Highlight).

(** X15.  [handleGridLine(line, vimCol, cells)] overwrites
    the cells of the line from [vimCol] on with the expanded cells of the
    event and keeps the others: a column left of [vimCol] keeps its cell,
    or gets the blank cell of id 0 when the line was shorter; the columns
    behind the redrawn ones keep their cells.  The other lines are not
    touched, the cached decorations of the line, and of no other line, are
    dropped, and the grid is marked dirty. *)
Theorem handleGridLine_overwrites_the_redrawn_cells
    (normalizeHighlightId : Z -> Z) (line vimCol : nat)
    (cells : list (jsstring * option Z * option nat))
    (st : CellGrid.GridState (Decorator := Decorator) (Style := Style)) :
  (exists cells',
     arr_get (CellGrid.lineCells
                (CellGrid.handleGridLine normalizeHighlightId line vimCol cells st)) line
     = Some cells' /\
     (forall i, i < vimCol ->
        cells' !! i
        = Some (default (mkCell [SPACE] 0)
                  (default [] (arr_get (CellGrid.lineCells st) line) !! i))) /\
     (forall i, i < length (CellGrid.redrawCells normalizeHighlightId cells) ->
        cells' !! (vimCol + i) = CellGrid.redrawCells normalizeHighlightId cells !! i) /\
     (forall i, vimCol + length (CellGrid.redrawCells normalizeHighlightId cells) <= i ->
        cells' !! i = default [] (arr_get (CellGrid.lineCells st) line) !! i)) /\
  (forall l, l <> line ->
     arr_get (CellGrid.lineCells
                (CellGrid.handleGridLine normalizeHighlightId line vimCol cells st)) l
     = arr_get (CellGrid.lineCells st) l) /\
  (forall l,
     map_get (CellGrid.lineDecorationsCache
                (CellGrid.handleGridLine normalizeHighlightId line vimCol cells st)) l
     = if decide (l = Z.of_nat line) then None
       else map_get (CellGrid.lineDecorationsCache st) l) /\
  CellGrid.isDirty (CellGrid.handleGridLine normalizeHighlightId line vimCol cells st) = true /\
  CellGrid.prevDecorators (CellGrid.handleGridLine normalizeHighlightId line vimCol cells st)
  = CellGrid.prevDecorators st.
Proof.
  rewrite handleGridLine_eq. simpl.
  set (prev := default [] (arr_get (CellGrid.lineCells st) line)).
  set (redraw := CellGrid.redrawCells normalizeHighlightId cells).
  set (padded := prev ++ replicate (vimCol - length prev) (mkCell [SPACE] 0)).
  assert (Hpad : length padded = Nat.max (length prev) vimCol).
  { unfold padded. rewrite length_app, length_replicate. lia. }
  assert (Htake : length (take vimCol padded) = vimCol) by (rewrite length_take; lia).
  split; [|split; [|split; [|done]]].
  - eexists. split; [rewrite arr_get_set; by rewrite decide_True|]. split; [|split].
    + intros i Hi. rewrite lookup_app_l by lia. rewrite lookup_take_lt by done.
      unfold padded. destruct (decide (i < length prev)) as [Hlt|Hge].
      * rewrite lookup_app_l by done.
        destruct (prev !! i) eqn:Hp; [done|]. apply lookup_ge_None in Hp. lia.
      * rewrite lookup_app_r by lia. rewrite lookup_replicate_2 by lia.
        by rewrite (lookup_ge_None_2 prev) by lia.
    + intros i Hi. rewrite lookup_app_r by lia. rewrite Htake.
      replace (vimCol + i - vimCol) with i by lia. by rewrite lookup_app_l.
    + intros i Hi. rewrite lookup_app_r by lia. rewrite Htake.
      rewrite lookup_app_r by lia. rewrite lookup_drop.
      replace (vimCol + length redraw + (i - vimCol - length redraw)) with i by lia.
      unfold padded. destruct (decide (i < length prev)) as [Hlt|Hge].
      * by rewrite lookup_app_l.
      * rewrite lookup_app_r by lia. rewrite (lookup_ge_None_2 prev) by lia.
        apply lookup_ge_None_2. rewrite length_replicate. lia.
  - intros l Hl. rewrite arr_get_set. by rewrite decide_False.
  - intros l. apply map_get_delete.
Qed.

(** X16.  A redraw event can be delivered in two parts: for
    a run of cells cut before a cell that carries a highlight id,
    [handleGridLine] with the whole run leaves the state that
    [handleGridLine] with the first part, followed by [handleGridLine] with
    the second part at the column behind the first, leaves. *)
Theorem handleGridLine_in_two_parts
    (normalizeHighlightId : Z -> Z) (line vimCol : nat)
    (cells1 cells2 : list (jsstring * option Z * option nat))
    (st : CellGrid.GridState (Decorator := Decorator) (Style := Style)) :
  match cells2 with
  | (_, None, _) :: _ => False
  | _ => True
  end ->
  CellGrid.handleGridLine normalizeHighlightId line vimCol (cells1 ++ cells2) st
  = CellGrid.handleGridLine normalizeHighlightId line
      (vimCol + length (CellGrid.redrawCells normalizeHighlightId cells1)) cells2
      (CellGrid.handleGridLine normalizeHighlightId line vimCol cells1 st).
Proof.
  intros Hid. rewrite !handleGridLine_eq. simpl.
  rewrite (redrawCells_app _ _ _ Hid).
  set (prev := default [] (arr_get (CellGrid.lineCells st) line)).
  set (r1 := CellGrid.redrawCells normalizeHighlightId cells1).
  set (r2 := CellGrid.redrawCells normalizeHighlightId cells2).
  set (padded := prev ++ replicate (vimCol - length prev) (mkCell [SPACE] 0)).
  assert (Hpad : length padded = Nat.max (length prev) vimCol).
  { unfold padded. rewrite length_app, length_replicate. lia. }
  assert (Htake : length (take vimCol padded) = vimCol) by (rewrite length_take; lia).
  rewrite arr_get_set, (decide_True (P := line = line)) by done. simpl.
  rewrite arr_set_set. f_equal; [|by rewrite list_filter_filter_l].
  f_equal.
  set (L := take vimCol padded) in *.
  set (R := drop (vimCol + length r1) padded).
  replace (vimCol + length r1 - length (L ++ r1 ++ R)) with 0
    by (rewrite !length_app; lia).
  simpl. rewrite app_nil_r.
  assert (Ht : take (vimCol + length r1) (L ++ r1 ++ R) = L ++ r1).
  { rewrite app_assoc. apply take_app_length'. rewrite length_app. lia. }
  assert (Hd : drop (vimCol + length r1 + length r2) (L ++ r1 ++ R)
               = drop (vimCol + length (r1 ++ r2)) padded).
  { rewrite app_assoc, drop_app_ge by (rewrite length_app; lia).
    unfold R. rewrite drop_drop. f_equal. rewrite !length_app. lia. }
  rewrite Ht, Hd. by rewrite <- !app_assoc.
Qed.

#[local] Abbreviation lineDecorationsOf :=
  (CellGrid.lineDecorationsOf getDecorator computeLineHighlights).
#[local] Abbreviation decorationsStep :=
  (CellGrid.decorationsStep getDecorator computeLineHighlights).

(** [getDecorations] is the loop of [decorationsStep] over the lines. *)
Lemma getDecorations_loop lineCells cache editor startLine endLine :
  CellGrid.getDecorations getDecorator computeLineHighlights lineCells cache editor
    startLine endLine
  = foldl (decorationsStep lineCells editor)
          ([], cache) (CellGrid.linesFromTo startLine endLine).
Proof.
  unfold CellGrid.getDecorations. generalize (CellGrid.linesFromTo startLine endLine).
  generalize (@nil (Decorator * list (CellGrid.DecorationOptions (Style := Style)))).
  intros results lines. revert results cache.
  induction lines as [|line lines IH]; intros results cache; [done|]. simpl. apply IH.
Qed.

Lemma elem_of_linesFromTo startLine endLine line :
  line ∈ CellGrid.linesFromTo startLine endLine <-> (startLine <= line <= endLine)%Z.
Proof.
  unfold CellGrid.linesFromTo. rewrite list_elem_of_fmap. split.
  - intros (i & -> & Hi). apply elem_of_seq in Hi. lia.
  - intros Hline. exists (Z.to_nat (line - startLine)). split; [lia|].
    apply elem_of_seq. lia.
Qed.

Lemma lineDecorationsOf_set lineCells cache editor line0 line :
  lineDecorationsOf lineCells
    (map_set cache line0
       (lineDecorationsOf lineCells cache editor line0))
    editor line
  = lineDecorationsOf lineCells cache editor line.
Proof.
  unfold CellGrid.lineDecorationsOf at 1. rewrite map_get_set.
  destruct (decide (line0 = line)) as [->|]; [done|].
  unfold CellGrid.lineDecorationsOf. done.
Qed.

Lemma decorationsStep_pair lineCells editor results cache line :
  decorationsStep lineCells editor (results, cache) line
  = (CellGrid.collectDecorations getDecorator results
       (lineDecorationsOf lineCells cache editor line),
     map_set cache line (lineDecorationsOf lineCells cache editor line)).
Proof. done. Qed.

(** The cache after the loop: the lines of the loop hold the decorations
    that the loop took for them, the other lines are as before. *)
Lemma decorationsStep_cache lineCells editor lines results cache line :
  map_get (foldl (decorationsStep lineCells
                    editor) (results, cache) lines).2 line
  = if decide (line ∈ lines)
    then Some (lineDecorationsOf lineCells cache editor line)
    else map_get cache line.
Proof.
  revert results cache. induction lines as [|line0 lines IH]; intros results cache.
  - by destruct (decide (line ∈ [])) as [?%elem_of_nil|].
  - cbn [foldl]. rewrite decorationsStep_pair, IH, lineDecorationsOf_set.
    destruct (decide (line ∈ lines)) as [Hin|Hnotin].
    + rewrite decide_True; [done|]. by right.
    + rewrite map_get_set. destruct (decide (line0 = line)) as [->|Hne].
      * rewrite decide_True; [done|]. left.
      * rewrite decide_False; [done|]. by intros [->|?]%elem_of_cons.
Qed.

(** A loop over cached lines does not look at the stored cells. *)
Lemma decorationsStep_cached lineCells lineCells' editor lines results cache :
  (forall line, line ∈ lines -> is_Some (map_get cache line)) ->
  foldl (decorationsStep lineCells' editor)
        (results, cache) lines
  = foldl (decorationsStep lineCells editor)
          (results, cache) lines.
Proof.
  revert results cache. induction lines as [|line0 lines IH]; intros results cache Hc;
    [done|].
  cbn [foldl]. rewrite !decorationsStep_pair.
  destruct (Hc line0) as [cached Hcached]; [left|].
  unfold CellGrid.lineDecorationsOf. rewrite Hcached.
  apply IH. intros line Hin. rewrite map_get_set. case_decide; [done|].
  apply Hc. by right.
Qed.

(** A loop that starts on a cache which already holds what the loop leaves
    for its lines returns the same results and leaves the cache as it
    is. *)
Lemma decorationsStep_again lineCells editor lines results cache cache' :
  (forall line, line ∈ lines ->
     map_get cache' line
     = map_get (foldl (decorationsStep lineCells editor) (results, cache) lines).2 line) ->
  foldl (decorationsStep lineCells editor)
        (results, cache') lines
  = ((foldl (decorationsStep lineCells editor)
            (results, cache) lines).1, cache').
Proof.
  revert results cache. induction lines as [|line0 lines IH]; intros results cache Hc;
    [done|].
  cbn [foldl] in *. rewrite !decorationsStep_pair. rewrite decorationsStep_pair in Hc.
  assert (Hline0 : map_get cache' line0
            = Some (lineDecorationsOf lineCells cache
                      editor line0)).
  { rewrite Hc by left. rewrite decorationsStep_cache, lineDecorationsOf_set.
    destruct (decide (line0 ∈ lines)); [done|]. rewrite map_get_set.
    by rewrite decide_True. }
  assert (Hd : lineDecorationsOf lineCells cache' editor line0
               = lineDecorationsOf lineCells cache editor
                   line0).
  { unfold CellGrid.lineDecorationsOf at 1. by rewrite Hline0. }
  rewrite Hd, (map_set_same_value cache') by done.
  apply IH. intros line Hin. apply Hc. by right.
Qed.

(** The decorations that [getDecorations] returns have distinct
    decorators. *)
Lemma collectDecorations_NoDup results lineDecorations :
  NoDup (map_keys results) ->
  NoDup (map_keys (CellGrid.collectDecorations getDecorator results lineDecorations)).
Proof.
  unfold CellGrid.collectDecorations. revert results.
  induction lineDecorations as [|[id opts] rest IH]; intros results Hnd; [done|].
  simpl. apply IH. destruct (getDecorator id).1; [|done].
  by apply map_keys_set_NoDup.
Qed.

Lemma decorationsStep_NoDup lineCells editor lines results cache :
  NoDup (map_keys results) ->
  NoDup (map_keys (foldl (decorationsStep lineCells editor) (results, cache) lines).1).
Proof.
  revert results cache. induction lines as [|line lines IH]; intros results cache Hnd;
    [done|].
  cbn [foldl]. rewrite decorationsStep_pair. apply IH. by apply collectDecorations_NoDup.
Qed.

Lemma computedDecorations_NoDup editor viewport st :
  NoDup (map_keys (CellGrid.computedDecorations getDecorator computeLineHighlights
                     editor viewport st)).
Proof.
  unfold CellGrid.computedDecorations. rewrite getDecorations_loop.
  apply decorationsStep_NoDup. constructor.
Qed.

(** X17.  [getDecorations] fills the line cache and
    trusts it: afterwards every line from [startLine] to [endLine] is
    cached, with the decorations it had in the cache or, when it had none,
    with those computed from the stored cells, and the other lines of the
    cache are as before; and when every line of the range is cached, the
    result does not depend on the stored cells at all. *)
Theorem getDecorations_fills_and_trusts_the_cache
    (lineCells lineCells' : sparse (list ValidCell))
    (cache : jsmap Z (jsmap Z (list CellGrid.DecorationOptions)))
    (editor : CellGrid.Editor) (startLine endLine : Z) :
  (forall line,
     map_get (CellGrid.getDecorations getDecorator computeLineHighlights lineCells cache
                editor startLine endLine).2 line
     = if decide (startLine <= line <= endLine)%Z
       then Some (match map_get cache line with
                  | Some cached => cached
                  | None => CellGrid.getDecorationsForLine getDecorator
                              computeLineHighlights lineCells editor line
                  end)
       else map_get cache line) /\
  ((forall line, (startLine <= line <= endLine)%Z -> is_Some (map_get cache line)) ->
   CellGrid.getDecorations getDecorator computeLineHighlights lineCells' cache editor
     startLine endLine
   = CellGrid.getDecorations getDecorator computeLineHighlights lineCells cache editor
       startLine endLine).
Proof.
  rewrite !getDecorations_loop. split.
  - intros line. rewrite decorationsStep_cache.
    destruct (decide (line ∈ CellGrid.linesFromTo startLine endLine)) as [Hin|Hnotin].
    + apply elem_of_linesFromTo in Hin. by rewrite decide_True.
    + rewrite decide_False; [done|]. by rewrite <- elem_of_linesFromTo.
  - intros Hcached. apply decorationsStep_cached.
    intros line Hin. apply Hcached. by apply elem_of_linesFromTo.
Qed.

Lemma clear_none (prev curr : list Decorator)
    (m : jsmap Decorator (list (CellGrid.DecorationOptions (Style := Style)))) :
  (forall d, d ∈ prev -> d ∈ curr) ->
  foldl (fun m decorator =>
           if bool_decide (decorator ∈ curr) then m else map_set m decorator [])
        m prev = m.
Proof.
  revert m. induction prev as [|d prev IH]; intros m Hsub; [done|].
  simpl. rewrite bool_decide_eq_true_2 by (apply Hsub; left).
  apply IH. intros d' Hd'. apply Hsub. by right.
Qed.

(** X18.  A refresh that follows a refresh, with the same
    editor and viewport and no event in between, leaves the state as it is
    and applies exactly the decorations computed for the viewport, each
    decorator once: it clears nothing. *)
Theorem refreshDecorations_again (editor : CellGrid.Editor) (viewport : CellGrid.Viewport)
    (st st1 : CellGrid.GridState (Decorator := Decorator) (Style := Style))
    (calls1 : list (Decorator * list CellGrid.DecorationOptions)) :
  CellGrid.refreshDecorations getDecorator computeLineHighlights
    (Some editor) (Some viewport) st = (st1, calls1) ->
  CellGrid.refreshDecorations getDecorator computeLineHighlights
    (Some editor) (Some viewport) st1
  = (st1, CellGrid.computedDecorations getDecorator computeLineHighlights
            editor viewport st) /\
  NoDup (CellGrid.computedDecorations getDecorator computeLineHighlights
           editor viewport st).*1.
Proof.
  intros Hfirst. split; [|apply computedDecorations_NoDup].
  rewrite refreshDecorations_eq in Hfirst. cbv zeta in Hfirst.
  pose proof (computedDecorations_NoDup editor viewport st) as Hnd.
  set (computed := CellGrid.computedDecorations _ _ editor viewport st) in *.
  assert (Hmerged : foldl (fun m '(decorator, opts) =>
                             CellGrid.pushDecorations m decorator opts) [] computed
                    = computed).
  { rewrite merge_distinct; [done|done|]. intros d _ Hd. by apply elem_of_nil in Hd. }
  rewrite Hmerged in Hfirst.
  set (cache1 := (CellGrid.getDecorations getDecorator computeLineHighlights
                    (CellGrid.lineCells st) (CellGrid.lineDecorationsCache st) editor
                    (Z.max 0 (CellGrid.topline viewport))
                    (Z.min (CellGrid.lineCount editor - 1) (CellGrid.botline viewport))).2)
    in *.
  assert (Hsame : CellGrid.getDecorations getDecorator computeLineHighlights
                    (CellGrid.lineCells st) cache1
                    editor (Z.max 0 (CellGrid.topline viewport))
                    (Z.min (CellGrid.lineCount editor - 1) (CellGrid.botline viewport))
                  = (computed, cache1)).
  { unfold computed, cache1, CellGrid.computedDecorations. rewrite !getDecorations_loop.
    by apply decorationsStep_again. }
  injection Hfirst as <- _.
  rewrite refreshDecorations_eq. cbv zeta.
  assert (Hc2 : CellGrid.computedDecorations getDecorator computeLineHighlights
                  editor viewport
                  (CellGrid.mkGrid (CellGrid.lineCells st) (map_keys computed)
                     (CellGrid.isDirty st) cache1)
                = computed).
  { unfold CellGrid.computedDecorations at 1.
    cbn [CellGrid.lineCells CellGrid.lineDecorationsCache]. by rewrite Hsame. }
  rewrite Hc2, Hmerged.
  cbn [CellGrid.lineCells CellGrid.prevDecorators CellGrid.isDirty
       CellGrid.lineDecorationsCache].
  rewrite Hsame. cbn [snd]. by rewrite clear_none.
Qed.

(** X19.  [handleRedrawFlush] leaves the grid clean, so a
    flush that follows a flush applies nothing, whatever editor and
    viewport it finds.  The flag is also cleared by a flush that finds no
    editor: it applies nothing and changes nothing else, and the refresh
    that was due is not made up for by the next flush. *)
Theorem handleRedrawFlush_leaves_the_grid_clean
    (editor editor' : option CellGrid.Editor) (viewport viewport' : option CellGrid.Viewport)
    (st : CellGrid.GridState (Decorator := Decorator) (Style := Style)) :
  CellGrid.isDirty
    (CellGrid.handleRedrawFlush getDecorator computeLineHighlights editor viewport st).1
  = false /\
  CellGrid.handleRedrawFlush getDecorator computeLineHighlights editor' viewport'
    (CellGrid.handleRedrawFlush getDecorator computeLineHighlights editor viewport st).1
  = ((CellGrid.handleRedrawFlush getDecorator computeLineHighlights editor viewport st).1,
     []) /\
  CellGrid.handleRedrawFlush getDecorator computeLineHighlights None viewport st
  = (CellGrid.mkGrid (CellGrid.lineCells st) (CellGrid.prevDecorators st) false
       (CellGrid.lineDecorationsCache st), []).
Proof.
  assert (Hclean : CellGrid.isDirty
            (CellGrid.handleRedrawFlush getDecorator computeLineHighlights
               editor viewport st).1 = false).
  { unfold CellGrid.handleRedrawFlush. destruct (CellGrid.isDirty st) eqn:Hd; [|done].
    by destruct (CellGrid.refreshDecorations _ _ editor viewport st). }
  split; [done|]. split.
  - unfold CellGrid.handleRedrawFlush at 1. by rewrite Hclean.
  - unfold CellGrid.handleRedrawFlush. simpl.
    destruct st as [cells prev dirty cache]. by destruct dirty.
Qed.

(** X20.  [dispose()] with an editor clears what the last refresh
    left on display: every decorator that the refresh applied with ranges
    is applied with the empty list, and no decorator is retained.  Without
    an editor [dispose()] does nothing, and the decorators stay
    retained. *)
Theorem dispose_clears_the_last_refresh
    (editor editor' : CellGrid.Editor) (viewport : CellGrid.Viewport)
    (st st1 : CellGrid.GridState (Decorator := Decorator) (Style := Style))
    (calls1 : list (Decorator * list CellGrid.DecorationOptions)) :
  CellGrid.refreshDecorations getDecorator computeLineHighlights
    (Some editor) (Some viewport) st = (st1, calls1) ->
  (forall decorator ranges,
     (decorator, ranges) ∈ calls1 -> ranges <> [] ->
     (decorator, []) ∈ (CellGrid.dispose (Some editor') st1).2) /\
  CellGrid.prevDecorators (CellGrid.dispose (Some editor') st1).1 = [] /\
  CellGrid.dispose None st1 = (st1, []).
Proof.
  intros Hfirst. split; [|done].
  rewrite refreshDecorations_eq in Hfirst. cbv zeta in Hfirst.
  injection Hfirst as <- <-. simpl.
  intros decorator ranges Hcall Hranges.
  apply clear_elem_of in Hcall as [Hcall|?]; [|done].
  apply (list_elem_of_fmap_2 fst) in Hcall.
  by apply (list_elem_of_fmap_2 (fun d => (d, [])
              : Decorator * list (CellGrid.DecorationOptions (Style := Style)))) in Hcall.
Qed.

End cell_grid_extras.

Lemma handleGridLine_in_two_parts_witness :
  CellGrid.handleGridLine (Decorator := nat) (Style := unit) (fun id => id) 0 1
    ([(ascii "a", Some 2%Z, Some 2)] ++ [(ascii "b", Some 3%Z, None)])
    Examples.cellGridId1
  = CellGrid.handleGridLine (fun id => id) 0
      (1 + length (CellGrid.redrawCells (fun id => id) [(ascii "a", Some 2%Z, Some 2)]))
      [(ascii "b", Some 3%Z, None)]
      (CellGrid.handleGridLine (fun id => id) 0 1 [(ascii "a", Some 2%Z, Some 2)]
         Examples.cellGridId1).
Proof.
  apply (handleGridLine_in_two_parts (fun id => id) 0 1
           [(ascii "a", Some 2%Z, Some 2)] [(ascii "b", Some 3%Z, None)]
           Examples.cellGridId1).
  exact I.
Defined.


Lemma refreshDecorations_again_witness :
  CellGrid.refreshDecorations Examples.groupDecorator Examples.cellPerColumn
    (Some Examples.editorAB) (Some Examples.viewportAB)
    (CellGrid.refreshDecorations Examples.groupDecorator Examples.cellPerColumn
       (Some Examples.editorAB) (Some Examples.viewportAB) Examples.cellGridId1).1
  = ((CellGrid.refreshDecorations Examples.groupDecorator Examples.cellPerColumn
        (Some Examples.editorAB) (Some Examples.viewportAB) Examples.cellGridId1).1,
     CellGrid.computedDecorations Examples.groupDecorator Examples.cellPerColumn
       Examples.editorAB Examples.viewportAB Examples.cellGridId1) /\
  NoDup (CellGrid.computedDecorations Examples.groupDecorator Examples.cellPerColumn
           Examples.editorAB Examples.viewportAB Examples.cellGridId1).*1.
Proof.
  apply (refreshDecorations_again Examples.groupDecorator Examples.cellPerColumn
           Examples.editorAB Examples.viewportAB Examples.cellGridId1 _ _
           (surjective_pairing _)).
Defined.

Lemma dispose_clears_the_last_refresh_witness :
  (1, []) ∈ (CellGrid.dispose (Some Examples.editorAB)
               (CellGrid.refreshDecorations Examples.groupDecorator Examples.cellPerColumn
                  (Some Examples.editorAB) (Some Examples.viewportAB)
                  Examples.cellGridId1).1).2.
Proof.
  refine (proj1 (dispose_clears_the_last_refresh
                   Examples.groupDecorator Examples.cellPerColumn
                   Examples.editorAB Examples.editorAB Examples.viewportAB
                   Examples.cellGridId1 _ _ (surjective_pairing _))
                1 [CellGrid.mkOptions 0 0 2 None] _ _).
  - vm_compute. apply list_elem_of_here.
  - discriminate.
Defined.
(** * The cell-based grid: ranges of a line, virtual text, end-of-line cells *)

(** X21.  [lineHighlightsToRanges] returns the normal ranges
    first and the virtual ranges after them: one virtual range, in the
    order of the columns, for every column whose list has several entries
    or a first entry with virtual text, carrying that list and the column.
    Every normal range is on the given line and is a non-empty stretch of
    columns that each hold a single entry of the id of the range without
    virtual text; every such column lies in a normal range of its id; and
    the normal ranges have, all together, as many columns as there are such
    columns.  When the map gives the columns in ascending order, the normal
    ranges are maximal: neither the column at the end of a range nor the
    column before its start is such a column of its id.  A column with an
    empty list gives no range and no exception: without these columns the
    result is the same. *)
Theorem lineHighlightsToRanges_virtual_after_normal (line : Z)
    (highlights : jsmap nat (list Highlight)) :
  (exists normals,
     CellGrid.lineHighlightsToRanges line highlights
     = normals
       ++ ((fun kv => VirtualRange kv.2 line kv.1)
             <$> filter (fun kv => isVirtualColumn kv.2 = true) highlights) /\
     (forall r, r ∈ normals ->
        exists id s e, r = NormalRange id line s e /\ s < e /\
          forall c, s <= c < e -> realEntry highlights c id) /\
     (forall c id, realEntry highlights c id ->
        exists s e, NormalRange id line s e ∈ normals /\ s <= c < e) /\
     sum_list_with rangeWidth normals
     = length (filter (fun kv => isRealColumn kv.2 = true) highlights) /\
     (ascendingAfter None highlights ->
      forall id s e, NormalRange id line s e ∈ normals ->
        ~ realEntry highlights e id /\
        forall p, S p = s -> ~ realEntry highlights p id)) /\
  CellGrid.lineHighlightsToRanges line (filter (fun kv => kv.2 <> []) highlights)
  = CellGrid.lineHighlightsToRanges line highlights.
Proof.
  unfold CellGrid.lineHighlightsToRanges. split; [|by rewrite lineHighlightStep_nonempty].
  destruct (lineHighlightStep_loop line highlights [] []) as [Hv _].
  { intros id l r Hin. by apply elem_of_nil in Hin. }
  assert (Hstart : lineRanged line [] []).
  { split; [|split]; [|by intros c id (h & ?%elem_of_nil & _)|done].
    intros id l r Hin. by apply elem_of_nil in Hin. }
  pose proof (lineRanged_loop line highlights [] [] [] Hstart) as (Hsound & Hcover & Hsum).
  pose proof (fun Hasc => lineMaximal_loop line highlights [] [] [] None Hasc Hstart) as Hmax.
  rewrite app_nil_l in Hsound, Hcover, Hsum, Hmax.
  destruct (foldl _ ([], []) highlights) as [normalHighlights virtualHighlights].
  simpl in Hv, Hsound, Hcover, Hsum, Hmax. subst virtualHighlights.
  eexists. split; [done|]. split; [|split; [|split]].
  - intros r (hl & -> & Hhl)%list_elem_of_fmap.
    apply elem_of_concat in Hhl as (l & Hhl & Hl).
    apply list_elem_of_fmap in Hl as ([id l'] & -> & Hl). simpl in Hhl.
    destruct (Hsound id l' hl Hl Hhl) as (<- & <- & Hlt & Hcols).
    by eexists _, _, _.
  - intros c id Hc. destruct (Hcover c id Hc) as (l & r & Hl & Hr & Hcr).
    apply map_get_elem_of in Hl.
    destruct (Hsound id l r Hl Hr) as (<- & <- & _ & _).
    exists (CellGrid.nStartCol r), (CellGrid.nEndCol r). split; [|done].
    apply list_elem_of_fmap. exists r. split; [done|].
    apply elem_of_concat. exists l. split; [done|].
    apply list_elem_of_fmap. by exists (CellGrid.nHlId r, l).
  - rewrite <- Hsum. generalize (concat normalHighlights.*2). intros l.
    induction l as [|r l IH]; [done|]. rewrite fmap_cons. simpl in *. by rewrite IH.
  - intros Hasc id s e (hl & [= -> _ -> ->] & Hhl)%list_elem_of_fmap.
    destruct (Hmax Hasc) as (bound & Hkeys & _ & Hranges).
    { split; [constructor|]. split; [by intros c hls ?%elem_of_nil|done]. }
    apply elem_of_concat in Hhl as (l & Hhl & Hl).
    apply list_elem_of_fmap in Hl as ([id l'] & -> & Hl). simpl in Hhl.
    destruct (Hsound id l' hl Hl Hhl) as (<- & _).
    apply (map_get_NoDup _ _ _ Hkeys) in Hl.
    destruct (Hranges _ _ Hl) as [_ Hr]. destruct (Hr hl Hhl) as (_ & Hend & Hstart').
    by split.
Qed.

Lemma lineHighlightsToRanges_virtual_after_normal_witness :
  ascendingAfter None Examples.lineColumns /\
  CellGrid.lineHighlightsToRanges 7 Examples.lineColumns
  = [NormalRange 1 7 0 2; NormalRange 1 7 3 4;
     VirtualRange [Examples.tabCell 1; Examples.tabCell 1] 7 2] /\
  ~ realEntry Examples.lineColumns 2 1 /\
  ~ realEntry Examples.lineColumns 4 1.
Proof.
  assert (Hasc : ascendingAfter None Examples.lineColumns) by (simpl; repeat split; lia).
  assert (Hall : CellGrid.lineHighlightsToRanges 7 Examples.lineColumns
                 = [NormalRange 1 7 0 2; NormalRange 1 7 3 4]
                   ++ [VirtualRange [Examples.tabCell 1; Examples.tabCell 1] 7 2])
    by reflexivity.
  destruct (lineHighlightsToRanges_virtual_after_normal 7 Examples.lineColumns)
    as [(normals & Heq & _ & _ & _ & Hmax) _].
  rewrite Hall in Heq.
  change ((fun kv : nat * list Highlight => VirtualRange kv.2 7 kv.1)
            <$> filter (fun kv => isVirtualColumn kv.2 = true) Examples.lineColumns)
    with [VirtualRange [Examples.tabCell 1; Examples.tabCell 1] 7 2] in Heq.
  apply app_inv_tail in Heq. subst normals.
  split; [exact Hasc|]. split; [exact Hall|]. split.
  - refine (proj1 (Hmax Hasc 1%Z 0 2 _)). left.
  - refine (proj1 (Hmax Hasc 1%Z 3 4 _)). right. left.
Defined.

Section virt_text_extras.
Context {Decorator Style : Type}.
Variable getDecorator : Z -> option Decorator * Style.

(** X22.  The options that [createColVirtTextOptions] returns
    for a highlight id are, in the order of the fragments, exactly one per
    fragment of that id when the group store has a decorator for the id,
    and the id is no key of the result otherwise.  The option of a fragment
    is an empty range at the column, or at the end of the line when the
    column lies behind it, that carries the text of the fragment, a width
    of as many [ch] as the text has code units, the options of the
    decorator, and as margin the index of the fragment among the fragments,
    plus the distance from the end of the line when the column lies behind
    it, the [z-index] being 99 less the margin. *)
Theorem createColVirtTextOptions_one_option_per_fragment (line : Z) (lineText : jsstring)
    (col : nat) (colHighlights : list Highlight) (id : Z) :
  let processed := CellGrid.processedColHighlights colHighlights in
  let hlId_options :=
    CellGrid.createColVirtTextOptions getDecorator line lineText col colHighlights in
  default [] (map_get hlId_options id)
  = (fun kv : nat * CellGrid.Fragment =>
       CellGrid.mkOptions line (Nat.min (length lineText) col)
         (Nat.min (length lineText) col)
         (Some (CellGrid.mkRender (CellGrid.fragVirtText kv.2)
                  (kv.1 + (col - length lineText))
                  (length (CellGrid.fragVirtText kv.2))
                  (99 - Z.of_nat (kv.1 + (col - length lineText)))%Z id
                  (getDecorator id).2)))
    <$> filter (fun kv => CellGrid.fragHlId kv.2 = id /\ is_Some (getDecorator id).1)
               (zip (seq 0 (length processed)) processed) /\
  (is_Some (map_get hlId_options id)
   <-> exists f, f ∈ processed /\ CellGrid.fragHlId f = id /\
                 is_Some (getDecorator id).1).
Proof.
  intros processed hlId_options. unfold hlId_options, CellGrid.createColVirtTextOptions.
  fold processed. split.
  - by rewrite (emitFragment_loop getDecorator line (length lineText) col processed 0 [] id).
  - rewrite (emitFragment_loop_keys getDecorator line (length lineText) col processed 0 [] id).
    simpl. split; [|by right]. by intros [[? ?]|?].
Qed.

End virt_text_extras.

(** X23.  The fragments into which [createColVirtTextOptions]
    composes the entries of a column keep their text: the texts of the
    fragments, one after the other, are the virtual texts of the entries
    (the text of the cell for an entry without virtual text), one after the
    other.  There are no more fragments than entries. *)
Theorem processedColHighlights_keep_the_text (colHighlights : list Highlight) :
  join (CellGrid.fragVirtText <$> CellGrid.processedColHighlights colHighlights)
  = join ((fun h => default (text (cell h)) (virtText h)) <$> colHighlights) /\
  length (CellGrid.processedColHighlights colHighlights) <= length colHighlights.
Proof.
  split.
  - unfold CellGrid.processedColHighlights. by rewrite join_processColHighlight.
  - destruct colHighlights as [|h0 rest]; [done|].
    rewrite length_processedColHighlights. simpl.
    pose proof (length_filter (fun h => hlId (cell h) <> 0%Z) rest). lia.
Qed.

(** X24.  The cells over which [computeLineHighlights] walks are
    the stored cells of the line with the cells past the end of the line
    combined: the first [idealMaxCells] cells are kept as they are, behind
    them no two neighbouring cells have the same highlight id, and the
    texts of all cells, one after the other, are the texts of the stored
    cells, one after the other; combining never adds a cell. *)
Theorem walkCells_combines_the_cells_past_the_line (idealMaxCells : Z)
    (lineCells : list ValidCell) :
  join (text <$> CellGrid.walkCells idealMaxCells lineCells) = join (text <$> lineCells) /\
  length (CellGrid.walkCells idealMaxCells lineCells) <= length lineCells /\
  (forall i, i < length (sliceTo idealMaxCells lineCells) ->
     CellGrid.walkCells idealMaxCells lineCells !! i = lineCells !! i) /\
  (forall i a b,
     length (sliceTo idealMaxCells lineCells) <= i ->
     CellGrid.walkCells idealMaxCells lineCells !! i = Some a ->
     CellGrid.walkCells idealMaxCells lineCells !! S i = Some b ->
     hlId a <> hlId b).
Proof.
  unfold CellGrid.walkCells.
  destruct (combineEolCell_loop (CellGrid.sliceFrom idealMaxCells lineCells) [] 0)
    as (Hjoin & Hle & Hdist); [done|done|].
  set (eol := (foldl CellGrid.combineEolCell ([], 0%Z) _).1) in *.
  pose proof (sliceTo_sliceFrom idealMaxCells lineCells) as Hsplit.
  split; [|split; [|split]].
  - rewrite fmap_app. unfold join in *. rewrite concat_app, Hjoin. simpl.
    rewrite <- concat_app, <- fmap_app. by rewrite Hsplit.
  - rewrite length_app. simpl in Hle.
    apply (f_equal length) in Hsplit. rewrite length_app in Hsplit. lia.
  - intros i Hi. rewrite lookup_app_l by done. clear -Hi.
    unfold sliceTo in *. destruct (0 <=? idealMaxCells)%Z;
      rewrite length_take in Hi; apply lookup_take_lt; lia.
  - intros i a b Hi Ha Hb. rewrite lookup_app_r in Ha, Hb by lia.
    replace (S i - length (sliceTo idealMaxCells lineCells))
      with (S (i - length (sliceTo idealMaxCells lineCells))) in Hb by lia.
    by eapply Hdist.
Qed.
(** * [HighlightProvider]: the walk ends, the cells are expanded *)


(** X26.  The expansion of the cells in [processHLCellsEvent]
    cuts trailing blanks: no blank cell (text [" "]) is pushed once more
    than [maxCells] cells are there, so every expanded cell at an index
    above [maxCells] is not blank.  When no cell of the event is blank,
    nothing is cut, and the expansion is that of [handleGridLine] without
    normalisation of the ids: every cell [repeat] times (once without
    [repeat]), a cell without id taking the id of the cell before it. *)
Theorem expandCells_cuts_trailing_blanks
    (cells : list (jsstring * option Z * option nat)) (maxCells : Z) :
  (forall i c,
     Provider.expandCells cells maxCells 0 [] !! i = Some c ->
     (maxCells < Z.of_nat i)%Z -> text c <> [SPACE]) /\
  (Forall (fun c => c.1.1 <> [SPACE]) cells ->
   Provider.expandCells cells maxCells 0 [] = CellGrid.redrawCells (fun id => id) cells).
Proof.
  split.
  - intros i c Hc Hi Hblank.
    pose proof (expandCells_blank cells maxCells 0 [] ltac:(done) i c Hc Hblank). lia.
  - intros Hall. by rewrite expandCells_not_blank.
Qed.
(** * [HighlightProvider]: colours, configurations and decorators of the groups *)

(** X27.  [vimHighlightToVSCodeOptions] writes a colour
    attribute as ["#"] followed by hexadecimal digits that read back as the
    number of the attribute, padded with zeros to six digits, and exactly
    six for a number below [2^24], as long as the attributes do not carry
    [reverse].  When they do, with whatever value, the background and the
    foreground are the theme colours [editor.foreground] and
    [editor.background], whatever colours the attributes name. *)
Theorem vimHighlightToVSCodeOptions_colors (attrs : Provider.VimHighlightUIAttributes) :
  match Provider.reverse_ attrs with
  | Some _ =>
      Provider.backgroundColor (Provider.vimHighlightToVSCodeOptions attrs)
      = Some (Provider.ThemeColor (ascii "editor.foreground")) /\
      Provider.color (Provider.vimHighlightToVSCodeOptions attrs)
      = Some (Provider.ThemeColor (ascii "editor.background"))
  | None =>
      (forall n, Provider.background attrs = Some n ->
         exists s,
           Provider.backgroundColor (Provider.vimHighlightToVSCodeOptions attrs)
           = Some (Provider.ColorString (ascii "#" ++ s)) /\
           Provider.hexValue s = n /\
           Forall (fun u => (48 <= u <= 57)%N \/ (97 <= u <= 102)%N) s /\
           6 <= length s /\ ((n < 2 ^ 24)%N -> length s = 6)) /\
      (forall n, Provider.foreground attrs = Some n ->
         exists s,
           Provider.color (Provider.vimHighlightToVSCodeOptions attrs)
           = Some (Provider.ColorString (ascii "#" ++ s)) /\
           Provider.hexValue s = n /\
           Forall (fun u => (48 <= u <= 57)%N \/ (97 <= u <= 102)%N) s /\
           6 <= length s /\ ((n < 2 ^ 24)%N -> length s = 6)) /\
      (Provider.background attrs = None ->
       Provider.backgroundColor (Provider.vimHighlightToVSCodeOptions attrs) = None) /\
      (Provider.foreground attrs = None ->
       Provider.color (Provider.vimHighlightToVSCodeOptions attrs) = None)
  end.
Proof.
  unfold Provider.vimHighlightToVSCodeOptions.
  destruct (Provider.reverse_ attrs) as [r|]; [done|]. simpl.
  split; [|split; [|split]].
  - intros n ->. simpl. destruct (colorString_spec n) as (s & -> & Hs). by exists s.
  - intros n ->. simpl. destruct (colorString_spec n) as (s & -> & Hs). by exists s.
  - by intros ->.
  - by intros ->.
Qed.

(** X28.  [normalizeDecorationConfig] is idempotent and leaves no
    colour that is a string starting with ["theme."]: such a string has
    become the theme colour named by the rest of it.  The options that
    [vimHighlightToVSCodeOptions] makes are already normal, and so is every
    configuration that the constructor keeps. *)
Theorem normalizeDecorationConfig_idempotent
    (config : Provider.ThemableDecorationRenderOptions)
    (attrs : Provider.VimHighlightUIAttributes) :
  Provider.normalizeDecorationConfig (Provider.normalizeDecorationConfig config)
  = Provider.normalizeDecorationConfig config /\
  (forall s, take 6 s = ascii "theme." ->
     Provider.backgroundColor (Provider.normalizeDecorationConfig config)
       <> Some (Provider.ColorString s) /\
     Provider.borderColor (Provider.normalizeDecorationConfig config)
       <> Some (Provider.ColorString s) /\
     Provider.color (Provider.normalizeDecorationConfig config)
       <> Some (Provider.ColorString s) /\
     Provider.outlineColor (Provider.normalizeDecorationConfig config)
       <> Some (Provider.ColorString s) /\
     Provider.overviewRulerColor (Provider.normalizeDecorationConfig config)
       <> Some (Provider.ColorString s)) /\
  Provider.normalizeDecorationConfig (Provider.vimHighlightToVSCodeOptions attrs)
  = Provider.vimHighlightToVSCodeOptions attrs /\
  (forall highlights g kept,
     Provider.normalizedHighlights highlights g = Some kept ->
     Provider.normalizeDecorationConfig kept = kept).
Proof.
  assert (Hidem : forall c,
            Provider.normalizeDecorationConfig (Provider.normalizeDecorationConfig c)
            = Provider.normalizeDecorationConfig c).
  { intros c. unfold Provider.normalizeDecorationConfig. simpl.
    by rewrite !normalizeThemeColor_idempotent. }
  split; [|split; [|split]]; [| | |
    intros highlights g kept; unfold Provider.normalizedHighlights;
    destruct (highlights g) as [c|]; [|done]; intros [= <-]; apply Hidem].
  - unfold Provider.normalizeDecorationConfig. simpl.
    by rewrite !normalizeThemeColor_idempotent.
  - intros s Hs. unfold Provider.normalizeDecorationConfig. simpl.
    repeat split; by apply normalizeThemeColor_not_theme.
  - unfold Provider.vimHighlightToVSCodeOptions, Provider.normalizeDecorationConfig.
    destruct (Provider.reverse_ attrs); simpl; [done|].
    f_equal.
    + by destruct (Provider.background attrs).
    + by destruct (Provider.foreground attrs).
Qed.

(** X29.  [addHighlightGroup] for groups none of which is
    configured.  With attributes that have at least one key, the id gets the
    decorator of a new call of [createTextEditorDecorationType],
    [getDecoratorOptions] returns for it the options made from the
    attributes, the decorator that the id had
    is disposed, and the other ids keep theirs.  With attributes that have
    no key, no decorator is made: the decorator that the id had is
    disposed, and the id still names it. *)
Theorem addHighlightGroup_without_configured_group
    (highlights : jsstring -> option Provider.ThemableDecorationRenderOptions)
    (st : Provider.DecoratorState) (id : Z) (attrs : Provider.VimHighlightUIAttributes)
    (groups : list jsstring) :
  Forall (fun g => highlights g = None) groups ->
  (forall d, Provider.getDecoratorForHighlightId st id = Some d ->
     d ∈ Provider.disposed (Provider.addHighlightGroup highlights st id attrs groups)) /\
  (forall id', id' <> id ->
     Provider.getDecoratorForHighlightId
       (Provider.addHighlightGroup highlights st id attrs groups) id'
     = Provider.getDecoratorForHighlightId st id') /\
  (0 < Provider.attrKeys attrs ->
   Provider.getDecoratorForHighlightId
     (Provider.addHighlightGroup highlights st id attrs groups) id
   = Some (Provider.created st) /\
   Provider.getDecoratorOptions
     (Provider.addHighlightGroup highlights st id attrs groups) (Provider.created st)
   = Some (Provider.vimHighlightToVSCodeOptions attrs) /\
   Provider.created (Provider.addHighlightGroup highlights st id attrs groups)
   = S (Provider.created st)) /\
  (Provider.attrKeys attrs = 0 ->
   Provider.getDecoratorForHighlightId
     (Provider.addHighlightGroup highlights st id attrs groups) id
   = Provider.getDecoratorForHighlightId st id /\
   Provider.created (Provider.addHighlightGroup highlights st id attrs groups)
   = Provider.created st).
Proof.
  intros Hnone. unfold Provider.addHighlightGroup.
  rewrite (find_none_configured (fun g => is_Some (highlights g))).
  2:{ eapply Forall_impl; [exact Hnone|]. intros g -> [? ?]. done. }
  unfold Provider.getDecoratorForHighlightId, Provider.getDecoratorOptions.
  destruct (0 <? Provider.attrKeys attrs) eqn:Hkeys.
  - apply Nat.ltb_lt in Hkeys.
    destruct (map_get (Provider.highlighIdToDecorator st) id) as [d0|] eqn:Hd0;
      unfold Provider.createDecoratorForHighlightId; simpl;
      (split; [|split; [|split]]).
    + intros d [= <-]. left.
    + intros id' Hne. rewrite map_get_set. by rewrite decide_False.
    + intros _. rewrite !map_get_set. by rewrite !decide_True.
    + lia.
    + done.
    + intros id' Hne. rewrite map_get_set. by rewrite decide_False.
    + intros _. rewrite !map_get_set. by rewrite !decide_True.
    + lia.
  - apply Nat.ltb_ge in Hkeys.
    destruct (map_get (Provider.highlighIdToDecorator st) id) as [d0|] eqn:Hd0; simpl.
    + split; [intros d [= <-]; left|]. split; [done|]. split; [lia|].
      intros _. by rewrite Hd0.
    + split; [done|]. split; [done|]. split; [lia|]. intros _. by rewrite Hd0.
Qed.

Lemma addHighlightGroup_without_configured_group_witness :
  Provider.getDecoratorForHighlightId
    (Provider.addHighlightGroup (fun _ => None) (Provider.mkDecorators [(7%Z, 0)] [] 1 []) 7
       (Provider.mkAttrs None None None None None None None None None None 0)
       [ascii "Comment"]) 7
  = Some 0 /\
  0 ∈ Provider.disposed
        (Provider.addHighlightGroup (fun _ => None) (Provider.mkDecorators [(7%Z, 0)] [] 1 [])
           7 (Provider.mkAttrs None None None None None None None None None None 0)
           [ascii "Comment"]).
Proof.
  destruct (addHighlightGroup_without_configured_group (fun _ => None)
              (Provider.mkDecorators [(7%Z, 0)] [] 1 []) 7
              (Provider.mkAttrs None None None None None None None None None None 0)
              [ascii "Comment"])
    as (Hdisposed & _ & _ & Hkept).
  - repeat constructor.
  - split.
    + exact (proj1 (Hkept eq_refl)).
    + exact (Hdisposed 0 eq_refl).
Defined.

(** X30.  [addHighlightGroup] with a configured group: the
    last group of the list that is configured decides.  When its name is
    not empty, an id without decorator gets a new decorator with the
    configuration of that group, whatever the attributes, and an id that
    has a decorator keeps it: the provider is left as it is. *)
Theorem addHighlightGroup_with_configured_group
    (highlights : jsstring -> option Provider.ThemableDecorationRenderOptions)
    (st : Provider.DecoratorState) (id : Z) (attrs : Provider.VimHighlightUIAttributes)
    (pre post : list jsstring) (g : jsstring)
    (customHl : Provider.ThemableDecorationRenderOptions) :
  highlights g = Some customHl ->
  g <> [] ->
  Forall (fun g' => highlights g' = None) post ->
  (is_Some (Provider.getDecoratorForHighlightId st id) ->
   Provider.addHighlightGroup highlights st id attrs (pre ++ g :: post) = st) /\
  (Provider.getDecoratorForHighlightId st id = None ->
   Provider.getDecoratorForHighlightId
     (Provider.addHighlightGroup highlights st id attrs (pre ++ g :: post)) id
   = Some (Provider.created st) /\
   Provider.getDecoratorOptions
     (Provider.addHighlightGroup highlights st id attrs (pre ++ g :: post))
     (Provider.created st)
   = Some customHl /\
   Provider.disposed (Provider.addHighlightGroup highlights st id attrs (pre ++ g :: post))
   = Provider.disposed st).
Proof.
  intros Hg Hne Hpost. unfold Provider.addHighlightGroup.
  rewrite (find_last_configured (fun g => is_Some (highlights g)) pre post g).
  2:{ by rewrite Hg. }
  2:{ eapply Forall_impl; [exact Hpost|]. intros g' -> [? ?]. done. }
  destruct g as [|u g]; [done|]. rewrite Hg.
  unfold Provider.getDecoratorForHighlightId, Provider.getDecoratorOptions, map_has.
  split.
  - intros Hsome. by rewrite bool_decide_eq_true_2.
  - intros Hnone. rewrite bool_decide_eq_false_2 by (rewrite Hnone; by intros [? ?]).
    unfold Provider.createDecoratorForHighlightId. simpl.
    rewrite !map_get_set. by rewrite !decide_True.
Qed.

Lemma addHighlightGroup_with_configured_group_witness :
  Provider.addHighlightGroup
    (fun g => if decide (g = ascii "Comment")
              then Some (Provider.mkRenderOptions None None
                           (Some (Provider.ThemeColor (ascii "editorLineNumber.foreground")))
                           None None None None None)
              else None)
    (Provider.mkDecorators [(7%Z, 0)] [] 1 []) 7
    (Provider.mkAttrs (Some 255%N) None None None None None None None None None 0)
    ([ascii "Normal"] ++ ascii "Comment" :: [ascii "TSComment"])
  = Provider.mkDecorators [(7%Z, 0)] [] 1 [].
Proof.
  apply (addHighlightGroup_with_configured_group _ (Provider.mkDecorators [(7%Z, 0)] [] 1 [])
           7 _ [ascii "Normal"] [ascii "TSComment"] (ascii "Comment")
           (Provider.mkRenderOptions None None
              (Some (Provider.ThemeColor (ascii "editorLineNumber.foreground")))
              None None None None None)).
  - reflexivity.
  - discriminate.
  - repeat constructor.
  - by exists 0.
Defined.
